(** * Snowcord worker runtime: shard planner, supervisor and bot worker

    A shallow embedding of the supervisor module [runtime/supervisor] (the
    shard partition planner and [startWorkerRuntime]), of the message handler
    of [runtime/botProcess] and of [helpers/getShardInfoFromGuild], with the
    listeners of [runtime/gatewayProcess] and the path normalization of
    [runtime/restProcess].

    Conventions.
    - A JavaScript [number] that holds a shard id, a count or an index is a
      [Z]; fractional numbers, [NaN] and the infinities are not represented.
    - A thrown [Error] is the [Err] case of [result], carrying the message.
    - A [ChildProcess] object is a process id ([Pid]); its mutable fields
      live in a process table owned by the model of the Node runtime. *)

From stdpp Require Import gmap strings list fin_maps sorting pretty.
From Stdlib Require Import ZArith Lia.

Open Scope Z_scope.

(** ** Results of fallible code *)

Inductive result (A : Type) : Type :=
| Ok (a : A)
| Err (msg : string).
Arguments Ok {A} a.
Arguments Err {A} msg.

Definition is_Err {A} (r : result A) : Prop := ∃ msg, r = Err msg.

Definition result_bind {A B} (r : result A) (f : A → result B) : result B :=
  match r with
  | Ok a => f a
  | Err msg => Err msg
  end.

(** [array.map(f)] for an [f] that may throw: the first failure wins. *)
Fixpoint mapM_result {A B} (f : A → result B) (l : list A) : result (list B) :=
  match l with
  | [] => Ok []
  | x :: l' =>
      result_bind (f x) (λ y,
        result_bind (mapM_result f l') (λ ys, Ok (y :: ys)))
  end.

(** ** The shard partition planner *)

Module Planner.

(** [RuntimeBotWorkerConfig] of [runtime/types.ts]. *)
Record RuntimeBotWorkerConfig : Type := {
  id : string;
  shards : list Z;
}.

(** [number[] | SnowcordShardRange] of [config.ts]. *)
Inductive ShardsInput : Type :=
| ShardArray (input : list Z)
| ShardRange (start end_ : Z).

(** [SnowcordBotWorkerConfig] of [config.ts]. *)
Record SnowcordBotWorkerConfig : Type := {
  cfg_id : string;
  cfg_shards : ShardsInput;
}.

(** [SnowcordBotWorkersMode | undefined]. *)
Inductive BotWorkersMode : Type :=
| WorkersAuto
| WorkersCount (workers : Z)
| WorkersExplicit (workers : list SnowcordBotWorkerConfig).

(** [RuntimeClusterConfig] of [runtime/types.ts]. *)
Record RuntimeClusterConfig : Type := {
  cluster_id : string;
  firstShardId : Z;
  lastShardId : Z;
  botWorkers : list RuntimeBotWorkerConfig;
}.

(** [for (let shardId = first; shardId <= last; shardId += 1) acc.push(shardId)].
    [fuel] bounds the number of iterations. *)
Fixpoint pushShards (fuel : nat) (shardId last : Z) (acc : list Z) : list Z :=
  match fuel with
  | O => acc
  | S fuel' =>
      if shardId <=? last
      then pushShards fuel' (shardId + 1) last (acc ++ [shardId])
      else acc
  end.

(** Iterations the loop from [first] to [last] needs. *)
Definition spanFuel (first last : Z) : nat := Z.to_nat (last - first + 1).

(** [expandShardRange]. *)
Definition expandShardRange (input : ShardsInput) : result (list Z) :=
  match input with
  | ShardArray input =>
      match List.find (λ value, value <? 0) input with
      | Some invalidShard =>
          Err ("Invalid shard id " +:+ pretty invalidShard +:+
               " in bot worker shards array. Use non-negative integers.")
      | None => Ok (merge_sort Z.le (remove_dups input))
      end
  | ShardRange start end_ =>
      if end_ <? start
      then Err ("Invalid shard range " +:+ pretty start +:+ "-" +:+ pretty end_)
      else Ok (pushShards (spanFuel start end_) start end_ [])
  end.

(** The inner loop of the even split:
    [for (let offset = 0; offset < shardCountForWorker; offset += 1)
       shards.push(cursor + offset)]. *)
Fixpoint pushOffsets (fuel : nat) (offset shardCountForWorker cursor : Z)
    (acc : list Z) : list Z :=
  match fuel with
  | O => acc
  | S fuel' =>
      if offset <? shardCountForWorker
      then pushOffsets fuel' (offset + 1) shardCountForWorker cursor
             (acc ++ [cursor + offset])
      else acc
  end.

(** The outer loop of the even split, over [index], threading [cursor]. *)
Fixpoint generateWorkers (fuel : nat) (index workerCount baseSize remainder cursor : Z)
    (generatedWorkers : list RuntimeBotWorkerConfig) : list RuntimeBotWorkerConfig :=
  match fuel with
  | O => generatedWorkers
  | S fuel' =>
      if index <? workerCount
      then
        let shardCountForWorker := baseSize + (if index <? remainder then 1 else 0) in
        let shards :=
          pushOffsets (Z.to_nat shardCountForWorker) 0 shardCountForWorker cursor [] in
        generateWorkers fuel' (index + 1) workerCount baseSize remainder
          (cursor + shardCountForWorker)
          (generatedWorkers ++ [{| id := "bot-" +:+ pretty index; shards := shards |}])
      else generatedWorkers
  end.

(** The ["auto"] loop: one worker per shard. *)
Fixpoint pushShardWorkers (fuel : nat) (shardId last : Z)
    (acc : list RuntimeBotWorkerConfig) : list RuntimeBotWorkerConfig :=
  match fuel with
  | O => acc
  | S fuel' =>
      if shardId <=? last
      then pushShardWorkers fuel' (shardId + 1) last
             (acc ++ [{| id := "shard" +:+ pretty shardId; shards := [shardId] |}])
      else acc
  end.

(** [normalizeBotWorkers]; [None] is [undefined]. [Math.floor(a / b)] is
    [Z.div] for a positive divisor and [%] is the truncating [Z.rem]. *)
Definition normalizeBotWorkers (workers : option BotWorkersMode)
    (firstShardId lastShardId clusterCount : Z) : result (list RuntimeBotWorkerConfig) :=
  match workers with
  | Some WorkersAuto =>
      if negb (clusterCount =? 1)
      then Err "workers.botWorkers=auto is only supported when using a single cluster."
      else Ok (pushShardWorkers (spanFuel firstShardId lastShardId)
                 firstShardId lastShardId [])
  | Some (WorkersCount workers) =>
      if workers <=? 0
      then Err "workers.botWorkers as a number must be a positive integer."
      else
        let totalShardCount := lastShardId - firstShardId + 1 in
        let workerCount := workers in
        let baseSize := totalShardCount / workerCount in
        let remainder := Z.rem totalShardCount workerCount in
        Ok (generateWorkers (Z.to_nat workerCount) 0 workerCount baseSize remainder
              firstShardId [])
  | Some (WorkersExplicit ((_ :: _) as workers)) =>
      mapM_result (λ worker,
        result_bind (expandShardRange (cfg_shards worker)) (λ shards,
          Ok {| id := cfg_id worker; shards := shards |})) workers
  | Some (WorkersExplicit []) | None =>
      Ok [{| id := "bot-0";
             shards := pushShards (spanFuel firstShardId lastShardId)
                         firstShardId lastShardId [] |}]
  end.

(** [SnowcordClusterConfig] of [config.ts]; optional fields are options. *)
Record SnowcordClusterConfig : Type := {
  sc_id : string;
  sc_firstShardId : option Z;
  sc_lastShardId : option Z;
  sc_botWorkers : option BotWorkersMode;
}.

(** The fields of [SnowcordWorkerRuntimeConfig] the planner reads. *)
Record SnowcordWorkerRuntimeConfig : Type := {
  clusters : option (list SnowcordClusterConfig);
  clusterId : option string;
  workers_botWorkers : option BotWorkersMode;
}.

(** [a ?? b]. *)
Definition nullish {A} (a : option A) (b : A) : A := default b a.
Definition nullish_opt {A} (a b : option A) : option A :=
  match a with Some _ => a | None => b end.

(** [normalizeCluster]; [workerOptions] is [runtimeConfig.workers] and
    [clusterIdFromEnv] is [process.env.SC_CLUSTER_ID]. *)
Definition normalizeCluster (workerOptions : option SnowcordWorkerRuntimeConfig)
    (clusterIdFromEnv : option string) (totalShards : Z) : result RuntimeClusterConfig :=
  let clusterList := workerOptions ≫= clusters in
  let clusterCount := nullish (Z.of_nat ∘ length <$> clusterList) 1 in
  let defaultCluster :=
    {| sc_id := nullish (workerOptions ≫= clusterId) "default";
       sc_firstShardId := Some 0;
       sc_lastShardId := Some (totalShards - 1);
       sc_botWorkers := workerOptions ≫= workers_botWorkers |} in
  let configuredClusterId := workerOptions ≫= clusterId in
  let selectedClusterId := nullish_opt clusterIdFromEnv configuredClusterId in
  let found :=
    match selectedClusterId with
    | Some selected =>
        if String.eqb selected "" then None
        else clusterList ≫= List.find (λ cluster, String.eqb (sc_id cluster) selected)
    | None => None
    end in
  let selectedCluster :=
    nullish (nullish_opt found (clusterList ≫= head)) defaultCluster in
  let firstShardId := nullish (sc_firstShardId selectedCluster) 0 in
  let lastShardId := nullish (sc_lastShardId selectedCluster) (Z.max (totalShards - 1) 0) in
  if lastShardId <? firstShardId
  then Err ("Cluster " +:+ sc_id selectedCluster +:+ " has invalid shard range " +:+
            pretty firstShardId +:+ "-" +:+ pretty lastShardId)
  else
    result_bind
      (normalizeBotWorkers
         (nullish_opt (sc_botWorkers selectedCluster) (workerOptions ≫= workers_botWorkers))
         firstShardId lastShardId clusterCount)
      (λ workers,
        Ok {| cluster_id := sc_id selectedCluster;
              firstShardId := firstShardId;
              lastShardId := lastShardId;
              botWorkers := workers |}).

(** *** The even split in the words of the specification

    Of [T] shards and [N] workers, the first [T mod N] workers get one shard
    more than the others, and each worker gets the ascending range that
    follows its predecessor's. *)

Definition evenShare (baseSize remainder index : Z) : Z :=
  baseSize + (if index <? remainder then 1 else 0).

Definition evenStart (first baseSize remainder index : Z) : Z :=
  first + index * baseSize + Z.min index remainder.

Definition evenWorker (first baseSize remainder index : Z) : RuntimeBotWorkerConfig :=
  {| id := "bot-" +:+ pretty index;
     shards := seqZ (evenStart first baseSize remainder index)
                 (evenShare baseSize remainder index) |}.

Definition evenSplit (first T N : Z) : list RuntimeBotWorkerConfig :=
  evenWorker first (T / N) (T mod N) <$> seqZ 0 N.

End Planner.

(** ** The runtime supervisor *)

Module Runtime.
Import Planner.

(** A [ChildProcess] reference. *)
Abbreviation Pid := nat (only parsing).

(** [DiscordGatewayPayload]: the worker reads the event name [t]; the rest
    of the payload is opaque to the runtime. *)
Record DiscordGatewayPayload : Type := {
  t : option string;
  d : string;
}.

(** The tagged objects exchanged over IPC, by their [type] field. The
    TypeScript unions [BotInboundMessage], [BotOutboundMessage],
    [GatewayInboundMessage] and [GatewayOutboundMessage] are views of this
    one set (the casts between them are erased at run time). [Other] is
    anything else: a non-object or an unknown [type]. *)
Inductive Message : Type :=
| GatewayEvent (shardId : Z) (payload : DiscordGatewayPayload)
| ShardInfoResponse (nonce : string) (shardId rtt : Z)
| GatewayReady
| SendPayload (shardId : Z) (payload : string)
| EditStatus (payload : string)
| GetShardInfo (nonce : string) (guildId : option string)
| BotReady (workerId : string)
| RestReady
| Shutdown
| Other.

(** [RouteEventMessage]: a ["runtime:gateway:event"] message. *)
Record RouteEventMessage : Type := {
  ev_shardId : Z;
  ev_payload : DiscordGatewayPayload;
}.

Definition eventMessage (event : RouteEventMessage) : Message :=
  GatewayEvent (ev_shardId event) (ev_payload event).

(** Which script a child was forked from; a bot child's listeners close
    over the [worker] it was spawned with. *)
Inductive Role : Type :=
| RestRole
| GatewayRole
| BotRole (worker : RuntimeBotWorkerConfig).

(** What a pending [setTimeout] will do. *)
Inductive TimerAction : Type :=
| SigKillTimer (child : Pid)
| RespawnTimer (worker : RuntimeBotWorkerConfig).

#[global] Instance RuntimeBotWorkerConfig_eq_dec : EqDecision RuntimeBotWorkerConfig.
Proof. solve_decision. Defined.
#[global] Instance DiscordGatewayPayload_eq_dec : EqDecision DiscordGatewayPayload.
Proof. solve_decision. Defined.
#[global] Instance Message_eq_dec : EqDecision Message.
Proof. solve_decision. Defined.
#[global] Instance Role_eq_dec : EqDecision Role.
Proof. solve_decision. Defined.
#[global] Instance TimerAction_eq_dec : EqDecision TimerAction.
Proof. solve_decision. Defined.

(** What the supervisor does to the outside. *)
Inductive Effect : Type :=
| Fork (child : Pid) (role : Role)
| Send (child : Pid) (msg : Message)
| SetTimeout (timer : nat) (delay : Z) (action : TimerAction)
| ClearTimeout (timer : nat)
| Kill (child : Pid)
| Warn (text : string)
| StartCommandSync (n : nat).

#[global] Instance Effect_eq_dec : EqDecision Effect.
Proof. solve_decision. Defined.

(** The fields of a [ChildProcess] object that the supervisor reads. *)
Record ChildProcess : Type := {
  role : Role;
  killed : bool;
  exitCode : option Z;
}.

(** The closure state of [startWorkerRuntime]. The JavaScript [Map]s and
    the [Set] are finite maps and a finite set; where the code iterates
    over [botChildren.values()] the model iterates in the order of the
    finite map, not in insertion order. *)
Record Supervisor : Type := {
  botChildren : gmap string Pid;
  expectedBotWorkerShutdowns : gset string;
  shardInfoRequests : gmap string Pid;
  shardOwner : gmap Z string;
  pendingEvents : list RouteEventMessage;
  restChild : option Pid;
  gatewayChild : option Pid;
  stopped : bool;
  reloading : bool;
}.

(** The state of the Node runtime around the supervisor: the process
    table, the armed timers and the command syncs that have settled. *)
Record Node : Type := {
  procs : gmap Pid ChildProcess;
  nextPid : Pid;
  timers : gmap nat TimerAction;
  nextTimer : nat;
  syncsDone : gset nat;
  nextSync : nat;
}.

Record World : Type := {
  sup : Supervisor;
  node : Node;
}.

Definition with_sup (f : Supervisor → Supervisor) (w : World) : World :=
  {| sup := f (sup w); node := node w |}.
Definition with_node (f : Node → Node) (w : World) : World :=
  {| sup := sup w; node := f (node w) |}.

Definition set_botChildren (f : gmap string Pid → gmap string Pid) (s : Supervisor) :=
  {| botChildren := f (botChildren s);
     expectedBotWorkerShutdowns := expectedBotWorkerShutdowns s;
     shardInfoRequests := shardInfoRequests s;
     shardOwner := shardOwner s;
     pendingEvents := pendingEvents s;
     restChild := restChild s;
     gatewayChild := gatewayChild s;
     stopped := stopped s;
     reloading := reloading s |}.
Definition set_expected (f : gset string → gset string) (s : Supervisor) :=
  {| botChildren := botChildren s;
     expectedBotWorkerShutdowns := f (expectedBotWorkerShutdowns s);
     shardInfoRequests := shardInfoRequests s;
     shardOwner := shardOwner s;
     pendingEvents := pendingEvents s;
     restChild := restChild s;
     gatewayChild := gatewayChild s;
     stopped := stopped s;
     reloading := reloading s |}.
Definition set_shardInfoRequests (f : gmap string Pid → gmap string Pid) (s : Supervisor) :=
  {| botChildren := botChildren s;
     expectedBotWorkerShutdowns := expectedBotWorkerShutdowns s;
     shardInfoRequests := f (shardInfoRequests s);
     shardOwner := shardOwner s;
     pendingEvents := pendingEvents s;
     restChild := restChild s;
     gatewayChild := gatewayChild s;
     stopped := stopped s;
     reloading := reloading s |}.
Definition set_shardOwner (f : gmap Z string → gmap Z string) (s : Supervisor) :=
  {| botChildren := botChildren s;
     expectedBotWorkerShutdowns := expectedBotWorkerShutdowns s;
     shardInfoRequests := shardInfoRequests s;
     shardOwner := f (shardOwner s);
     pendingEvents := pendingEvents s;
     restChild := restChild s;
     gatewayChild := gatewayChild s;
     stopped := stopped s;
     reloading := reloading s |}.
Definition set_pendingEvents (f : list RouteEventMessage → list RouteEventMessage)
    (s : Supervisor) :=
  {| botChildren := botChildren s;
     expectedBotWorkerShutdowns := expectedBotWorkerShutdowns s;
     shardInfoRequests := shardInfoRequests s;
     shardOwner := shardOwner s;
     pendingEvents := f (pendingEvents s);
     restChild := restChild s;
     gatewayChild := gatewayChild s;
     stopped := stopped s;
     reloading := reloading s |}.
Definition set_restChild (c : option Pid) (s : Supervisor) :=
  {| botChildren := botChildren s;
     expectedBotWorkerShutdowns := expectedBotWorkerShutdowns s;
     shardInfoRequests := shardInfoRequests s;
     shardOwner := shardOwner s;
     pendingEvents := pendingEvents s;
     restChild := c;
     gatewayChild := gatewayChild s;
     stopped := stopped s;
     reloading := reloading s |}.
Definition set_gatewayChild (c : option Pid) (s : Supervisor) :=
  {| botChildren := botChildren s;
     expectedBotWorkerShutdowns := expectedBotWorkerShutdowns s;
     shardInfoRequests := shardInfoRequests s;
     shardOwner := shardOwner s;
     pendingEvents := pendingEvents s;
     restChild := restChild s;
     gatewayChild := c;
     stopped := stopped s;
     reloading := reloading s |}.
Definition set_stopped (b : bool) (s : Supervisor) :=
  {| botChildren := botChildren s;
     expectedBotWorkerShutdowns := expectedBotWorkerShutdowns s;
     shardInfoRequests := shardInfoRequests s;
     shardOwner := shardOwner s;
     pendingEvents := pendingEvents s;
     restChild := restChild s;
     gatewayChild := gatewayChild s;
     stopped := b;
     reloading := reloading s |}.
Definition set_reloading (b : bool) (s : Supervisor) :=
  {| botChildren := botChildren s;
     expectedBotWorkerShutdowns := expectedBotWorkerShutdowns s;
     shardInfoRequests := shardInfoRequests s;
     shardOwner := shardOwner s;
     pendingEvents := pendingEvents s;
     restChild := restChild s;
     gatewayChild := gatewayChild s;
     stopped := stopped s;
     reloading := b |}.

(** *** Asynchronous code

    An [async] function is a tree of state accesses, effects and
    suspension points. [Await c k] suspends until the promise [c] has
    settled; awaiting an already settled promise goes on at once (the
    microtask hop it costs lets no event handler in). *)

Inductive Wait : Type :=
| WaitExit (children : list Pid)
| WaitSync (n : nat).

Inductive Async (A : Type) : Type :=
| Ret (a : A)
| Throw (msg : string)
| Get (k : World → Async A)
| Put (w : World) (k : Async A)
| Emit (e : Effect) (k : Async A)
| Await (c : Wait) (k : Async A).
Arguments Ret {A} a.
Arguments Throw {A} msg.
Arguments Get {A} k.
Arguments Put {A} w k.
Arguments Emit {A} e k.
Arguments Await {A} c k.

Fixpoint bind {A B} (m : Async A) (f : A → Async B) : Async B :=
  match m with
  | Ret a => f a
  | Throw msg => Throw msg
  | Get k => Get (λ w, bind (k w) f)
  | Put w k => Put w (bind k f)
  | Emit e k => Emit e (bind k f)
  | Await c k => Await c (bind k f)
  end.

#[global] Instance Async_ret : MRet Async := @Ret.
#[global] Instance Async_bind : MBind Async := λ A B f m, bind m f.

Definition get : Async World := Get Ret.
Definition getSup : Async Supervisor := Get (λ w, Ret (sup w)).
Definition modify (f : World → World) : Async unit := Get (λ w, Put (f w) (Ret tt)).
Definition modifySup (f : Supervisor → Supervisor) : Async unit := modify (with_sup f).
Definition emit (e : Effect) : Async unit := Emit e (Ret tt).
Definition await (c : Wait) : Async unit := Await c (Ret tt).

(** [for (const x of l) body(x)]. *)
Fixpoint forEach {A} (l : list A) (body : A → Async unit) : Async unit :=
  match l with
  | [] => Ret tt
  | x :: l' => body x;; forEach l' body
  end.

(** [l.map(f)] for an [f] with effects. *)
Fixpoint mapA {A B} (f : A → Async B) (l : list A) : Async (list B) :=
  match l with
  | [] => Ret []
  | x :: l' => y ← f x; ys ← mapA f l'; Ret (y :: ys)
  end.

(** Has the promise settled? A child has exited once it has an exit code. *)
Definition hasExited (n : Node) (child : Pid) : bool :=
  match procs n !! child with
  | Some p => bool_decide (is_Some (exitCode p))
  | None => true
  end.

Definition settled (w : World) (c : Wait) : bool :=
  match c with
  | WaitExit children => forallb (hasExited (node w)) children
  | WaitSync n => bool_decide (n ∈ syncsDone (node w))
  end.

Inductive Outcome (A : Type) : Type :=
| Done (a : A)
| Failed (msg : string)
| Blocked (c : Wait) (k : Async A).
Arguments Done {A} a.
Arguments Failed {A} msg.
Arguments Blocked {A} c k.

(** Run until the code returns, throws or suspends. *)
Fixpoint run {A} (m : Async A) (w : World) : World * list Effect * Outcome A :=
  match m with
  | Ret a => (w, [], Done a)
  | Throw msg => (w, [], Failed msg)
  | Get k => run (k w) w
  | Put w' k => run k w'
  | Emit e k => let '(w', es, o) := run k w in (w', e :: es, o)
  | Await c k => if settled w c then run k w else (w, [], Blocked c k)
  end.

(** *** The Node primitives the supervisor calls *)

(** [fork(script, ...)]: a fresh child, running, with the listeners of its
    role attached. *)
Definition fork (r : Role) : Async Pid :=
  w ← get;
  let child := nextPid (node w) in
  modify (with_node (λ n,
    {| procs := <[child := {| role := r; killed := false; exitCode := None |}]> (procs n);
       nextPid := S child;
       timers := timers n;
       nextTimer := nextTimer n;
       syncsDone := syncsDone n;
       nextSync := nextSync n |}));;
  emit (Fork child r);;
  mret child.

(** [setTimeout(callback, delay)]. *)
Definition setTimeout (delay : Z) (action : TimerAction) : Async nat :=
  w ← get;
  let timer := nextTimer (node w) in
  modify (with_node (λ n,
    {| procs := procs n;
       nextPid := nextPid n;
       timers := <[timer := action]> (timers n);
       nextTimer := S timer;
       syncsDone := syncsDone n;
       nextSync := nextSync n |}));;
  emit (SetTimeout timer delay action);;
  mret timer.

(** [syncCommandsInBackground(cwd, intents)]: starts the command sync and
    returns its promise, which never rejects (the failure is logged). *)
Definition syncCommandsInBackground : Async nat :=
  w ← get;
  let n := nextSync (node w) in
  modify (with_node (λ nd,
    {| procs := procs nd;
       nextPid := nextPid nd;
       timers := timers nd;
       nextTimer := nextTimer nd;
       syncsDone := syncsDone nd;
       nextSync := S n |}));;
  emit (StartCommandSync n);;
  mret n.

(** [child.send(msg)]. *)
Definition send (child : Pid) (msg : Message) : Async unit := emit (Send child msg).

(** [child?.send(msg)]. *)
Definition sendOpt (child : option Pid) (msg : Message) : Async unit :=
  match child with
  | Some c => send c msg
  | None => mret tt
  end.

(** [killChild(child)], up to the promise it returns: [None] when the
    promise is resolved at once, [Some child] when it resolves at the exit
    of [child]. The [once("exit")] listener that clears the timer is part
    of [onExit] below. *)
Definition killChild (child : option Pid) : Async (option Pid) :=
  match child with
  | None => mret None
  | Some c =>
      w ← get;
      match procs (node w) !! c with
      | None => mret None
      | Some p =>
          if killed p || bool_decide (is_Some (exitCode p))
          then mret None
          else
            setTimeout 5000 (SigKillTimer c);;
            send c Shutdown;;
            mret (Some c)
      end
  end.

(** [await killChild(child)]. *)
Definition awaitKill (child : option Pid) : Async unit :=
  p ← killChild child;
  await (WaitExit (option_list p)).

(** [await Promise.all(children.map((child) => killChild(child)))]. *)
Definition awaitKillAll (children : list Pid) : Async unit :=
  ps ← mapA (λ child, killChild (Some child)) children;
  await (WaitExit (omap (λ p, p) ps)).

(** *** The closures of [startWorkerRuntime] *)

Section WithRuntime.
(** [runtime.cluster] and [configuredClusterCount]. *)
Context (cluster : RuntimeClusterConfig) (configuredClusterCount : Z).

Definition spawnRestWorker : Async unit :=
  child ← fork RestRole;
  modifySup (set_restChild (Some child)).

(** The loop of [flushPendingEventsForWorker]. *)
Fixpoint flushLoop (worker : Pid) (workerId : string)
    (events keep : list RouteEventMessage) : Async (list RouteEventMessage) :=
  match events with
  | [] => mret keep
  | event :: events' =>
      s ← getSup;
      let owner := shardOwner s !! ev_shardId event in
      if bool_decide (owner = Some workerId)
      then send worker (eventMessage event);; flushLoop worker workerId events' keep
      else flushLoop worker workerId events' (keep ++ [event])
  end.

Definition flushPendingEventsForWorker (workerId : string) : Async unit :=
  s ← getSup;
  match botChildren s !! workerId with
  | None => mret tt
  | Some worker =>
      keep ← flushLoop worker workerId (pendingEvents s) [];
      modifySup (set_pendingEvents (λ _, []));;
      modifySup (set_pendingEvents (λ pending, pending ++ keep))
  end.

(** [spawnBotWorker(worker)]; the two listeners it attaches are
    [onBotMessage] and [onBotExit]. *)
Definition spawnBotWorker (worker : RuntimeBotWorkerConfig) : Async unit :=
  child ← fork (BotRole worker);
  modifySup (set_botChildren (insert (id worker) child)).

(** [child.on("message", ...)] of a bot child. *)
Definition onBotMessage (child : Pid) (incoming : Message) : Async unit :=
  match incoming with
  | SendPayload _ _ | EditStatus _ =>
      s ← getSup;
      sendOpt (gatewayChild s) incoming
  | GetShardInfo nonce _ =>
      modifySup (set_shardInfoRequests (insert nonce child));;
      s ← getSup;
      sendOpt (gatewayChild s) incoming
  | BotReady workerId => flushPendingEventsForWorker workerId
  | _ => mret tt
  end.

(** The callback of the respawn timer. *)
Definition respawnCallback (worker : RuntimeBotWorkerConfig) : Async unit :=
  s ← getSup;
  if stopped s || bool_decide (is_Some (botChildren s !! id worker))
  then mret tt
  else
    emit (Warn ("[worker] respawning bot " +:+ id worker));;
    spawnBotWorker worker.

(** [child.on("exit", ...)] of a bot child spawned for [worker]. *)
Definition onBotExit (worker : RuntimeBotWorkerConfig) : Async unit :=
  modifySup (set_botChildren (delete (id worker)));;
  s ← getSup;
  let expected := bool_decide (id worker ∈ expectedBotWorkerShutdowns s) in
  modifySup (set_expected (λ e, e ∖ {[id worker]}));;
  s ← getSup;
  if negb (stopped s)
  then
    (if negb expected
     then emit (Warn ("[worker] bot " +:+ id worker +:+ " exited"))
     else mret tt);;
    (if negb expected && negb (reloading s)
     then setTimeout 250 (RespawnTimer worker);; mret tt
     else mret tt)
  else mret tt.

Definition restartBotWorkerById (workerId : string) : Async unit :=
  match List.find (λ currentWorker, String.eqb (id currentWorker) workerId)
          (botWorkers cluster) with
  | None => Throw ("Unknown bot worker " +:+ workerId)
  | Some worker =>
      s ← getSup;
      let child := botChildren s !! workerId in
      modifySup (set_expected (λ e, e ∪ {[workerId]}));;
      match child with
      | Some c =>
          send c Shutdown;;
          awaitKill (Some c);;
          modifySup (set_botChildren (delete workerId))
      | None => mret tt
      end;;
      spawnBotWorker worker
  end.

Definition spawnGatewayWorker : Async unit :=
  child ← fork GatewayRole;
  modifySup (set_gatewayChild (Some child)).

(** [gatewayChild.on("message", ...)]. An empty worker id is falsy. *)
Definition onGatewayMessage (incoming : Message) : Async unit :=
  match incoming with
  | ShardInfoResponse nonce _ _ =>
      s ← getSup;
      let requester := shardInfoRequests s !! nonce in
      modifySup (set_shardInfoRequests (delete nonce));;
      sendOpt requester incoming
  | GatewayEvent shardId payload =>
      s ← getSup;
      let workerId := shardOwner s !! shardId in
      let worker :=
        match workerId with
        | Some wid => if String.eqb wid "" then None else botChildren s !! wid
        | None => None
        end in
      match worker with
      | None =>
          modifySup (set_pendingEvents (λ pending,
            pending ++ [{| ev_shardId := shardId; ev_payload := payload |}]))
      | Some worker => send worker incoming
      end
  | _ => mret tt
  end.

(** [gatewayChild.on("exit", ...)]. *)
Definition onGatewayExit : Async unit :=
  s ← getSup;
  if negb (stopped s) then emit (Warn "[gateway] worker exited") else mret tt.

(** The snapshot [[...botChildren.values()]]. *)
Definition childrenOf (s : Supervisor) : list Pid := (map_to_list (botChildren s)).*2.

Definition reload : Async unit :=
  s ← getSup;
  if stopped s then mret tt
  else
    modifySup (set_reloading true);;
    commandSync ← syncCommandsInBackground;
    s ← getSup;
    let previousChildren := childrenOf s in
    forEach (botWorkers cluster) (λ worker,
      modifySup (set_expected (λ e, e ∪ {[id worker]})));;
    forEach previousChildren (λ child, send child Shutdown);;
    awaitKillAll previousChildren;;
    modifySup (set_botChildren (λ _, ∅));;
    forEach (botWorkers cluster) spawnBotWorker;;
    await (WaitSync commandSync);;
    modifySup (set_reloading false).

(** [a.shards[0] ?? Number.MAX_SAFE_INTEGER]. *)
Definition MAX_SAFE_INTEGER : Z := 9007199254740991.
Definition startOf (worker : RuntimeBotWorkerConfig) : Z :=
  default MAX_SAFE_INTEGER (head (shards worker)).

(** [Array.prototype.sort] with a comparator is a stable sort: the
    arrangement it returns is computed here by stable insertion. *)
Fixpoint insertSorted {A} (cmp : A → A → Z) (x : A) (sorted : list A) : list A :=
  match sorted with
  | [] => [x]
  | y :: sorted' =>
      if 0 <? cmp x y then y :: insertSorted cmp x sorted' else x :: y :: sorted'
  end.
Definition sortBy {A} (cmp : A → A → Z) (l : list A) : list A :=
  foldr (insertSorted cmp) [] l.

(** The comparator of [reloadLazy]: [(a, b) => aStart - bStart]. *)
Definition byStart (a b : RuntimeBotWorkerConfig) : Z := startOf a - startOf b.

Definition workersInOrder : list RuntimeBotWorkerConfig :=
  sortBy byStart (botWorkers cluster).

Definition reloadLazy : Async unit :=
  s ← getSup;
  if stopped s then mret tt
  else
    modifySup (set_reloading true);;
    commandSync ← syncCommandsInBackground;
    await (WaitSync commandSync);;
    forEach workersInOrder (λ worker, restartBotWorkerById (id worker));;
    modifySup (set_reloading false).

Definition fullReload : Async unit :=
  s ← getSup;
  if stopped s then mret tt
  else
    modifySup (set_reloading true);;
    commandSync ← syncCommandsInBackground;
    await (WaitSync commandSync);;
    s ← getSup;
    let previousChildren := childrenOf s in
    forEach (botWorkers cluster) (λ worker,
      modifySup (set_expected (λ e, e ∪ {[id worker]})));;
    forEach previousChildren (λ child, send child Shutdown);;
    awaitKillAll previousChildren;;
    modifySup (set_botChildren (λ _, ∅));;
    modifySup (set_pendingEvents (λ _, []));;
    modifySup (set_shardInfoRequests (λ _, ∅));;
    s ← getSup;
    awaitKill (gatewayChild s);;
    modifySup (set_gatewayChild None);;
    s ← getSup;
    awaitKill (restChild s);;
    modifySup (set_restChild None);;
    spawnRestWorker;;
    forEach (botWorkers cluster) spawnBotWorker;;
    spawnGatewayWorker;;
    modifySup (set_reloading false).

Definition stop : Async unit :=
  s ← getSup;
  if stopped s then mret tt
  else
    modifySup (set_stopped true);;
    s ← getSup;
    awaitKillAll (childrenOf s);;
    modifySup (set_botChildren (λ _, ∅));;
    s ← getSup;
    awaitKill (gatewayChild s);;
    s ← getSup;
    awaitKill (restChild s).

(** The [restartShard] member of the controller. An empty worker id is
    falsy. *)
Definition restartShard (shardId : Z) : Async unit :=
  s ← getSup;
  match shardOwner s !! shardId with
  | Some workerId =>
      if String.eqb workerId ""
      then Throw ("No worker owns shard " +:+ pretty shardId)
      else restartBotWorkerById workerId
  | None => Throw ("No worker owns shard " +:+ pretty shardId)
  end.

Record Counts : Type := {
  shard : Z;
  worker : Z;
  count_cluster : Z;
}.

Definition getCounts : Async Counts :=
  mret {| shard := lastShardId cluster - firstShardId cluster + 1;
          worker := Z.of_nat (length (botWorkers cluster));
          count_cluster := configuredClusterCount |}.

(** The body of [startWorkerRuntime] after the configuration is built:
    fill [shardOwner], then spawn the children. *)
Definition startWorkerRuntime : Async unit :=
  syncCommandsInBackground;;
  forEach (botWorkers cluster) (λ worker,
    forEach (shards worker) (λ shardId,
      modifySup (set_shardOwner (insert shardId (id worker)))));;
  spawnRestWorker;;
  forEach (botWorkers cluster) spawnBotWorker;;
  spawnGatewayWorker.

(** *** The event loop

    The supervisor is single threaded: every event runs its listeners to
    completion, then the [async] functions whose awaited promise has
    settled go on, oldest first. *)

Inductive ApiCall : Type :=
| CallReload
| CallReloadLazy
| CallFullReload
| CallRestartWorker (workerId : string)
| CallRestartShard (shardId : Z)
| CallGetCounts
| CallStop.

Inductive Event : Type :=
| ChildMessage (child : Pid) (incoming : Message)
| ChildExit (child : Pid) (code : Z)
| TimerFired (timer : nat)
| CommandSyncDone (n : nat)
| Api (call : ApiCall).

(** Node records the exit code before it emits ["exit"]. *)
Definition markExited (child : Pid) (code : Z) (n : Node) : Node :=
  {| procs := alter (λ p, {| role := role p; killed := killed p; exitCode := Some code |})
                child (procs n);
     nextPid := nextPid n;
     timers := timers n;
     nextTimer := nextTimer n;
     syncsDone := syncsDone n;
     nextSync := nextSync n |}.

(** [child.kill("SIGKILL")] sets [killed]. *)
Definition markKilled (child : Pid) (n : Node) : Node :=
  {| procs := alter (λ p, {| role := role p; killed := true; exitCode := exitCode p |})
                child (procs n);
     nextPid := nextPid n;
     timers := timers n;
     nextTimer := nextTimer n;
     syncsDone := syncsDone n;
     nextSync := nextSync n |}.

Definition isKillTimerOf (child : Pid) (action : TimerAction) : bool :=
  match action with
  | SigKillTimer c => bool_decide (c = child)
  | RespawnTimer _ => false
  end.

(** The [once("exit")] listeners of [killChild]: each clears its timer
    (the promise itself is the [WaitExit] of the waiting task). *)
Definition clearKillTimers (child : Pid) (n : Node) : Node :=
  {| procs := procs n;
     nextPid := nextPid n;
     timers := filter (λ kv, isKillTimerOf child kv.2 = false) (timers n);
     nextTimer := nextTimer n;
     syncsDone := syncsDone n;
     nextSync := nextSync n |}.

Definition dropTimer (timer : nat) (n : Node) : Node :=
  {| procs := procs n;
     nextPid := nextPid n;
     timers := delete timer (timers n);
     nextTimer := nextTimer n;
     syncsDone := syncsDone n;
     nextSync := nextSync n |}.

Definition markSynced (k : nat) (n : Node) : Node :=
  {| procs := procs n;
     nextPid := nextPid n;
     timers := timers n;
     nextTimer := nextTimer n;
     syncsDone := syncsDone n ∪ {[k]};
     nextSync := nextSync n |}.

(** The ["message"] listener of a child, by its role. *)
Definition onMessage (child : Pid) (incoming : Message) : Async unit :=
  w ← get;
  match procs (node w) !! child with
  | Some p =>
      match role p with
      | BotRole _ => onBotMessage child incoming
      | GatewayRole => onGatewayMessage incoming
      | RestRole => mret tt
      end
  | None => mret tt
  end.

(** The ["exit"] listeners of a child, in the order they were attached. *)
Definition onExit (child : Pid) (code : Z) : Async unit :=
  w ← get;
  match procs (node w) !! child with
  | Some p =>
      if bool_decide (is_Some (exitCode p)) then mret tt
      else
        modify (with_node (markExited child code));;
        match role p with
        | BotRole worker => onBotExit worker
        | GatewayRole => onGatewayExit
        | RestRole => mret tt
        end;;
        modify (with_node (clearKillTimers child))
  | None => mret tt
  end.

(** A timer that is still armed fires once. *)
Definition onTimer (timer : nat) : Async unit :=
  w ← get;
  match timers (node w) !! timer with
  | Some action =>
      modify (with_node (dropTimer timer));;
      match action with
      | SigKillTimer child =>
          modify (with_node (markKilled child));;
          emit (Kill child)
      | RespawnTimer worker => respawnCallback worker
      end
  | None => mret tt
  end.

(** A call of the returned [WorkerRuntimeController]. *)
Definition call (c : ApiCall) : Async unit :=
  match c with
  | CallReload => reload
  | CallReloadLazy => reloadLazy
  | CallFullReload => fullReload
  | CallRestartWorker workerId => restartBotWorkerById workerId
  | CallRestartShard shardId => restartShard shardId
  | CallGetCounts => getCounts;; mret tt
  | CallStop => stop
  end.

Definition handler (ev : Event) : Async unit :=
  match ev with
  | ChildMessage child incoming => onMessage child incoming
  | ChildExit child code => onExit child code
  | TimerFired timer => onTimer timer
  | CommandSyncDone n => modify (with_node (markSynced n))
  | Api c => call c
  end.

(** The supervisor with its suspended [async] functions. *)
Record System : Type := {
  world : World;
  tasks : list (Wait * Async unit);
}.

Definition suspended (o : Outcome unit) : list (Wait * Async unit) :=
  match o with
  | Blocked c k => [(c, k)]
  | _ => []
  end.

Definition resume (acc : System * list Effect) (task : Wait * Async unit)
    : System * list Effect :=
  let '(sys, es) := acc in
  if settled (world sys) task.1
  then
    let '(w', es', o) := run task.2 (world sys) in
    ({| world := w'; tasks := tasks sys ++ suspended o |}, es ++ es')
  else ({| world := world sys; tasks := tasks sys ++ [task] |}, es).

Definition step (ev : Event) (sys : System) : System * list Effect :=
  let '(w, es, o) := run (handler ev) (world sys) in
  foldl resume ({| world := w; tasks := [] |}, es) (tasks sys ++ suspended o).

(** What an observer of the supervisor sees: the events it takes and
    the effects it has. *)
Inductive Obs : Type :=
| In (ev : Event)
| Out (e : Effect).

Fixpoint exec (evs : list Event) (sys : System) : System * list Obs :=
  match evs with
  | [] => (sys, [])
  | ev :: evs' =>
      let '(sys', es) := step ev sys in
      let '(sys'', log) := exec evs' sys' in
      (sys'', In ev :: (Out <$> es) ++ log)
  end.


Definition emptyWorld : World :=
  {| sup := {| botChildren := ∅;
               expectedBotWorkerShutdowns := ∅;
               shardInfoRequests := ∅;
               shardOwner := ∅;
               pendingEvents := [];
               restChild := None;
               gatewayChild := None;
               stopped := false;
               reloading := false |};
     node := {| procs := ∅;
                nextPid := 0%nat;
                timers := ∅;
                nextTimer := 0%nat;
                syncsDone := ∅;
                nextSync := 0%nat |} |}.

(** The supervisor once [startWorkerRuntime] has returned. *)
Definition boot : System :=
  let '(w, _, o) := run startWorkerRuntime emptyWorld in
  {| world := w; tasks := suspended o |}.

(** *** A run to completion

    [drive] runs an [async] function alone: whenever it awaits, the awaited
    promises settle before anything else happens. Awaited children exit
    with code 0, which runs their ["exit"] listeners. *)

Definition deliverExit (acc : World * list Obs) (child : Pid) : World * list Obs :=
  let '(w, log) := acc in
  if hasExited (node w) child then (w, log)
  else
    let '(w', es, _) := run (onExit child 0) w in
    (w', log ++ In (ChildExit child 0) :: (Out <$> es)).

Definition deliver (c : Wait) (w : World) : World * list Obs :=
  match c with
  | WaitExit children => foldl deliverExit (w, []) children
  | WaitSync n =>
      if settled w c then (w, [])
      else (with_node (markSynced n) w, [In (CommandSyncDone n)])
  end.

Fixpoint drive {A} (m : Async A) (w : World) : World * list Obs * result A :=
  match m with
  | Ret a => (w, [], Ok a)
  | Throw msg => (w, [], Err msg)
  | Get k => drive (k w) w
  | Put w' k => drive k w'
  | Emit e k => let '(w', log, r) := drive k w in (w', Out e :: log, r)
  | Await c k =>
      let '(w1, log1) := deliver c w in
      let '(w', log, r) := drive k w1 in
      (w', log1 ++ log, r)
  end.

End WithRuntime.

(** *** Vocabulary of the statements below *)

(** The event is for a shard that [owner] gives to [workerId]. *)
Definition ownedBy (owner : gmap Z string) (workerId : string) (event : RouteEventMessage)
    : Prop :=
  owner !! ev_shardId event = Some workerId.

#[global] Instance ownedBy_dec owner workerId event : Decision (ownedBy owner workerId event).
Proof. unfold ownedBy. apply _. Defined.

(** The ownership map that [startWorkerRuntime] fills: a later worker
    overwrites an earlier one. *)
Definition ownership (workers : list RuntimeBotWorkerConfig) : gmap Z string :=
  foldl (λ owner worker,
    foldl (λ owner shardId, <[shardId := id worker]> owner) owner (shards worker))
    ∅ workers.

(** A bot child as [fork] leaves it. *)
Definition running (worker : RuntimeBotWorkerConfig) : ChildProcess :=
  {| role := BotRole worker; killed := false; exitCode := None |}.






(** A step of a restart: a shutdown message or a fork. *)
Definition isRestartStep (e : Effect) : Prop :=
  match e with
  | Send _ Shutdown | Fork _ _ => True
  | _ => False
  end.

Definition isReloadCall (c : ApiCall) : Prop :=
  c = CallReload ∨ c = CallReloadLazy ∨ c = CallFullReload.



(** *** Properties that the running code cannot break *)

(** [keeps P m w]: no assignment that [m] makes, started in the world [w]
    and resumed after its suspensions in any world, takes the supervisor
    from a world with [P] to one without. *)
Fixpoint keeps (P : World → Prop) {A} (m : Async A) (w : World) : Prop :=
  match m with
  | Ret _ | Throw _ => True
  | Get k => keeps P (k w) w
  | Put w' k => (P w → P w') ∧ keeps P k w'
  | Emit _ k => keeps P k w
  | Await _ k => ∀ w', keeps P k w'
  end.

(** [P] survives every kind of assignment the code makes once it has
    started: to the Node state, to every field of the supervisor but
    [shardOwner], and of [true] to [stopped]. *)
Record Stable (P : World → Prop) : Prop := {
  stable_node : ∀ f w, P w → P (with_node f w);
  stable_botChildren : ∀ f w, P w → P (with_sup (set_botChildren f) w);
  stable_expected : ∀ f w, P w → P (with_sup (set_expected f) w);
  stable_shardInfoRequests : ∀ f w, P w → P (with_sup (set_shardInfoRequests f) w);
  stable_pendingEvents : ∀ f w, P w → P (with_sup (set_pendingEvents f) w);
  stable_restChild : ∀ c w, P w → P (with_sup (set_restChild c) w);
  stable_gatewayChild : ∀ c w, P w → P (with_sup (set_gatewayChild c) w);
  stable_stopped : ∀ w, P w → P (with_sup (set_stopped true) w);
  stable_reloading : ∀ b w, P w → P (with_sup (set_reloading b) w);
}.

(** The suspended functions of the system keep [P]. *)
Definition tasksKeep (P : World → Prop) (sys : System) : Prop :=
  Forall (λ task, ∀ w, keeps P task.2 w) (tasks sys).

End Runtime.

(** ** The bot worker process *)

Module BotProcess.
Import Planner Runtime.

(** What the worker process does, as far as the runtime is concerned: the
    callbacks of the bot are external, a call of one is recorded. *)
Inductive Action : Type :=
| ClearKeepAlive
| Exit (code : Z)
| Dispatch (payload : DiscordGatewayPayload) (shardId : Z)
| CallRaw (payload : DiscordGatewayPayload) (shardId : Z)
| CallDispatchRequirements (payload : DiscordGatewayPayload) (shardId : Z)
| CallHandler (name : string) (payload : DiscordGatewayPayload) (shardId : Z)
| LogError.

(** The callbacks of the bot: [None] where the property is undefined,
    [Some throws] where it is a function, with whether this call throws. *)
Record Bot : Type := {
  events_raw : option bool;
  events_dispatchRequirements : option bool;
  handlers : gmap string bool;
}.

(** [callback?.(...)] inside the [try] block: a missing callback is
    skipped, a throwing one ends the block in the [catch] that logs. *)
Definition invoke (callback : option bool) (a : Action) (rest : list Action) : list Action :=
  match callback with
  | None => rest
  | Some false => a :: rest
  | Some true => [a; LogError]
  end.

(** [handleGatewayEvent(bot, payload, shardId)]; an empty event name is
    falsy. *)
Definition handleGatewayEvent (bot : Bot) (payload : DiscordGatewayPayload) (shardId : Z)
    : list Action :=
  invoke (events_raw bot) (CallRaw payload shardId)
    match t payload with
    | None => []
    | Some name =>
        if String.eqb name "" then []
        else
          invoke (events_dispatchRequirements bot) (CallDispatchRequirements payload shardId)
            (invoke (handlers bot !! name) (CallHandler name payload shardId) [])
    end.

(** [const shardSet = new Set<number>(env.worker.shards)]. *)
Definition shardSet (worker : RuntimeBotWorkerConfig) : gset Z := list_to_set (shards worker).

(** The [process.on("message", ...)] listener of [main]. [Dispatch] marks
    the call of [handleGatewayEvent]. *)
Definition onMessage (worker : RuntimeBotWorkerConfig) (bot : Bot) (message : Message)
    : list Action :=
  match message with
  | Shutdown => [ClearKeepAlive; Exit 0]
  | GatewayEvent shardId payload =>
      if bool_decide (shardId ∈ shardSet worker)
      then Dispatch payload shardId :: handleGatewayEvent bot payload shardId
      else []
  | _ => []
  end.

(** The calls of callbacks of the bot. *)
Definition isCall (a : Action) : Prop :=
  match a with
  | Dispatch _ _ | CallRaw _ _ | CallDispatchRequirements _ _ | CallHandler _ _ _ => True
  | _ => False
  end.

End BotProcess.

(** ** The shard info query of a worker *)

Module ShardInfoQuery.
Import Runtime.

Record ShardInfo : Type := {
  shardId : Z;
  rtt : Z;
}.

Inductive PromiseState : Type :=
| Pending
| Resolved (info : ShardInfo)
| Rejected (msg : string).

(** The state of one call of [getShardInfoFromGuild] in a worker process:
    its nonce, whether [onMessage] is attached, the delay of the timeout
    while it is armed, and the promise. *)
Record Request : Type := {
  nonce : string;
  listening : bool;
  timeoutArmed : option Z;
  promise : PromiseState;
}.

(** The executor of the promise: arm the timeout of 5000ms, attach the
    listener, send the request to the parent. The second component is what
    is sent. *)
Definition start (nonce : string) (guildId : option string) : Request * list Message :=
  ({| nonce := nonce; listening := true; timeoutArmed := Some 5000; promise := Pending |},
   [GetShardInfo nonce guildId]).

(** [cleanup()]. *)
Definition cleanup (r : Request) : Request :=
  {| nonce := nonce r; listening := false; timeoutArmed := None; promise := promise r |}.

(** [resolve(...)] and [reject(...)]: a promise settles once. *)
Definition settle (outcome : PromiseState) (r : Request) : Request :=
  match promise r with
  | Pending =>
      {| nonce := nonce r; listening := listening r; timeoutArmed := timeoutArmed r;
         promise := outcome |}
  | _ => r
  end.

(** The [onMessage] listener, while attached. *)
Definition onMessage (message : Message) (r : Request) : Request * list Message :=
  if listening r
  then
    match message with
    | ShardInfoResponse n shardId rtt =>
        if String.eqb n (nonce r)
        then (settle (Resolved {| shardId := shardId; rtt := rtt |}) (cleanup r), [])
        else (r, [])
    | _ => (r, [])
    end
  else (r, []).

(** The timeout callback, while armed. *)
Definition onTimeout (r : Request) : Request * list Message :=
  match timeoutArmed r with
  | Some _ => (settle (Rejected "Timed out waiting for shard info response.") (cleanup r), [])
  | None => (r, [])
  end.

(** The branch without IPC: ask the gateway of the bot itself. *)
Definition getShardInfoDirect (calculateShardId : string → Z) (rttOf : Z → option Z)
    (guildId : option string) : ShardInfo :=
  let shardId := match guildId with Some g => calculateShardId g | None => 0 end in
  {| shardId := shardId; rtt := default (-1) (rttOf shardId) |}.

End ShardInfoQuery.

(** ** The statements of the specification as they are worded, and a cluster
    to try them on *)

Module Scenario.
Import Planner Runtime.

(** Three workers owning the shards 0-1, 2-3 and 4-5. After [boot] the
    rest child is process 0, the bot children are 1, 2 and 3 and the
    gateway child is 4. *)
Definition bot0 : RuntimeBotWorkerConfig := {| id := "bot-0"; shards := [0; 1] |}.
Definition bot1 : RuntimeBotWorkerConfig := {| id := "bot-1"; shards := [2; 3] |}.
Definition bot2 : RuntimeBotWorkerConfig := {| id := "bot-2"; shards := [4; 5] |}.

Definition cluster3 : RuntimeClusterConfig :=
  {| cluster_id := "default";
     firstShardId := 0;
     lastShardId := 5;
     botWorkers := [bot0; bot1; bot2] |}.

(** The supervisor of [cluster3] after the child of [bot0] has crashed. *)
Definition crashed : World := world (step cluster3 1 (ChildExit 1%nat 1) (boot cluster3)).1.

Definition messageCreate : DiscordGatewayPayload := {| t := Some "MESSAGE_CREATE"; d := "m" |}.



(** A reload called while another one is running takes no restart step. *)
Definition reloadsSerialized (cluster : RuntimeClusterConfig) (cc : Z) : Prop :=
  ∀ evs sys log c,
    exec cluster cc evs (boot cluster) = (sys, log) →
    reloading (sup (world sys)) = true →
    isReloadCall c →
    ∀ e, e ∈ (step cluster cc (Api c) sys).2 → ¬ isRestartStep e.



End Scenario.

(** ** Vocabulary for the plans of the planner *)

Module PlannerFacts.
Import Planner.

(** The worker list is made by the planner itself: it is not a non-empty
    list of workers written out in the configuration. *)
Definition generated (workers : option BotWorkersMode) : Prop :=
  match workers with
  | Some (WorkersExplicit (_ :: _)) => False
  | _ => True
  end.

(** The worker that [normalizeBotWorkers] makes for one shard in the
    ["auto"] mode. *)
Definition shardWorker (shardId : Z) : RuntimeBotWorkerConfig :=
  {| id := "shard" +:+ pretty shardId; shards := [shardId] |}.

End PlannerFacts.

(** ** What a function of the supervisor emits and leaves alone *)

Module Footprint.
Import Planner Runtime.

(** Every effect that [m] can have, in whatever world it runs and goes on
    after its suspensions, satisfies [Q]. *)
Fixpoint emits (Q : Effect → Prop) {A} (m : Async A) : Prop :=
  match m with
  | Ret _ | Throw _ => True
  | Get k => ∀ w, emits Q (k w)
  | Put _ k => emits Q k
  | Emit e k => Q e ∧ emits Q k
  | Await _ k => emits Q k
  end.

(** [m] never throws. *)
Fixpoint returns {A} (m : Async A) : Prop :=
  match m with
  | Ret _ => True
  | Throw _ => False
  | Get k => ∀ w, returns (k w)
  | Put _ k | Emit _ k | Await _ k => returns k
  end.

(** The suspended functions of the system emit only [Q]. *)
Definition tasksEmit (Q : Effect → Prop) (sys : System) : Prop :=
  Forall (λ task, emits Q task.2) (tasks sys).

(** The effect is not the fork of a gateway or REST worker. *)
Definition forksOnlyBots (e : Effect) : Prop :=
  match e with
  | Fork _ (BotRole _) => True
  | Fork _ _ => False
  | _ => True
  end.

(** The effect is not a fork. *)
Definition noFork (e : Effect) : Prop :=
  match e with
  | Fork _ _ => False
  | _ => True
  end.

(** The effects of a log satisfy [Q]. *)
Definition logEmits (Q : Effect → Prop) (log : list Obs) : Prop :=
  ∀ e, Out e ∈ log → Q e.


(** A child that has neither exited nor been sent a kill signal. *)
Definition alive (w : World) (child : Pid) : Prop :=
  ∃ p, procs (node w) !! child = Some p ∧ killed p = false ∧ exitCode p = None.

(** The message is a ["runtime:gateway:event"]. *)
Definition isGatewayEvent (msg : Message) : bool :=
  match msg with
  | GatewayEvent _ _ => true
  | _ => false
  end.





(** [gateway] is the one child that was forked from the gateway script,
    and [fork] has handed its process id out. *)
Definition gatewayIs (gateway : Pid) (w : World) : Prop :=
  (gateway < nextPid (node w))%nat
  ∧ ∀ c, (∃ p, procs (node w) !! c = Some p ∧ role p = GatewayRole) ↔ c = gateway.



End Footprint.

(** ** The gateway worker *)

Module GatewayProcess.
Import Runtime.

(** What the gateway manager answers: [calculateShardId(BigInt(guildId))]
    ([None] where [BigInt] throws) and the round trip time of a shard
    ([None] where the shard or its time is missing). *)
Record Gateway : Type := {
  calculateShardId : string → option Z;
  rttOf : Z → option Z;
}.

Inductive Action : Type :=
| CallSendPayload (shardId : Z) (payload : string)
| CallEditBotStatus (payload : string)
| ProcessSend (msg : Message)
| CallShutdown (code : Z) (reason : string)
| Exit (code : Z)
| LogShardReady (shardId : Z) (ready : nat) (expected : Z).

(** [message.guildId ? gateway.calculateShardId(BigInt(message.guildId)) : 0];
    an empty string is falsy. *)
Definition shardOfGuild (gateway : Gateway) (guildId : option string) : option Z :=
  match guildId with
  | Some g => if String.eqb g "" then Some 0 else calculateShardId gateway g
  | None => Some 0
  end.

(** The [process.on("message", ...)] listener. Where [BigInt] throws, the
    promise of the listener rejects and nothing is sent. *)
Definition onMessage (gateway : Gateway) (message : Message) : list Action :=
  match message with
  | SendPayload shardId payload => [CallSendPayload shardId payload]
  | EditStatus payload => [CallEditBotStatus payload]
  | GetShardInfo nonce guildId =>
      match shardOfGuild gateway guildId with
      | Some shardId =>
          [ProcessSend (ShardInfoResponse nonce shardId
                          (default (-1) (rttOf gateway shardId)))]
      | None => []
      end
  | Shutdown => [CallShutdown 3000 "Snowcord runtime shutdown"; Exit 0]
  | _ => []
  end.

(** The [message] event of the gateway manager, with [readyShards] before
    and after. *)
Definition onShardMessage (expectedShardCount : Z) (readyShards : gset Z) (shardId : Z)
    (payload : DiscordGatewayPayload) : gset Z * list Action :=
  let first :=
    bool_decide (t payload = Some "READY") && negb (bool_decide (shardId ∈ readyShards)) in
  let readyShards' := if first then readyShards ∪ {[shardId]} else readyShards in
  (readyShards',
   (if first then [LogShardReady shardId (size readyShards') expectedShardCount] else [])
   ++ [ProcessSend (GatewayEvent shardId payload)]).

(** The shard messages of a run, one after the other. *)
Fixpoint onShardMessages (expectedShardCount : Z) (readyShards : gset Z)
    (messages : list (Z * DiscordGatewayPayload)) : gset Z * list Action :=
  match messages with
  | [] => (readyShards, [])
  | (shardId, payload) :: messages' =>
      let '(ready1, out1) := onShardMessage expectedShardCount readyShards shardId payload in
      let '(ready2, out2) := onShardMessages expectedShardCount ready1 messages' in
      (ready2, out1 ++ out2)
  end.

(** What an action sends to the supervisor, and the shard it logs as
    ready. *)
Definition sentBy (a : Action) : option Message :=
  match a with
  | ProcessSend msg => Some msg
  | _ => None
  end.

Definition loggedReady (a : Action) : option Z :=
  match a with
  | LogShardReady shardId _ _ => Some shardId
  | _ => None
  end.

End GatewayProcess.

(** ** The shard info query of a worker, event by event *)

Module QueryEvents.
Import Runtime ShardInfoQuery.

(** What can happen to a pending query: a message arrives, or the timer
    fires. *)
Inductive Input : Type :=
| Incoming (message : Message)
| TimeoutFired.

Definition react (r : Request) (input : Input) : Request :=
  match input with
  | Incoming message => (onMessage message r).1
  | TimeoutFired => (onTimeout r).1
  end.

(** The inputs that settle a pending query with the nonce [nonce]. *)
Definition decides (nonce : string) (input : Input) : bool :=
  match input with
  | Incoming (ShardInfoResponse n _ _) => String.eqb n nonce
  | Incoming _ => false
  | TimeoutFired => true
  end.

Definition verdict (input : Input) : PromiseState :=
  match input with
  | Incoming (ShardInfoResponse _ shardId rtt) => Resolved {| shardId := shardId; rtt := rtt |}
  | Incoming _ => Pending
  | TimeoutFired => Rejected "Timed out waiting for shard info response."
  end.

End QueryEvents.

(** ** The REST worker *)

Module RestProcess.

(** [s.indexOf(search, position)] for a non-negative [position]; [None]
    is [-1]. *)
Fixpoint indexOfFrom (search : string) (position : nat) (s : string) : option nat :=
  match s with
  | EmptyString => if String.prefix search "" then Some O else None
  | String _ s' =>
      match position with
      | O => if String.prefix search s then Some O else S <$> indexOfFrom search O s'
      | S position' => S <$> indexOfFrom search position' s'
      end
  end.

(** [s.slice(start)] for a non-negative [start]. *)
Fixpoint slice (start : nat) (s : string) : string :=
  match start, s with
  | O, _ => s
  | S start', String _ s' => slice start' s'
  | S _, EmptyString => EmptyString
  end.

Definition normalizeDiscordPath (url : string) : string :=
  if String.prefix "/v" url
  then
    match indexOfFrom "/" 2 url with
    | None => "/"
    | Some slashIndex => slice slashIndex url
    end
  else url.

End RestProcess.

(** ** Tactics *)

Ltac unfold_setters :=
  unfold Runtime.with_sup, Runtime.with_node, Runtime.set_botChildren,
    Runtime.set_expected, Runtime.set_shardInfoRequests, Runtime.set_shardOwner,
    Runtime.set_pendingEvents, Runtime.set_restChild, Runtime.set_gatewayChild,
    Runtime.set_stopped, Runtime.set_reloading in *.

(** One of the assignments that a [Stable] property survives. *)
Ltac stable_goal HP :=
  first [ apply (Runtime.stable_node _ HP)
        | apply (Runtime.stable_botChildren _ HP)
        | apply (Runtime.stable_expected _ HP)
        | apply (Runtime.stable_shardInfoRequests _ HP)
        | apply (Runtime.stable_pendingEvents _ HP)
        | apply (Runtime.stable_restChild _ HP)
        | apply (Runtime.stable_gatewayChild _ HP)
        | apply (Runtime.stable_stopped _ HP)
        | apply (Runtime.stable_reloading _ HP) ].

(** Straight-line code that only makes such assignments. *)
Ltac keeps_set HP :=
  cbn;
  repeat lazymatch goal with
         | |- _ ∧ _ => split
         | |- True => exact I
         | |- _ → _ => stable_goal HP
         end.

(** * Properties *)

Import Planner Runtime Scenario.

(** ** The planner *)

Lemma pushShards_seqZ fuel shardId last acc :
  (Z.to_nat (last - shardId + 1) ≤ fuel)%nat →
  pushShards fuel shardId last acc = acc ++ seqZ shardId (last - shardId + 1).
Proof.
  revert shardId acc. induction fuel as [|fuel IH]; intros shardId acc Hfuel; simpl.
  - rewrite seqZ_nil by lia. by rewrite app_nil_r.
  - destruct (Z.leb_spec shardId last) as [Hle|Hgt].
    + rewrite IH by lia. rewrite (seqZ_cons shardId) by lia.
      rewrite <- app_assoc. simpl. do 3 f_equal; lia.
    + rewrite seqZ_nil by lia. by rewrite app_nil_r.
Qed.

Lemma pushOffsets_seqZ fuel offset count cursor acc :
  (Z.to_nat (count - offset) ≤ fuel)%nat →
  pushOffsets fuel offset count cursor acc = acc ++ seqZ (cursor + offset) (count - offset).
Proof.
  revert offset acc. induction fuel as [|fuel IH]; intros offset acc Hfuel; simpl.
  - rewrite seqZ_nil by lia. by rewrite app_nil_r.
  - destruct (Z.ltb_spec offset count) as [Hlt|Hge].
    + rewrite IH by lia. rewrite (seqZ_cons (cursor + offset)) by lia.
      rewrite <- app_assoc. simpl. do 3 f_equal; lia.
    + rewrite seqZ_nil by lia. by rewrite app_nil_r.
Qed.

Lemma evenStart_succ first baseSize remainder index :
  evenStart first baseSize remainder (index + 1) =
  evenStart first baseSize remainder index + evenShare baseSize remainder index.
Proof.
  unfold evenStart, evenShare. destruct (Z.ltb_spec index remainder); lia.
Qed.

Lemma generateWorkers_even fuel index workerCount baseSize remainder first acc :
  0 ≤ baseSize → 0 ≤ remainder →
  fuel = Z.to_nat (workerCount - index) →
  generateWorkers fuel index workerCount baseSize remainder
    (evenStart first baseSize remainder index) acc =
  acc ++ (evenWorker first baseSize remainder <$> seqZ index (workerCount - index)).
Proof.
  intros Hbase Hrem. revert index acc.
  induction fuel as [|fuel IH]; intros index acc Hfuel; simpl.
  - rewrite seqZ_nil by lia. by rewrite app_nil_r.
  - destruct (Z.ltb_spec index workerCount) as [Hlt|Hge]; [|lia].
    rewrite pushOffsets_seqZ by lia. simpl.
    fold (evenShare baseSize remainder index).
    rewrite <- evenStart_succ. rewrite IH by lia.
    rewrite (seqZ_cons index) by lia. rewrite <- app_assoc. simpl.
    f_equal. f_equal.
    + unfold evenWorker. do 2 f_equal; lia.
    + do 2 f_equal; lia.
Qed.

(** The code computes the even split of the specification. *)
Lemma normalizeBotWorkers_even first last N cc :
  first ≤ last → 0 < N →
  normalizeBotWorkers (Some (WorkersCount N)) first last cc =
  Ok (evenSplit first (last - first + 1) N).
Proof.
  intros Hrange HN. unfold normalizeBotWorkers.
  destruct (Z.leb_spec N 0) as [|_]; [lia|]. f_equal.
  rewrite Z.rem_mod_nonneg by lia.
  pose proof (Z.mod_pos_bound (last - first + 1) N HN).
  pose proof (Z.div_pos (last - first + 1) N ltac:(lia) HN).
  pose proof (generateWorkers_even (Z.to_nat N) 0 N ((last - first + 1) / N)
                ((last - first + 1) mod N) first [] ltac:(lia) ltac:(lia) ltac:(f_equal; lia))
    as Hgen.
  replace (evenStart first ((last - first + 1) / N) ((last - first + 1) mod N) 0)
    with first in Hgen by (unfold evenStart; lia).
  rewrite Hgen. simpl. unfold evenSplit. by rewrite Z.sub_0_r.
Qed.

Lemma concat_even first baseSize remainder (k : nat) :
  0 ≤ baseSize → 0 ≤ remainder →
  concat (shards <$> (evenWorker first baseSize remainder <$> seqZ 0 (Z.of_nat k))) =
  seqZ first (evenStart 0 baseSize remainder (Z.of_nat k)).
Proof.
  intros Hbase Hrem. induction k as [|k IH].
  - simpl. rewrite seqZ_nil; [done|]. unfold evenStart. lia.
  - rewrite seqZ_S, !fmap_app, concat_app, IH. simpl. rewrite app_nil_r.
    replace (Z.of_nat (S k)) with (Z.of_nat k + 1) by lia.
    rewrite evenStart_succ. rewrite seqZ_app.
    + f_equal. f_equal. unfold evenStart. lia.
    + unfold evenStart. lia.
    + unfold evenShare. destruct (_ <? _); lia.
Qed.

(** The larger share is the ceiling of [T / N]. *)
Lemma ceil_share T N i :
  0 ≤ T → 0 < N → 0 ≤ i →
  evenShare (T / N) (T mod N) i = if i <? T mod N then (T + N - 1) / N else T / N.
Proof.
  intros HT HN Hi. unfold evenShare.
  destruct (Z.ltb_spec i (T mod N)) as [Hlt|Hge]; [|lia].
  pose proof (Z.mod_pos_bound T N HN).
  pose proof (Z.div_mod T N ltac:(lia)) as Hdm.
  apply (Z.div_unique_pos _ _ _ (T mod N - 1)); lia.
Qed.

Lemma elem_of_concat {A} (ls : list (list A)) x :
  x ∈ concat ls ↔ ∃ l, x ∈ l ∧ l ∈ ls.
Proof.
  induction ls as [|l ls IH]; simpl.
  - split; [by intros ?%elem_of_nil|by intros (? & _ & ?%elem_of_nil)].
  - rewrite elem_of_app, IH. split.
    + intros [?|(l' & ? & ?)]; [exists l|exists l']; split; try done; by constructor.
    + intros (l' & ? & [->|?]%elem_of_cons); [by left|right; eauto].
Qed.

(** In a duplicate-free concatenation an element lies in one segment. *)
Lemma concat_NoDup_index {A} (ls : list (list A)) i j l1 l2 x :
  NoDup (concat ls) → ls !! i = Some l1 → ls !! j = Some l2 → x ∈ l1 → x ∈ l2 → i = j.
Proof.
  revert i j. induction ls as [|l ls IH]; intros i j Hnd Hi Hj H1 H2; [done|].
  simpl in Hnd. apply NoDup_app in Hnd as (Hl & Hdisj & Hrest).
  destruct i as [|i], j as [|j]; simpl in *; simplify_eq; [done| | |].
  - exfalso. apply (Hdisj x H1). apply elem_of_concat. eauto using list_elem_of_lookup_2.
  - exfalso. apply (Hdisj x H2). apply elem_of_concat. eauto using list_elem_of_lookup_2.
  - f_equal. eauto.
Qed.

(** C3. For a shard range [first..last] of [T] shards and a positive worker
    count [N], the even-split planner returns [N] workers named [bot-0],
    [bot-1], ...; worker [i] gets [⌈T/N⌉] shards when [i < T mod N] and
    [⌊T/N⌋] otherwise, as one ascending contiguous range; the ranges laid end
    to end are exactly [first..last], so every shard of the cluster belongs
    to exactly one worker; and the result is a function of the inputs. *)
Theorem C3_even_split (first last N cc : Z) :
  first ≤ last → 0 < N →
  let T := last - first + 1 in
  ∃ ws,
    normalizeBotWorkers (Some (WorkersCount N)) first last cc = Ok ws
    ∧ length ws = Z.to_nat N
    ∧ (∀ (i : nat) w, ws !! i = Some w →
         id w = "bot-" +:+ pretty (Z.of_nat i)
         ∧ Z.of_nat (length (shards w)) =
             (if Z.of_nat i <? T mod N then (T + N - 1) / N else T / N)
         ∧ ∃ from, shards w = seqZ from (Z.of_nat (length (shards w))))
    ∧ concat (shards <$> ws) = seqZ first T
    ∧ (∀ s, first ≤ s ≤ last →
         ∃ i w, ws !! i = Some w ∧ s ∈ shards w
           ∧ ∀ j w', ws !! j = Some w' → s ∈ shards w' → j = i)
    ∧ (∀ ws', normalizeBotWorkers (Some (WorkersCount N)) first last cc = Ok ws' → ws' = ws).
Proof.
  intros Hrange HN T. exists (evenSplit first T N).
  pose proof (Z.mod_pos_bound T N HN) as Hmod.
  pose proof (Z.div_pos T N ltac:(lia) HN) as Hdiv.
  assert (Hcat : concat (shards <$> evenSplit first T N) = seqZ first T).
  { unfold evenSplit. rewrite <- (Z2Nat.id N) at 3 by lia.
    rewrite concat_even by lia. f_equal. unfold evenStart.
    rewrite Z2Nat.id by lia. pose proof (Z.div_mod T N ltac:(lia)). lia. }
  split; [by apply normalizeBotWorkers_even|].
  split; [unfold evenSplit; by rewrite length_fmap, length_seqZ|].
  split.
  { intros i w Hw. unfold evenSplit in Hw.
    apply list_lookup_fmap_Some in Hw as (x & -> & Hx).
    apply lookup_seqZ in Hx as [-> Hi]. simpl.
    rewrite length_seqZ. rewrite Z.add_0_l.
    assert (0 ≤ evenShare (T / N) (T mod N) (Z.of_nat i))
      by (unfold evenShare; destruct (_ <? _); lia).
    rewrite Z2Nat.id by done. split; [done|]. split; [|eauto].
    apply ceil_share; lia. }
  split; [done|].
  split.
  { intros s Hs.
    assert (Hin : s ∈ concat (shards <$> evenSplit first T N))
      by (rewrite Hcat; apply elem_of_seqZ; lia).
    apply elem_of_concat in Hin as (l & Hsl & Hl).
    apply list_elem_of_fmap in Hl as (w & -> & Hw).
    apply list_elem_of_lookup in Hw as (i & Hi).
    exists i, w. split; [done|]. split; [done|].
    intros j w' Hj Hs'.
    eapply (concat_NoDup_index (shards <$> evenSplit first T N) j i);
      [rewrite Hcat; apply NoDup_seqZ| | |exact Hs'|exact Hsl];
      rewrite list_lookup_fmap; [by rewrite Hj|by rewrite Hi]. }
  intros ws' Hws'. rewrite normalizeBotWorkers_even in Hws' by done. by injection Hws' as <-.
Qed.

Lemma C3_even_split_witness :
  ∃ ws, normalizeBotWorkers (Some (WorkersCount 3)) 0 6 1 = Ok ws ∧ length ws = 3%nat.
Proof.
  destruct (C3_even_split 0 6 3 1 ltac:(lia) ltac:(lia)) as (ws & H1 & H2 & _).
  exists ws. split; assumption.
Defined.

Lemma expandShardRange_range start end_ :
  expandShardRange (ShardRange start end_) =
  if end_ <? start
  then Err ("Invalid shard range " +:+ pretty start +:+ "-" +:+ pretty end_)
  else Ok (seqZ start (end_ - start + 1)).
Proof.
  unfold expandShardRange. destruct (end_ <? start); [done|].
  by rewrite pushShards_seqZ.
Qed.

Lemma mapM_result_Err {A B} (f : A → result B) l x :
  x ∈ l → is_Err (f x) → is_Err (mapM_result f l).
Proof.
  intros Hx [msg Hmsg]. induction l as [|y l IH]; [by apply elem_of_nil in Hx|].
  apply elem_of_cons in Hx as [<-|Hx]; simpl.
  - rewrite Hmsg. by eexists.
  - destruct (f y); simpl; [|by eexists].
    destruct (IH Hx) as [msg' ->]. by eexists.
Qed.

Lemma normalizeBotWorkers_reversed workers wid start end_ first last cc :
  end_ < start →
  {| cfg_id := wid; cfg_shards := ShardRange start end_ |} ∈ workers →
  is_Err (normalizeBotWorkers (Some (WorkersExplicit workers)) first last cc).
Proof.
  intros Hrev Hin. unfold normalizeBotWorkers.
  destruct workers as [|w ws]; [by apply elem_of_nil in Hin|].
  apply (mapM_result_Err _ (w :: ws) _ Hin). cbn -[expandShardRange].
  rewrite expandShardRange_range. destruct (Z.ltb_spec end_ start); [|lia].
  by eexists.
Qed.

(** C9. A shard range [{start, end}] with [end < start] makes
    [expandShardRange] throw, and with it [normalizeBotWorkers] and
    [normalizeCluster] for every worker list that holds the range: no plan
    is returned. With [start <= end] the range expands to the ascending
    list of all the shard ids from [start] to [end]. *)
Theorem C9_shard_range (start end_ : Z) :
  (end_ < start →
     is_Err (expandShardRange (ShardRange start end_))
     ∧ (∀ workers wid first last cc,
          {| cfg_id := wid; cfg_shards := ShardRange start end_ |} ∈ workers →
          is_Err (normalizeBotWorkers (Some (WorkersExplicit workers)) first last cc))
     ∧ (∀ workers wid cid env totalShards,
          {| cfg_id := wid; cfg_shards := ShardRange start end_ |} ∈ workers →
          is_Err (normalizeCluster
                    (Some {| clusters := None; clusterId := cid;
                             workers_botWorkers := Some (WorkersExplicit workers) |})
                    env totalShards)))
  ∧ (start ≤ end_ →
     ∃ l, expandShardRange (ShardRange start end_) = Ok l
       ∧ l = seqZ start (end_ - start + 1)
       ∧ (∀ x, x ∈ l ↔ start ≤ x ≤ end_)
       ∧ NoDup l
       ∧ Z.of_nat (length l) = end_ - start + 1
       ∧ (∀ (i : nat) x, l !! i = Some x → x = start + Z.of_nat i)).
Proof.
  split.
  - intros Hrev. split; [|split].
    + rewrite expandShardRange_range. destruct (Z.ltb_spec end_ start); [|lia]. by eexists.
    + intros. by eapply normalizeBotWorkers_reversed.
    + intros workers wid cid env totalShards Hin.
      destruct (normalizeBotWorkers_reversed workers wid start end_ 0
                  (totalShards - 1) 1 Hrev Hin) as [msg Hmsg].
      unfold normalizeCluster. cbn -[normalizeBotWorkers Z.ltb].
      destruct (nullish_opt env cid) as [selected|];
        [destruct (String.eqb selected "")|];
        cbn -[normalizeBotWorkers Z.ltb];
        (destruct (_ <? _); [by eexists|]); rewrite Hmsg; by eexists.
  - intros Hle. exists (seqZ start (end_ - start + 1)).
    split; [|split; [done|split; [|split; [|split]]]].
    + rewrite expandShardRange_range. by destruct (Z.ltb_spec end_ start); [lia|].
    + intros x. rewrite elem_of_seqZ. lia.
    + apply NoDup_seqZ.
    + rewrite length_seqZ. lia.
    + intros i x Hx. by apply lookup_seqZ in Hx as [-> _].
Qed.

Lemma C9_shard_range_witness :
  is_Err (expandShardRange (ShardRange 5 2))
  ∧ expandShardRange (ShardRange 2 5) = Ok [2; 3; 4; 5].
Proof.
  split.
  - destruct (C9_shard_range 5 2) as [Hrev _].
    destruct (Hrev ltac:(lia)) as [H _]. exact H.
  - destruct (C9_shard_range 2 5) as [_ Hok].
    destruct (Hok ltac:(lia)) as (l & -> & -> & _). reflexivity.
Defined.

(** ** Running supervisor code *)

Lemma pair_eta {A B} (p : A * B) : p = (p.1, p.2).
Proof. by destruct p. Qed.

Lemma run_bind {A B} (m : Async A) (f : A → Async B) w :
  run (bind m f) w =
  let '(w1, es1, o) := run m w in
  match o with
  | Done a => let '(w2, es2, o2) := run (f a) w1 in (w2, es1 ++ es2, o2)
  | Failed msg => (w1, es1, Failed msg)
  | Blocked c k => (w1, es1, Blocked c (bind k f))
  end.
Proof.
  revert w. induction m as [a|msg|k IH|w' k IH|e k IH|c k IH]; intros w; simpl.
  - by destruct (run (f a) w) as [[w2 es2] o2].
  - done.
  - apply IH.
  - apply IH.
  - rewrite IH. destruct (run k w) as [[w1 es1] [a|msg|c k']]; [|done..].
    by destruct (run (f a) w1) as [[w2 es2] o2].
  - destruct (settled w c); [apply IH|done].
Qed.

Lemma run_mbind {A B} (m : Async A) (f : A → Async B) w :
  run (m ≫= f) w =
  let '(w1, es1, o) := run m w in
  match o with
  | Done a => let '(w2, es2, o2) := run (f a) w1 in (w2, es1 ++ es2, o2)
  | Failed msg => (w1, es1, Failed msg)
  | Blocked c k => (w1, es1, Blocked c (bind k f))
  end.
Proof. apply run_bind. Qed.

Lemma drive_bind {A B} (m : Async A) (f : A → Async B) w :
  drive (bind m f) w =
  let '(w1, log1, r) := drive m w in
  match r with
  | Ok a => let '(w2, log2, r2) := drive (f a) w1 in (w2, log1 ++ log2, r2)
  | Err msg => (w1, log1, Err msg)
  end.
Proof.
  revert w. induction m as [a|msg|k IH|w' k IH|e k IH|c k IH]; intros w; simpl.
  - by destruct (drive (f a) w) as [[w2 log2] r2].
  - done.
  - apply IH.
  - apply IH.
  - rewrite IH. destruct (drive k w) as [[w1 log1] [a|msg]]; [|done].
    by destruct (drive (f a) w1) as [[w2 log2] r2].
  - destruct (deliver c w) as [w1 log1]. rewrite IH.
    destruct (drive k w1) as [[w2 log2] [a|msg]]; [|done].
    destruct (drive (f a) w2) as [[w3 log3] r3]. by rewrite app_assoc.
Qed.

Lemma drive_mbind {A B} (m : Async A) (f : A → Async B) w :
  drive (m ≫= f) w =
  let '(w1, log1, r) := drive m w in
  match r with
  | Ok a => let '(w2, log2, r2) := drive (f a) w1 in (w2, log1 ++ log2, r2)
  | Err msg => (w1, log1, Err msg)
  end.
Proof. apply drive_bind. Qed.

(** ** The queue of pending events *)

Lemma run_flushLoop child workerId events keep w :
  run (flushLoop child workerId events keep) w =
  (w, (λ e, Send child (eventMessage e)) <$>
        filter (ownedBy (shardOwner (sup w)) workerId) events,
   Done (keep ++ filter (λ e, ¬ ownedBy (shardOwner (sup w)) workerId e) events)).
Proof.
  revert keep. induction events as [|event events IH]; intros keep; simpl.
  - by rewrite app_nil_r.
  - rewrite !filter_cons. unfold ownedBy at 1 3.
    destruct (decide (shardOwner (sup w) !! ev_shardId event = Some workerId)) as [Ho|Ho].
    + rewrite bool_decide_eq_true_2 by done. simpl. rewrite IH.
      rewrite decide_False by tauto. done.
    + rewrite bool_decide_eq_false_2 by done. rewrite IH.
      rewrite decide_True by done. by rewrite <- app_assoc.
Qed.

(** The flush sends to the registered child of the worker, in the order of
    the queue, the events that the worker owns, and keeps the others. *)
Lemma run_flushPending workerId child w :
  botChildren (sup w) !! workerId = Some child →
  run (flushPendingEventsForWorker workerId) w =
  (with_sup (set_pendingEvents (λ pending,
     filter (λ e, ¬ ownedBy (shardOwner (sup w)) workerId e) pending)) w,
   (λ e, Send child (eventMessage e)) <$>
     filter (ownedBy (shardOwner (sup w)) workerId) (pendingEvents (sup w)),
   Done tt).
Proof.
  intros Hchild. unfold flushPendingEventsForWorker. cbn -[flushLoop].
  rewrite Hchild. cbn -[flushLoop].
  rewrite run_mbind, run_flushLoop. cbn. by rewrite app_nil_r.
Qed.

(** Without a registered child the announcement flushes nothing. *)
Lemma run_flushPending_absent workerId w :
  botChildren (sup w) !! workerId = None →
  run (flushPendingEventsForWorker workerId) w = (w, [], Done tt).
Proof. intros Hchild. unfold flushPendingEventsForWorker. cbn. by rewrite Hchild. Qed.

Lemma run_gateway_event_absent w shardId payload :
  (∀ wid, shardOwner (sup w) !! shardId = Some wid → wid ≠ "" →
          botChildren (sup w) !! wid = None) →
  run (onGatewayMessage (GatewayEvent shardId payload)) w =
  (with_sup (set_pendingEvents (λ pending,
     pending ++ [{| ev_shardId := shardId; ev_payload := payload |}])) w, [], Done tt).
Proof.
  intros Habsent. cbn.
  destruct (shardOwner (sup w) !! shardId) as [wid|] eqn:Ho; [|done].
  destruct (String.eqb_spec wid "") as [->|Hne]; [done|].
  by rewrite (Habsent wid).
Qed.

(** An event for a worker with a registered child goes to the child at
    once, whether or not the child has announced readiness. *)
Lemma run_gateway_event_present w shardId payload wid child :
  shardOwner (sup w) !! shardId = Some wid → wid ≠ "" →
  botChildren (sup w) !! wid = Some child →
  run (onGatewayMessage (GatewayEvent shardId payload)) w =
  (w, [Send child (GatewayEvent shardId payload)], Done tt).
Proof.
  intros Ho Hne Hc. cbn. rewrite Ho.
  destruct (String.eqb_spec wid "") as [->|_]; [done|]. by rewrite Hc.
Qed.





(** ** The lazy reload *)
















(** On the three workers the run to completion and the event loop agree:
    the events that [drive] delivers, fed to [exec], give the same log. *)
Lemma lazy_reload_exec_agrees :
  (exec cluster3 1
     [Api CallReloadLazy; CommandSyncDone 1%nat; ChildExit 1%nat 0; ChildExit 2%nat 0;
      ChildExit 3%nat 0] (boot cluster3)).2 =
  In (Api CallReloadLazy) :: (drive (reloadLazy cluster3) (world (boot cluster3))).1.2.
Proof. vm_compute. reflexivity. Qed.

(** ** The ownership map *)

Lemma foldl_insert_None (owner : gmap Z string) (l : list Z) (v : string) k :
  foldl (λ owner shardId, <[shardId := v]> owner) owner l !! k = None ↔
  owner !! k = None ∧ k ∉ l.
Proof.
  revert owner. induction l as [|x l IH]; intros owner; simpl.
  - split; [intros ?; split; [done|apply not_elem_of_nil]|by intros [? _]].
  - rewrite IH, not_elem_of_cons. destruct (decide (x = k)) as [->|Hne].
    + rewrite lookup_insert_eq. split; [by intros [? _]|by intros [_ [? _]]].
    + rewrite lookup_insert_ne by done. split.
      * intros [? ?]. repeat split; [done|congruence|done].
      * intros [? [_ ?]]. done.
Qed.

Lemma ownership_None_from (workers : list RuntimeBotWorkerConfig) (owner : gmap Z string) k :
  foldl (λ owner worker,
    foldl (λ owner shardId, <[shardId := id worker]> owner) owner (shards worker))
    owner workers !! k = None ↔
  owner !! k = None ∧ ∀ worker, worker ∈ workers → k ∉ shards worker.
Proof.
  revert owner. induction workers as [|v workers IH]; intros owner; simpl.
  - split; [intros ?; split; [done|by intros ? ?%elem_of_nil]|by intros [? _]].
  - rewrite IH, foldl_insert_None. split.
    + intros [[? ?] Hrest]. split; [done|]. intros u [->|?]%elem_of_cons; eauto.
    + intros [? Hall]. split; [split; [done|]|]; [apply Hall; by left|].
      intros u ?. apply Hall. by right.
Qed.

(** No worker of the plan has the shard exactly when the ownership map has
    no entry for it. *)
Lemma ownership_None workers k :
  ownership workers !! k = None ↔ ∀ worker, worker ∈ workers → k ∉ shards worker.
Proof.
  unfold ownership. rewrite ownership_None_from. rewrite lookup_empty.
  split; [by intros [_ ?]|by intros ?].
Qed.

Lemma run_fill_shards worker l : ∀ w,
  run (forEach l (λ shardId, modifySup (set_shardOwner (insert shardId (id worker))))) w =
  (with_sup (set_shardOwner (λ owner,
     foldl (λ owner shardId, <[shardId := id worker]> owner) owner l)) w, [], Done tt).
Proof.
  induction l as [|x l IH]; intros w.
  - destruct w as [[] ?]. done.
  - cbn [forEach]. rewrite run_mbind. cbn. rewrite IH. destruct w as [[] ?]. done.
Qed.

Lemma run_fill_owner workers : ∀ w,
  run (forEach workers (λ worker,
         forEach (shards worker) (λ shardId,
           modifySup (set_shardOwner (insert shardId (id worker)))))) w =
  (with_sup (set_shardOwner (λ owner,
     foldl (λ owner worker,
       foldl (λ owner shardId, <[shardId := id worker]> owner) owner (shards worker))
       owner workers)) w, [], Done tt).
Proof.
  induction workers as [|v workers IH]; intros w.
  - destruct w as [[] ?]. done.
  - cbn [forEach]. rewrite run_mbind, run_fill_shards. cbn. rewrite IH.
    destruct w as [[] ?]. done.
Qed.

Lemma run_spawn_all_owner workers : ∀ w,
  shardOwner (sup (run (forEach workers spawnBotWorker) w).1.1) = shardOwner (sup w).
Proof.
  induction workers as [|v workers IH]; intros w; [done|].
  cbn [forEach]. rewrite run_mbind. cbn.
  match goal with |- context [run (forEach workers spawnBotWorker) ?w'] =>
    specialize (IH w'); destruct (run (forEach workers spawnBotWorker) w') as [[w2 es2] o2]
  end.
  cbn in *. done.
Qed.

(** [startWorkerRuntime] leaves the ownership map of the plan. *)
Lemma boot_shardOwner cluster :
  shardOwner (sup (world (boot cluster))) = ownership (botWorkers cluster).
Proof.
  unfold boot, startWorkerRuntime.
  set (fill := forEach (botWorkers cluster) _).
  cbn -[fill forEach]. rewrite run_mbind. unfold fill. rewrite run_fill_owner.
  cbn -[forEach]. rewrite run_mbind.
  match goal with |- context [run (forEach (botWorkers cluster) spawnBotWorker) ?w'] =>
    pose proof (run_spawn_all_owner (botWorkers cluster) w') as Hsp;
    destruct (run (forEach (botWorkers cluster) spawnBotWorker) w') as [[w2 es2] o2]
  end.
  cbn in Hsp. destruct o2; cbn; try done.
Qed.


(** ** What no run of the supervisor changes *)

Section Invariants.
Context (P : World → Prop) (HP : Stable P).

Lemma keeps_run {A} (m : Async A) : ∀ w,
  keeps P m w →
  (P w → P (run m w).1.1)
  ∧ match (run m w).2 with
    | Blocked c k => ∀ w', keeps P k w'
    | _ => True
    end.
Proof.
  induction m as [a|msg|k IH|w' k IH|e k IH|c k IH]; intros w Hk; simpl in *.
  - done.
  - done.
  - by apply IH.
  - destruct Hk as [Hput Hk]. destruct (IH w' Hk) as [IH1 IH2]. split; [|done].
    intros Hw. by apply IH1, Hput.
  - specialize (IH w Hk). by destruct (run k w) as [[? ?] ?].
  - destruct (settled w c); [by apply IH|done].
Qed.

Lemma keeps_bind {A B} (m : Async A) (f : A → Async B) : ∀ w,
  keeps P m w → (∀ a w', keeps P (f a) w') → keeps P (m ≫= f) w.
Proof.
  change (m ≫= f) with (bind m f).
  induction m as [a|msg|k IH|w' k IH|e k IH|c k IH]; intros w Hk Hf; simpl in *.
  - by apply Hf.
  - done.
  - by apply IH.
  - destruct Hk. split; [done|]. by apply IH.
  - by apply IH.
  - intros w'. by apply IH.
Qed.

Lemma keeps_forEach {A} (l : list A) (body : A → Async unit) :
  (∀ x w, keeps P (body x) w) → ∀ w, keeps P (forEach l body) w.
Proof.
  intros Hbody. induction l as [|x l IH]; intros w; [done|].
  cbn [forEach]. apply keeps_bind; [by apply Hbody|]. intros _ w'. by apply IH.
Qed.

Lemma keeps_mapA {A B} (l : list A) (f : A → Async B) :
  (∀ x w, keeps P (f x) w) → ∀ w, keeps P (mapA f l) w.
Proof.
  intros Hf. induction l as [|x l IH]; intros w; [done|].
  cbn [mapA]. apply keeps_bind; [by apply Hf|]. intros y w'.
  apply keeps_bind; [by apply IH|]. done.
Qed.

Lemma keeps_modifySup f w : (P w → P (with_sup f w)) → keeps P (modifySup f) w.
Proof. intros. cbn. done. Qed.

Lemma keeps_modifyNode f w : keeps P (modify (with_node f)) w.
Proof. cbn. split; [apply (stable_node P HP)|done]. Qed.

Lemma keeps_fork r w : keeps P (fork r) w.
Proof. cbn. split; [apply (stable_node P HP)|done]. Qed.
Lemma keeps_setTimeout delay action w : keeps P (setTimeout delay action) w.
Proof. cbn. split; [apply (stable_node P HP)|done]. Qed.
Lemma keeps_sync w : keeps P syncCommandsInBackground w.
Proof. cbn. split; [apply (stable_node P HP)|done]. Qed.
Lemma keeps_sendOpt c msg w : keeps P (sendOpt c msg) w.
Proof. by destruct c. Qed.

Lemma keeps_killChild c w : keeps P (killChild c) w.
Proof.
  destruct c as [c|]; [|done]. cbn.
  destruct (procs (node w) !! c) as [p|]; [|done].
  destruct (killed p || _); cbn; [done|].
  split; [apply (stable_node P HP)|done].
Qed.

Lemma keeps_awaitKill c w : keeps P (awaitKill c) w.
Proof. unfold awaitKill. apply keeps_bind; [apply keeps_killChild|]. done. Qed.

Lemma keeps_awaitKillAll cs w : keeps P (awaitKillAll cs) w.
Proof.
  unfold awaitKillAll. apply keeps_bind; [|done].
  apply keeps_mapA. intros. apply keeps_killChild.
Qed.

Lemma keeps_spawnRestWorker w : keeps P spawnRestWorker w.
Proof. unfold spawnRestWorker. apply keeps_bind; [apply keeps_fork|]. intros. keeps_set HP. Qed.

Lemma keeps_spawnGatewayWorker w : keeps P spawnGatewayWorker w.
Proof. unfold spawnGatewayWorker. apply keeps_bind; [apply keeps_fork|]. intros. keeps_set HP. Qed.

Lemma keeps_spawnBotWorker worker w : keeps P (spawnBotWorker worker) w.
Proof. unfold spawnBotWorker. apply keeps_bind; [apply keeps_fork|]. intros. keeps_set HP. Qed.

Lemma keeps_flushLoop child workerId events : ∀ keep w,
  keeps P (flushLoop child workerId events keep) w.
Proof.
  induction events as [|e events IH]; intros keep w; [done|].
  cbn. destruct (bool_decide _); cbn; by apply IH.
Qed.

Lemma keeps_flushPending workerId w : keeps P (flushPendingEventsForWorker workerId) w.
Proof.
  unfold flushPendingEventsForWorker. cbn -[flushLoop].
  destruct (botChildren (sup w) !! workerId) as [child|]; [|done].
  apply keeps_bind; [by apply keeps_flushLoop|]. intros keep w'. keeps_set HP.
Qed.

Lemma keeps_onBotMessage child incoming w : keeps P (onBotMessage child incoming) w.
Proof.
  destruct incoming; try done; cbn -[flushPendingEventsForWorker].
  - apply keeps_sendOpt.
  - apply keeps_sendOpt.
  - split; [apply (stable_shardInfoRequests P HP)|]. apply keeps_sendOpt.
  - apply keeps_flushPending.
Qed.

Lemma keeps_respawnCallback worker w : keeps P (respawnCallback worker) w.
Proof.
  unfold respawnCallback. cbn -[spawnBotWorker].
  destruct (stopped (sup w) || _); [done|]. cbn -[spawnBotWorker].
  apply keeps_spawnBotWorker.
Qed.

Lemma keeps_onBotExit worker w : keeps P (onBotExit worker) w.
Proof.
  unfold onBotExit. apply keeps_bind; [keeps_set HP|]. intros _ w1.
  apply keeps_bind; [done|]. intros s w2.
  apply keeps_bind; [keeps_set HP|]. intros _ w3.
  apply keeps_bind; [done|]. intros s' w4.
  destruct (negb (stopped s')); [|done].
  apply keeps_bind; [by destruct (negb _)|]. intros _ w5.
  destruct (negb _ && _); [|done].
  apply keeps_bind; [apply keeps_setTimeout|]. done.
Qed.

Lemma keeps_onGatewayMessage incoming w : keeps P (onGatewayMessage incoming) w.
Proof.
  destruct incoming as [shardId payload|nonce ? ?| | | | | | | |]; try done; cbn.
  - destruct (shardOwner (sup w) !! shardId) as [wid|]; cbn;
      [|split; [apply (stable_pendingEvents P HP)|done]].
    destruct (String.eqb wid ""); cbn; [split; [apply (stable_pendingEvents P HP)|done]|].
    destruct (botChildren (sup w) !! wid); cbn;
      [done|split; [apply (stable_pendingEvents P HP)|done]].
  - split; [apply (stable_shardInfoRequests P HP)|].
    by destruct (shardInfoRequests (sup w) !! nonce).
Qed.

Lemma keeps_onGatewayExit w : keeps P onGatewayExit w.
Proof. unfold onGatewayExit. cbn. by destruct (stopped (sup w)). Qed.

Section WithCluster.
Context (cluster : RuntimeClusterConfig) (cc : Z).

Lemma keeps_restart workerId w : keeps P (restartBotWorkerById cluster workerId) w.
Proof.
  unfold restartBotWorkerById.
  destruct (List.find _ _) as [worker|]; [|done].
  apply keeps_bind; [done|]. intros s w1.
  apply keeps_bind; [keeps_set HP|]. intros _ w2.
  apply keeps_bind; [|intros _ w3; apply keeps_spawnBotWorker].
  destruct (botChildren s !! workerId) as [c|]; [|done].
  apply keeps_bind; [done|]. intros _ w3.
  apply keeps_bind; [apply keeps_awaitKill|]. intros _ w4. keeps_set HP.
Qed.

Lemma keeps_reload w : keeps P (reload cluster) w.
Proof.
  unfold reload. apply keeps_bind; [done|]. intros s w1.
  destruct (stopped s); [done|].
  apply keeps_bind; [keeps_set HP|]. intros _ w2.
  apply keeps_bind; [apply keeps_sync|]. intros n w3.
  apply keeps_bind; [done|]. intros s' w4.
  apply keeps_bind; [apply keeps_forEach; intros; keeps_set HP|]. intros _ w5.
  apply keeps_bind; [by apply keeps_forEach|]. intros _ w6.
  apply keeps_bind; [apply keeps_awaitKillAll|]. intros _ w7.
  apply keeps_bind; [keeps_set HP|]. intros _ w8.
  apply keeps_bind; [apply keeps_forEach, keeps_spawnBotWorker|]. intros _ w9.
  apply keeps_bind; [done|]. intros _ w10. keeps_set HP.
Qed.

Lemma keeps_reloadLazy w : keeps P (reloadLazy cluster) w.
Proof.
  unfold reloadLazy. apply keeps_bind; [done|]. intros s w1.
  destruct (stopped s); [done|].
  apply keeps_bind; [keeps_set HP|]. intros _ w2.
  apply keeps_bind; [apply keeps_sync|]. intros n w3.
  apply keeps_bind; [done|]. intros _ w4.
  apply keeps_bind; [apply keeps_forEach; intros; apply keeps_restart|]. intros _ w5.
  keeps_set HP.
Qed.

Lemma keeps_fullReload w : keeps P (fullReload cluster) w.
Proof.
  unfold fullReload. apply keeps_bind; [done|]. intros s w1.
  destruct (stopped s); [done|].
  apply keeps_bind; [keeps_set HP|]. intros _ w2.
  apply keeps_bind; [apply keeps_sync|]. intros n w3.
  apply keeps_bind; [done|]. intros _ w4.
  apply keeps_bind; [done|]. intros s' w5.
  apply keeps_bind; [apply keeps_forEach; intros; keeps_set HP|]. intros _ w6.
  apply keeps_bind; [by apply keeps_forEach|]. intros _ w7.
  apply keeps_bind; [apply keeps_awaitKillAll|]. intros _ w8.
  apply keeps_bind; [keeps_set HP|]. intros _ w9.
  apply keeps_bind; [keeps_set HP|]. intros _ w10.
  apply keeps_bind; [keeps_set HP|]. intros _ w11.
  apply keeps_bind; [done|]. intros s2 w12.
  apply keeps_bind; [apply keeps_awaitKill|]. intros _ w13.
  apply keeps_bind; [keeps_set HP|]. intros _ w14.
  apply keeps_bind; [done|]. intros s3 w15.
  apply keeps_bind; [apply keeps_awaitKill|]. intros _ w16.
  apply keeps_bind; [keeps_set HP|]. intros _ w17.
  apply keeps_bind; [apply keeps_spawnRestWorker|]. intros _ w18.
  apply keeps_bind; [apply keeps_forEach, keeps_spawnBotWorker|]. intros _ w19.
  apply keeps_bind; [apply keeps_spawnGatewayWorker|]. intros _ w20.
  keeps_set HP.
Qed.

Lemma keeps_stop w : keeps P stop w.
Proof.
  unfold stop. apply keeps_bind; [done|]. intros s w1.
  destruct (stopped s); [done|].
  apply keeps_bind; [keeps_set HP|]. intros _ w2.
  apply keeps_bind; [done|]. intros s1 w3.
  apply keeps_bind; [apply keeps_awaitKillAll|]. intros _ w4.
  apply keeps_bind; [keeps_set HP|]. intros _ w5.
  apply keeps_bind; [done|]. intros s2 w6.
  apply keeps_bind; [apply keeps_awaitKill|]. intros _ w7.
  apply keeps_bind; [done|]. intros s3 w8.
  apply keeps_awaitKill.
Qed.

Lemma keeps_restartShard shardId w : keeps P (restartShard cluster shardId) w.
Proof.
  unfold restartShard. apply keeps_bind; [done|]. intros s w1.
  destruct (shardOwner s !! shardId) as [workerId|]; [|done].
  destruct (String.eqb workerId ""); [done|]. apply keeps_restart.
Qed.

Lemma keeps_handler ev w : keeps P (handler cluster cc ev) w.
Proof.
  destruct ev as [child incoming|child code|timer|n|c]; cbn [handler].
  - unfold onMessage. apply keeps_bind; [done|]. intros w0 w1.
    destruct (procs (node w0) !! child) as [p|]; [|done].
    destruct (role p); [done|apply keeps_onGatewayMessage|apply keeps_onBotMessage].
  - unfold onExit. apply keeps_bind; [done|]. intros w0 w1.
    destruct (procs (node w0) !! child) as [p|]; [|done].
    destruct (bool_decide _); [done|].
    apply keeps_bind; [apply keeps_modifyNode|]. intros _ w2.
    apply keeps_bind; [|intros; apply keeps_modifyNode].
    destruct (role p); [done|apply keeps_onGatewayExit|apply keeps_onBotExit].
  - unfold onTimer. apply keeps_bind; [done|]. intros w0 w1.
    destruct (timers (node w0) !! timer) as [action|]; [|done].
    apply keeps_bind; [apply keeps_modifyNode|]. intros _ w2.
    destruct action; [|apply keeps_respawnCallback].
    apply keeps_bind; [apply keeps_modifyNode|]. done.
  - apply keeps_modifyNode.
  - destruct c; cbn [call].
    + apply keeps_reload.
    + apply keeps_reloadLazy.
    + apply keeps_fullReload.
    + apply keeps_restart.
    + apply keeps_restartShard.
    + done.
    + apply keeps_stop.
Qed.

Lemma resume_keeps acc task :
  tasksKeep P acc.1 → (∀ w, keeps P task.2 w) →
  tasksKeep P (resume acc task).1
  ∧ (P (world acc.1) → P (world (resume acc task).1)).
Proof.
  destruct acc as [sys es]. intros Htasks Htask. unfold resume, tasksKeep in *. cbn [fst].
  destruct (settled (world sys) task.1).
  - pose proof (keeps_run task.2 (world sys) (Htask _)) as [Hw' Hk].
    destruct (run task.2 (world sys)) as [[w' es'] o]. cbn in *. split; [|done].
    apply Forall_app. split; [done|]. destruct o; cbn; by repeat constructor.
  - cbn. split; [|done]. apply Forall_app. split; [done|]. by repeat constructor.
Qed.

Lemma foldl_resume_keeps tasks : ∀ acc,
  tasksKeep P acc.1 → Forall (λ task, ∀ w, keeps P task.2 w) tasks →
  tasksKeep P (foldl resume acc tasks).1
  ∧ (P (world acc.1) → P (world (foldl resume acc tasks).1)).
Proof.
  induction tasks as [|task tasks IH]; intros acc Hacc Htasks; [done|].
  apply Forall_cons in Htasks as [Htask Htasks]. cbn [foldl].
  destruct (resume_keeps acc task Hacc Htask) as [H1 H2].
  destruct (IH _ H1 Htasks) as [H3 H4]. split; [done|]. intros. by apply H4, H2.
Qed.

(** A step keeps [P], and the functions that it leaves suspended keep it. *)
Lemma step_keeps ev sys :
  tasksKeep P sys →
  tasksKeep P (step cluster cc ev sys).1
  ∧ (P (world sys) → P (world (step cluster cc ev sys).1)).
Proof.
  intros Htasks. unfold step.
  pose proof (keeps_run (handler cluster cc ev) (world sys) (keeps_handler ev _))
    as [Hw' Hk].
  destruct (run (handler cluster cc ev) (world sys)) as [[w' es] o]. cbn in *.
  destruct (foldl_resume_keeps (tasks sys ++ suspended o)
              ({| world := w'; tasks := [] |}, es)) as [H1 H2].
  - constructor.
  - apply Forall_app. split; [done|]. destruct o; cbn; by repeat constructor.
  - split; [done|]. intros. by apply H2, Hw'.
Qed.

Lemma exec_keeps evs : ∀ sys,
  tasksKeep P sys →
  tasksKeep P (exec cluster cc evs sys).1
  ∧ (P (world sys) → P (world (exec cluster cc evs sys).1)).
Proof.
  induction evs as [|ev evs IH]; intros sys Hsys; [done|].
  cbn [exec]. destruct (step_keeps ev sys Hsys) as [H1 H2].
  destruct (step cluster cc ev sys) as [sys' es]. destruct (IH sys' H1) as [H3 H4].
  destruct (exec cluster cc evs sys') as [sys'' log]. cbn in *. split; [done|].
  intros. by apply H4, H2.
Qed.

End WithCluster.
End Invariants.

Lemma run_forEach_done {A} (l : list A) (body : A → Async unit) :
  (∀ x w, (run (body x) w).2 = Done tt) → ∀ w, (run (forEach l body) w).2 = Done tt.
Proof.
  intros Hbody. induction l as [|x l IH]; intros w; [done|].
  cbn [forEach]. rewrite run_mbind. specialize (Hbody x w).
  destruct (run (body x) w) as [[w1 es1] o1]. cbn in Hbody. subst o1.
  specialize (IH w1). by destruct (run (forEach l body) w1) as [[w2 es2] o2].
Qed.

(** [startWorkerRuntime] returns: it never awaits. *)
Lemma boot_tasks cluster : tasks (boot cluster) = [].
Proof.
  unfold boot.
  assert (Hdone : (run (startWorkerRuntime cluster) emptyWorld).2 = Done tt).
  { unfold startWorkerRuntime.
    rewrite run_mbind. cbn [syncCommandsInBackground]. cbn -[forEach spawnBotWorker].
    rewrite run_mbind.
    pose proof (run_forEach_done (botWorkers cluster)
                  (λ worker, forEach (shards worker) (λ shardId,
                     modifySup (set_shardOwner (insert shardId (id worker)))))) as Hfill.
    match goal with |- context [run (forEach (botWorkers cluster) ?body) ?w] =>
      specialize (Hfill ltac:(intros; by apply run_forEach_done) w);
      destruct (run (forEach (botWorkers cluster) body) w) as [[w1 es1] o1]
    end.
    cbn in Hfill. subst o1. cbn -[forEach spawnBotWorker]. rewrite run_mbind.
    match goal with |- context [run (forEach (botWorkers cluster) spawnBotWorker) ?w] =>
      pose proof (run_forEach_done (botWorkers cluster) spawnBotWorker
                    ltac:(by intros) w) as Hspawn;
      destruct (run (forEach (botWorkers cluster) spawnBotWorker) w) as [[w2 es2] o2]
    end.
    cbn in Hspawn. subst o2. done. }
  destruct (run (startWorkerRuntime cluster) emptyWorld) as [[w es] o].
  cbn in Hdone. by subst o.
Qed.

Lemma Stable_shardOwner (M : gmap Z string) : Stable (λ w, shardOwner (sup w) = M).
Proof. by split. Qed.


(** The ownership map never changes after the start. *)
Lemma reachable_shardOwner cluster cc evs :
  shardOwner (sup (world (exec cluster cc evs (boot cluster)).1)) =
  ownership (botWorkers cluster).
Proof.
  destruct (exec_keeps _ (Stable_shardOwner (ownership (botWorkers cluster)))
              cluster cc evs (boot cluster)) as [_ Hkeep].
  - unfold tasksKeep. rewrite boot_tasks. constructor.
  - apply Hkeep, boot_shardOwner.
Qed.



(** ** Restart of the worker of a shard *)

(** C8. In every state that the supervisor of a plan can reach,
    [restartShard] for a shard that no worker of the plan has rejects at
    once with ["No worker owns shard ..."]: the supervisor is unchanged and
    there is no effect, so nothing is forked, killed or sent a message. *)
Theorem C8_restartShard_unknown (cluster : RuntimeClusterConfig) (cc : Z)
    (evs : list Event) (shardId : Z) :
  (∀ worker, worker ∈ botWorkers cluster → shardId ∉ shards worker) →
  let w := world (exec cluster cc evs (boot cluster)).1 in
  run (restartShard cluster shardId) w =
  (w, [], Failed ("No worker owns shard " +:+ pretty shardId)).
Proof.
  intros Hnone w. apply ownership_None in Hnone. unfold restartShard. cbn.
  unfold w. by rewrite reachable_shardOwner, Hnone.
Qed.

Lemma C8_restartShard_unknown_witness :
  let w := world (exec cluster3 1 [ChildExit 1%nat 1; Api CallReloadLazy] (boot cluster3)).1 in
  run (restartShard cluster3 7) w = (w, [], Failed "No worker owns shard 7").
Proof.
  apply (C8_restartShard_unknown cluster3 1 [ChildExit 1%nat 1; Api CallReloadLazy] 7).
  intros worker Hin.
  apply elem_of_cons in Hin as [->|Hin]; [by apply (bool_decide_unpack _)|].
  apply elem_of_cons in Hin as [->|Hin]; [by apply (bool_decide_unpack _)|].
  apply list_elem_of_singleton in Hin as ->. by apply (bool_decide_unpack _).
Defined.

(** ** Exit of a worker and respawn *)




(** During a reload an exit arms no timer. *)
Lemma run_onBotExit_reloading worker w :
  reloading (sup w) = true →
  ∀ timer delay action,
    SetTimeout timer delay action ∉ (run (onBotExit worker) w).1.2.
Proof.
  intros Hre timer delay action. unfold onBotExit. cbn. rewrite Hre.
  destruct (stopped (sup w)); cbn; [apply not_elem_of_nil|].
  destruct (bool_decide _); cbn; [apply not_elem_of_nil|].
  intros Hin. apply list_elem_of_singleton in Hin. discriminate.
Qed.







(** ** Reloads and stop *)

Lemma C5_counterexample : ¬ reloadsSerialized cluster3 1.
Proof.
  intros Hclaim.
  apply (Hclaim [Api CallReloadLazy] _ _ CallReload (pair_eta _))
    with (e := Send 1%nat Shutdown).
  - vm_compute. reflexivity.
  - by left.
  - vm_compute. set_solver.
  - exact I.
Qed.

(** C5, amended. Reloads are not serialized. On a stopped supervisor
    [reload], [reloadLazy] and [fullReload] do nothing. On a supervisor that
    is not stopped each of them starts at once, whether or not another
    reload is running: what it does is the same for both values of the
    [reloading] flag, and its first effect is to start the command sync. A
    [reloadLazy] whose command sync has not settled leaves [reloading] set
    and is suspended on the sync. *)
Theorem C5_reloads_not_serialized (cluster : RuntimeClusterConfig) (w : World) (b : bool) :
  (stopped (sup w) = true →
     run (reload cluster) w = (w, [], Done tt)
     ∧ run (reloadLazy cluster) w = (w, [], Done tt)
     ∧ run (fullReload cluster) w = (w, [], Done tt))
  ∧ (stopped (sup w) = false →
     run (reload cluster) (with_sup (set_reloading b) w) = run (reload cluster) w
     ∧ run (reloadLazy cluster) (with_sup (set_reloading b) w) = run (reloadLazy cluster) w
     ∧ run (fullReload cluster) (with_sup (set_reloading b) w) = run (fullReload cluster) w
     ∧ (∃ w' es o, run (reload cluster) w =
                     (w', StartCommandSync (nextSync (node w)) :: es, o))
     ∧ (∃ w' es o, run (reloadLazy cluster) w =
                     (w', StartCommandSync (nextSync (node w)) :: es, o))
     ∧ (∃ w' es o, run (fullReload cluster) w =
                     (w', StartCommandSync (nextSync (node w)) :: es, o))
     ∧ (nextSync (node w) ∉ syncsDone (node w) →
        ∃ w' k, run (reloadLazy cluster) w =
                  (w', [StartCommandSync (nextSync (node w))],
                   Blocked (WaitSync (nextSync (node w))) k)
                ∧ reloading (sup w') = true)).
Proof.
  split.
  - intros Hst. unfold reload, reloadLazy, fullReload. cbn. by rewrite Hst.
  - intros Hst. repeat split.
    + unfold reload. cbn -[forEach awaitKillAll]. rewrite Hst. reflexivity.
    + unfold reloadLazy. cbn -[forEach]. rewrite Hst. reflexivity.
    + unfold fullReload. cbn -[forEach awaitKillAll awaitKill]. rewrite Hst. reflexivity.
    + unfold reload. cbn -[forEach awaitKillAll]. rewrite Hst.
      cbn -[forEach awaitKillAll]. destruct (run _ _) as [[w' es] o]. eauto.
    + unfold reloadLazy. cbn -[forEach]. rewrite Hst.
      cbn -[forEach]. destruct (bool_decide _); [|eauto].
      destruct (run _ _) as [[w' es] o]. eauto.
    + unfold fullReload. cbn -[forEach awaitKillAll awaitKill]. rewrite Hst.
      cbn -[forEach awaitKillAll awaitKill]. destruct (bool_decide _); [|eauto].
      destruct (run _ _) as [[w' es] o]. eauto.
    + intros Hfresh. unfold reloadLazy. cbn -[forEach]. rewrite Hst.
      cbn -[forEach]. rewrite bool_decide_eq_false_2 by done. eauto.
Qed.

Lemma C5_reloads_not_serialized_witness :
  run (reload cluster3) (with_sup (set_reloading true) (world (boot cluster3))) =
  run (reload cluster3) (world (boot cluster3)).
Proof.
  destruct (C5_reloads_not_serialized cluster3 (world (boot cluster3)) true) as (_ & Hrun).
  destruct (Hrun eq_refl) as (Hsame & _). exact Hsame.
Defined.



(** C6, at the failing input. The operator restarts [bot-0]; while the
    supervisor waits for the exit of its child, [stop] is called; then the
    exit arrives. The exit listener respawns nothing, but the suspended
    restart goes on and forks [bot-0] again, after [stopped] was set. *)
Theorem C6_respawn_after_stop :
  let outcome := exec cluster3 1
                   [Api (CallRestartWorker "bot-0"); Api CallStop; ChildExit 1%nat 0]
                   (boot cluster3) in
  stopped (sup (world outcome.1)) = true
  ∧ outcome.2 =
      [In (Api (CallRestartWorker "bot-0"));
       Out (Send 1%nat Shutdown);
       Out (SetTimeout 0 5000 (SigKillTimer 1%nat));
       Out (Send 1%nat Shutdown);
       In (Api CallStop);
       Out (SetTimeout 1 5000 (SigKillTimer 2%nat));
       Out (Send 2%nat Shutdown);
       Out (SetTimeout 2 5000 (SigKillTimer 3%nat));
       Out (Send 3%nat Shutdown);
       Out (SetTimeout 3 5000 (SigKillTimer 1%nat));
       Out (Send 1%nat Shutdown);
       In (ChildExit 1%nat 0);
       Out (Fork 5%nat (BotRole bot0))].
Proof. split; vm_compute; reflexivity. Qed.

(** ** Shard info queries *)


Lemma run_getShardInfo w child nonce guildId :
  run (onBotMessage child (GetShardInfo nonce guildId)) w =
  (with_sup (set_shardInfoRequests (insert nonce child)) w,
   match gatewayChild (sup w) with
   | Some gateway => [Send gateway (GetShardInfo nonce guildId)]
   | None => []
   end, Done tt).
Proof. cbn. by destruct (gatewayChild (sup w)). Qed.

Lemma run_shardInfoResponse w nonce shardId rtt :
  run (onGatewayMessage (ShardInfoResponse nonce shardId rtt)) w =
  (with_sup (set_shardInfoRequests (delete nonce)) w,
   match shardInfoRequests (sup w) !! nonce with
   | Some requester => [Send requester (ShardInfoResponse nonce shardId rtt)]
   | None => []
   end, Done tt).
Proof. cbn. by destruct (shardInfoRequests (sup w) !! nonce). Qed.


(** ** The bot worker *)

(** C10. A worker that receives a gateway event calls
    [handleGatewayEvent] exactly when the shard of the event is one of its
    own shards; an event for another shard is dropped without any action,
    so no callback of the bot ever runs for a shard the worker does not
    own. *)
Theorem C10_worker_filters_by_shard (worker : RuntimeBotWorkerConfig) (bot : BotProcess.Bot)
    (shardId : Z) (payload : DiscordGatewayPayload) :
  let actions := BotProcess.onMessage worker bot (GatewayEvent shardId payload) in
  (BotProcess.Dispatch payload shardId ∈ actions ↔ shardId ∈ shards worker)
  ∧ (shardId ∈ shards worker →
     actions = BotProcess.Dispatch payload shardId
                 :: BotProcess.handleGatewayEvent bot payload shardId)
  ∧ (shardId ∉ shards worker → actions = [])
  ∧ (∀ a, a ∈ actions → BotProcess.isCall a → shardId ∈ shards worker).
Proof.
  intros actions. unfold actions, BotProcess.onMessage, BotProcess.shardSet.
  destruct (decide (shardId ∈ shards worker)) as [Hin|Hout].
  - rewrite bool_decide_eq_true_2 by by apply elem_of_list_to_set.
    split; [split; [done|by left]|]. split; [done|]. split; [done|]. done.
  - rewrite bool_decide_eq_false_2 by by rewrite elem_of_list_to_set.
    split; [split; [by intros ?%elem_of_nil|done]|]. split; [done|]. split; [done|].
    by intros a ?%elem_of_nil.
Qed.

Lemma C10_worker_filters_by_shard_witness :
  BotProcess.onMessage bot0
    {| BotProcess.events_raw := None;
       BotProcess.events_dispatchRequirements := None;
       BotProcess.handlers := {[ "MESSAGE_CREATE" := false ]} |}
    (GatewayEvent 1 messageCreate) =
  [BotProcess.Dispatch messageCreate 1; BotProcess.CallHandler "MESSAGE_CREATE" messageCreate 1]
  ∧ BotProcess.onMessage bot0
      {| BotProcess.events_raw := None;
         BotProcess.events_dispatchRequirements := None;
         BotProcess.handlers := {[ "MESSAGE_CREATE" := false ]} |}
      (GatewayEvent 2 messageCreate) = [].
Proof.
  split.
  - destruct (C10_worker_filters_by_shard bot0
                {| BotProcess.events_raw := None;
                   BotProcess.events_dispatchRequirements := None;
                   BotProcess.handlers := {[ "MESSAGE_CREATE" := false ]} |}
                1 messageCreate) as (_ & Hown & _).
    rewrite Hown; [reflexivity|]. by apply (bool_decide_unpack _).
  - destruct (C10_worker_filters_by_shard bot0
                {| BotProcess.events_raw := None;
                   BotProcess.events_dispatchRequirements := None;
                   BotProcess.handlers := {[ "MESSAGE_CREATE" := false ]} |}
                2 messageCreate) as (_ & _ & Hother & _).
    apply Hother. by apply (bool_decide_unpack _).
Defined.

(** * Further properties *)

Import PlannerFacts.

(** ** More on the planner *)

Lemma StronglySorted_lt_le (l : list Z) :
  StronglySorted Z.le l → NoDup l → StronglySorted Z.lt l.
Proof.
  induction 1 as [|x l Hl IH Hx]; intros Hnd; [constructor|].
  apply NoDup_cons in Hnd as [Hx' Hnd]. constructor; [by apply IH|].
  apply Forall_forall. intros y Hy.
  rewrite Forall_forall in Hx. specialize (Hx y Hy).
  assert (x ≠ y) by (intros ->; done). lia.
Qed.

Lemma StronglySorted_lt_NoDup (l : list Z) : StronglySorted Z.lt l → NoDup l.
Proof.
  induction 1 as [|x l Hl IH Hx]; [constructor|].
  apply NoDup_cons. split; [|done]. intros Hin.
  rewrite Forall_forall in Hx. specialize (Hx x Hin). lia.
Qed.

Lemma StronglySorted_lt_le_weaken (l : list Z) :
  StronglySorted Z.lt l → StronglySorted Z.le l.
Proof.
  induction 1 as [|x l Hl IH Hx]; [constructor|].
  constructor; [done|]. eapply Forall_impl; [exact Hx|]. intros; simpl in *; lia.
Qed.

Lemma remove_dups_NoDup_id (l : list Z) : NoDup l → remove_dups l = l.
Proof.
  induction 1 as [|x l Hx Hnd IH]; [done|]. simpl.
  destruct (decide_rel elem_of x l); [done|]. by rewrite IH.
Qed.

Lemma find_negative_None (input : list Z) :
  List.find (λ value, value <? 0) input = None ↔ ∀ x, x ∈ input → 0 ≤ x.
Proof.
  induction input as [|y input IH]; simpl.
  - split; [by intros _ x ?%elem_of_nil|done].
  - destruct (Z.ltb_spec y 0) as [Hneg|Hpos].
    + split; [done|]. intros Hall. specialize (Hall y ltac:(by left)). lia.
    + rewrite IH. split.
      * intros Hall x [->|?]%elem_of_cons; eauto.
      * intros Hall x ?. apply Hall. by right.
Qed.

(** X1. A shards array without a negative entry is accepted, and what
    [expandShardRange] returns for it is the array in strictly ascending
    order with the repeated entries dropped: it has the same members as the
    array, and expanding it again changes nothing. *)
Theorem expandShardRange_array_sorted (input : list Z) :
  (∀ x, x ∈ input → 0 ≤ x) →
  ∃ l, expandShardRange (ShardArray input) = Ok l
    ∧ StronglySorted Z.lt l
    ∧ NoDup l
    ∧ (∀ x, x ∈ l ↔ x ∈ input)
    ∧ expandShardRange (ShardArray l) = Ok l.
Proof.
  intros Hpos. exists (merge_sort Z.le (remove_dups input)).
  assert (Hperm : merge_sort Z.le (remove_dups input) ≡ₚ remove_dups input)
    by apply merge_sort_Permutation.
  assert (Hnd : NoDup (merge_sort Z.le (remove_dups input)))
    by (rewrite Hperm; apply NoDup_remove_dups).
  assert (Hsorted : StronglySorted Z.lt (merge_sort Z.le (remove_dups input))).
  { apply StronglySorted_lt_le; [|done]. apply StronglySorted_merge_sort; apply _. }
  assert (Hmem : ∀ x, x ∈ merge_sort Z.le (remove_dups input) ↔ x ∈ input).
  { intros x. by rewrite Hperm, elem_of_remove_dups. }
  split; [|split; [done|split; [done|split; [done|]]]].
  - unfold expandShardRange.
    by rewrite (proj2 (find_negative_None input) Hpos).
  - unfold expandShardRange.
    rewrite (proj2 (find_negative_None _)) by (intros x Hx; apply Hpos; by apply Hmem).
    f_equal. rewrite remove_dups_NoDup_id by done.
    apply (StronglySorted_unique Z.le).
    + apply StronglySorted_merge_sort; apply _.
    + by apply StronglySorted_lt_le_weaken.
    + apply merge_sort_Permutation.
Qed.

Lemma expandShardRange_array_sorted_witness :
  expandShardRange (ShardArray [3; 1; 3; 0; 1]) = Ok [0; 1; 3].
Proof.
  destruct (expandShardRange_array_sorted [3; 1; 3; 0; 1]) as (l & Hl & _).
  - intros x Hx. repeat (apply elem_of_cons in Hx as [->|Hx]; [lia|]).
    by apply elem_of_nil in Hx.
  - rewrite Hl. vm_compute in Hl. injection Hl as <-. reflexivity.
Defined.




(** *** The ["auto"] mode *)

Lemma pushShardWorkers_seqZ fuel shardId last acc :
  (Z.to_nat (last - shardId + 1) ≤ fuel)%nat →
  pushShardWorkers fuel shardId last acc =
  acc ++ (shardWorker <$> seqZ shardId (last - shardId + 1)).
Proof.
  revert shardId acc. induction fuel as [|fuel IH]; intros shardId acc Hfuel; simpl.
  - rewrite seqZ_nil by lia. by rewrite app_nil_r.
  - destruct (Z.leb_spec shardId last) as [Hle|Hgt].
    + rewrite IH by lia. rewrite (seqZ_cons shardId) by lia.
      rewrite <- app_assoc. simpl. do 4 f_equal; lia.
    + rewrite seqZ_nil by lia. by rewrite app_nil_r.
Qed.

Lemma normalizeBotWorkers_auto first last :
  normalizeBotWorkers (Some WorkersAuto) first last 1 =
  Ok (shardWorker <$> seqZ first (last - first + 1)).
Proof.
  unfold normalizeBotWorkers. cbn [Z.eqb negb]. simpl negb. cbv iota.
  by rewrite pushShardWorkers_seqZ.
Qed.

Lemma concat_singletons (l : list Z) : concat (shards <$> (shardWorker <$> l)) = l.
Proof. induction l as [|x l IH]; [done|]. rewrite !fmap_cons. cbn [concat]. by rewrite IH. Qed.

Lemma NoDup_fmap_pretty (prefix : string) (l : list Z) :
  NoDup l → NoDup ((λ x, prefix +:+ pretty x) <$> l).
Proof.
  intros Hnd. apply NoDup_fmap_2; [|done].
  intros x y Heq. apply (inj (String.app prefix)) in Heq. by apply (inj pretty) in Heq.
Qed.

(** X3. With ["auto"] and a single cluster the planner makes one worker for
    every shard of the range, in ascending order: worker [i] is named
    [shard<first+i>] and has the one shard [first+i]. The names are
    pairwise distinct and every shard of the range belongs to exactly one
    worker. With another number of clusters ["auto"] is rejected. *)
Theorem normalizeBotWorkers_auto_plan (first last : Z) :
  (∃ ws,
     normalizeBotWorkers (Some WorkersAuto) first last 1 = Ok ws
     ∧ length ws = Z.to_nat (last - first + 1)
     ∧ (∀ (i : nat) w, ws !! i = Some w →
          id w = "shard" +:+ pretty (first + Z.of_nat i)
          ∧ shards w = [first + Z.of_nat i])
     ∧ NoDup (id <$> ws)
     ∧ concat (shards <$> ws) = seqZ first (last - first + 1)
     ∧ (∀ s, first ≤ s ≤ last → ∃ w, w ∈ ws ∧ shards w = [s]))
  ∧ (∀ clusterCount, clusterCount ≠ 1 →
       is_Err (normalizeBotWorkers (Some WorkersAuto) first last clusterCount)).
Proof.
  split.
  - exists (shardWorker <$> seqZ first (last - first + 1)).
    split; [apply normalizeBotWorkers_auto|].
    split; [by rewrite length_fmap, length_seqZ|].
    split.
    { intros i w Hw. apply list_lookup_fmap_Some in Hw as (x & -> & Hx).
      apply lookup_seqZ in Hx as [-> _]. done. }
    split.
    { rewrite <- list_fmap_compose.
      apply (NoDup_fmap_pretty "shard"). apply NoDup_seqZ. }
    split; [apply concat_singletons|].
    intros s Hs. exists (shardWorker s). split; [|done].
    apply list_elem_of_fmap_2. apply elem_of_seqZ. lia.
  - intros clusterCount Hcc. unfold normalizeBotWorkers.
    destruct (Z.eqb_spec clusterCount 1); [done|]. by eexists.
Qed.

Lemma normalizeBotWorkers_auto_plan_witness :
  is_Err (normalizeBotWorkers (Some WorkersAuto) 0 3 2).
Proof.
  destruct (normalizeBotWorkers_auto_plan 0 3) as [_ Herr].
  apply Herr. lia.
Defined.

(** *** Worker ids *)

Lemma generateWorkers_ids fuel : ∀ index workerCount baseSize remainder cursor acc,
  id <$> generateWorkers fuel index workerCount baseSize remainder cursor acc =
  (id <$> acc) ++
  ((λ i, "bot-" +:+ pretty i) <$>
     seqZ index (Z.min (Z.of_nat fuel) (workerCount - index))).
Proof.
  induction fuel as [|fuel IH]; intros index workerCount baseSize remainder cursor acc.
  - simpl. rewrite seqZ_nil by lia. by rewrite app_nil_r.
  - cbn [generateWorkers]. destruct (Z.ltb_spec index workerCount) as [Hlt|Hge].
    + rewrite IH. rewrite fmap_app, <- app_assoc. f_equal. simpl.
      rewrite (seqZ_cons index) by lia. simpl. do 3 f_equal; lia.
    + rewrite seqZ_nil by lia. by rewrite app_nil_r.
Qed.

(** X4. The worker ids that the planner makes up are pairwise distinct:
    for a worker count [N] they are [bot-0 .. bot-(N-1)] whatever the shard
    range is, and for ["auto"] they are distinct as well, so every planned
    worker has a place of its own in the child table of the supervisor. *)
Theorem generated_worker_ids_distinct (workers : BotWorkersMode) (first last cc : Z)
    (ws : list RuntimeBotWorkerConfig) :
  (∀ explicit, workers ≠ WorkersExplicit explicit) →
  normalizeBotWorkers (Some workers) first last cc = Ok ws →
  NoDup (id <$> ws)
  ∧ (∀ N, workers = WorkersCount N →
       id <$> ws = (λ i, "bot-" +:+ pretty i) <$> seqZ 0 N).
Proof.
  intros Hmode Hok. destruct workers as [|N|explicit]; [| |by destruct (Hmode explicit)].
  - split; [|done]. unfold normalizeBotWorkers in Hok.
    destruct (negb (cc =? 1)); [done|]. injection Hok as <-.
    rewrite pushShardWorkers_seqZ by (unfold spanFuel; lia). simpl.
    rewrite <- list_fmap_compose. apply (NoDup_fmap_pretty "shard"), NoDup_seqZ.
  - unfold normalizeBotWorkers in Hok.
    destruct (Z.leb_spec N 0) as [|HN]; [done|]. injection Hok as <-.
    rewrite generateWorkers_ids. simpl.
    replace (Z.min (Z.of_nat (Z.to_nat N)) (N - 0)) with N by lia.
    split; [apply (NoDup_fmap_pretty "bot-"), NoDup_seqZ|].
    intros N' [= <-]. done.
Qed.

Lemma generated_worker_ids_distinct_witness :
  ∃ ws, normalizeBotWorkers (Some (WorkersCount 3)) 5 4 1 = Ok ws
        ∧ id <$> ws = ["bot-0"; "bot-1"; "bot-2"].
Proof.
  eexists. split; [reflexivity|].
  destruct (generated_worker_ids_distinct (WorkersCount 3) 5 4 1 _ ltac:(discriminate) eq_refl)
    as [_ Hids].
  rewrite (Hids 3 eq_refl). reflexivity.
Defined.

(** *** Workers written out in the configuration *)

Lemma mapM_result_Forall2 {A B} (f : A → result B) (l : list A) (out : list B) :
  mapM_result f l = Ok out ↔ Forall2 (λ x y, f x = Ok y) l out.
Proof.
  revert out. induction l as [|x l IH]; intros out; simpl.
  - split; [intros [= <-]; constructor|by intros ->%Forall2_nil_inv_l].
  - destruct (f x) as [y|msg] eqn:Hfx; simpl.
    + destruct (mapM_result f l) as [ys|msg] eqn:Hrest; simpl.
      * split.
        -- intros [= <-]. constructor; [done|]. by apply IH.
        -- intros (y' & ys' & Hy & Hys & ->)%Forall2_cons_inv_l.
           apply IH in Hys. congruence.
      * split; [done|].
        intros (y' & ys' & Hy & Hys & ->)%Forall2_cons_inv_l. by apply IH in Hys.
    + split; [done|].
      intros (y' & ys' & Hy & Hys & ->)%Forall2_cons_inv_l. congruence.
Qed.

(** X5. A non-empty worker list of the configuration is taken as it is
    written: the plan has the same workers in the same order under the
    same ids, each with the expansion of its own shards, and it is made
    exactly when every entry expands. Neither the shard range of the
    cluster nor the number of clusters enters: nothing clips the shards to
    the range, nothing looks at the shards or the ids of the other
    workers. *)
Theorem explicit_workers_as_written (workers : list SnowcordBotWorkerConfig)
    (first last cc : Z) :
  workers ≠ [] →
  (∀ ws, normalizeBotWorkers (Some (WorkersExplicit workers)) first last cc = Ok ws ↔
         Forall2 (λ worker planned,
                    id planned = cfg_id worker
                    ∧ expandShardRange (cfg_shards worker) = Ok (shards planned))
           workers ws)
  ∧ (∀ first' last' cc',
       normalizeBotWorkers (Some (WorkersExplicit workers)) first' last' cc' =
       normalizeBotWorkers (Some (WorkersExplicit workers)) first last cc).
Proof.
  intros Hne. destruct workers as [|w0 rest]; [done|]. split; [|done].
  intros ws. unfold normalizeBotWorkers. rewrite mapM_result_Forall2.
  split; intros Hall; (eapply Forall2_impl; [exact Hall|]); intros worker planned;
    cbv beta.
  - destruct (expandShardRange (cfg_shards worker)) as [l|msg]; simpl; [|done].
    by intros [= <-].
  - intros [Hid ->]. simpl. destruct planned. simpl in *. by subst.
Qed.

Lemma explicit_workers_as_written_witness :
  normalizeBotWorkers
    (Some (WorkersExplicit [{| cfg_id := "a"; cfg_shards := ShardArray [9; 7] |};
                            {| cfg_id := "a"; cfg_shards := ShardRange 7 8 |}])) 0 3 1 =
  Ok [{| id := "a"; shards := [7; 9] |}; {| id := "a"; shards := [7; 8] |}].
Proof.
  destruct (explicit_workers_as_written
              [{| cfg_id := "a"; cfg_shards := ShardArray [9; 7] |};
               {| cfg_id := "a"; cfg_shards := ShardRange 7 8 |}] 0 3 1 ltac:(discriminate))
    as [Hok _].
  apply Hok. repeat constructor.
Defined.

(** *** The plan of a cluster *)

Lemma concat_evenSplit first T N :
  0 ≤ T → 0 < N → concat (shards <$> evenSplit first T N) = seqZ first T.
Proof.
  intros HT HN. unfold evenSplit.
  pose proof (Z.mod_pos_bound T N HN) as Hmod.
  pose proof (Z.div_pos T N ltac:(lia) HN) as Hdiv.
  rewrite <- (Z2Nat.id N) at 3 by lia.
  rewrite concat_even by lia. f_equal. unfold evenStart.
  rewrite Z2Nat.id by lia. pose proof (Z.div_mod T N ltac:(lia)). lia.
Qed.

Lemma generated_plan first last cc mode ws :
  generated mode → first ≤ last →
  normalizeBotWorkers mode first last cc = Ok ws →
  concat (shards <$> ws) = seqZ first (last - first + 1).
Proof.
  intros Hgen Hrange Hok.
  destruct mode as [[|N|[|w0 rest]]|]; [| | |done|].
  - unfold normalizeBotWorkers in Hok. destruct (negb (cc =? 1)); [done|].
    injection Hok as <-. rewrite pushShardWorkers_seqZ by (unfold spanFuel; lia).
    apply concat_singletons.
  - destruct (decide (0 < N)) as [HN|HN].
    + rewrite normalizeBotWorkers_even in Hok by done.
      injection Hok as <-. apply concat_evenSplit; lia.
    + unfold normalizeBotWorkers in Hok. by destruct (Z.leb_spec N 0); [|lia].
  - injection Hok as <-. simpl. rewrite pushShards_seqZ by (unfold spanFuel; lia).
    simpl. by rewrite app_nil_r.
  - injection Hok as <-. simpl. rewrite pushShards_seqZ by (unfold spanFuel; lia).
    simpl. by rewrite app_nil_r.
Qed.

Lemma nullish_opt_generated a b :
  generated a → generated b → generated (nullish_opt a b).
Proof. by destruct a. Qed.

(** The plan that [normalizeCluster] returns when the planner makes the
    worker list itself covers the range of the cluster, shard by shard. *)
Lemma generated_cluster_plan (workerOptions : option SnowcordWorkerRuntimeConfig)
    (clusterIdFromEnv : option string) (totalShards : Z) (c : RuntimeClusterConfig) :
  generated (workerOptions ≫= workers_botWorkers) →
  (∀ entries entry, workerOptions ≫= clusters = Some entries → entry ∈ entries →
     generated (sc_botWorkers entry)) →
  normalizeCluster workerOptions clusterIdFromEnv totalShards = Ok c →
  firstShardId c ≤ lastShardId c
  ∧ concat (shards <$> botWorkers c) =
      seqZ (firstShardId c) (lastShardId c - firstShardId c + 1).
Proof.
  intros Hglobal Hentries Hok.
  unfold normalizeCluster in Hok.
  cbv zeta in Hok. set (sel := nullish (nullish_opt _ _) _) in Hok.
  assert (Hsel : generated (sc_botWorkers sel)).
  { unfold sel. destruct (workerOptions ≫= clusters) as [entries|] eqn:Hcl; simpl.
    - assert (Hfound : ∀ o : option SnowcordClusterConfig,
                (∀ e, o = Some e → e ∈ entries) →
                generated (sc_botWorkers (nullish (nullish_opt o (head entries))
                   {| sc_id := nullish (workerOptions ≫= clusterId) "default";
                      sc_firstShardId := Some 0;
                      sc_lastShardId := Some (totalShards - 1);
                      sc_botWorkers := workerOptions ≫= workers_botWorkers |}))).
      { intros [e|] He; simpl.
        - by apply (Hentries entries), He.
        - destruct entries as [|e0 ?]; simpl; [done|].
          apply (Hentries (e0 :: entries)); [done|by left]. }
      apply Hfound. intros e He.
      destruct (nullish_opt clusterIdFromEnv (workerOptions ≫= clusterId)) as [s|];
        [|done].
      destruct (String.eqb s ""); [done|].
      apply find_some in He as [Hin _]. by apply list_elem_of_In.
    - destruct (nullish_opt clusterIdFromEnv (workerOptions ≫= clusterId)) as [s|];
        [destruct (String.eqb s "")|]; simpl; done. }
  destruct (Z.ltb_spec (nullish (sc_lastShardId sel) (Z.max (totalShards - 1) 0))
              (nullish (sc_firstShardId sel) 0)) as [|Hrange]; [done|].
  destruct (normalizeBotWorkers _ _ _ _) as [ws|msg] eqn:Hws; [|done].
  simpl in Hok. injection Hok as <-. simpl. split; [done|].
  eapply generated_plan; [|done|exact Hws].
  by apply nullish_opt_generated.
Qed.

(** X6. Whenever the planner makes the worker list itself (no list, an
    empty list, a worker count or ["auto"], at the cluster or at the top of
    the configuration), the plan that [normalizeCluster] returns is a
    partition of the shard range of the cluster: the range is not empty,
    the shards of the workers laid end to end are exactly
    [firstShardId .. lastShardId] in ascending order, and every shard of
    the range belongs to exactly one worker. *)
Theorem generated_plan_partitions (workerOptions : option SnowcordWorkerRuntimeConfig)
    (clusterIdFromEnv : option string) (totalShards : Z) (c : RuntimeClusterConfig) :
  generated (workerOptions ≫= workers_botWorkers) →
  (∀ entries entry, workerOptions ≫= clusters = Some entries → entry ∈ entries →
     generated (sc_botWorkers entry)) →
  normalizeCluster workerOptions clusterIdFromEnv totalShards = Ok c →
  firstShardId c ≤ lastShardId c
  ∧ concat (shards <$> botWorkers c) =
      seqZ (firstShardId c) (lastShardId c - firstShardId c + 1)
  ∧ (∀ s, firstShardId c ≤ s ≤ lastShardId c →
       ∃ i w, botWorkers c !! i = Some w ∧ s ∈ shards w
         ∧ ∀ j w', botWorkers c !! j = Some w' → s ∈ shards w' → j = i).
Proof.
  intros Hglobal Hentries Hok.
  destruct (generated_cluster_plan _ _ _ _ Hglobal Hentries Hok) as [Hrange Hcat].
  split; [done|]. split; [done|].
  intros s Hs.
  assert (Hin : s ∈ concat (shards <$> botWorkers c))
    by (rewrite Hcat; apply elem_of_seqZ; lia).
  apply elem_of_concat in Hin as (l & Hsl & Hl).
  apply list_elem_of_fmap in Hl as (w & -> & Hw).
  apply list_elem_of_lookup in Hw as (i & Hi).
  exists i, w. split; [done|]. split; [done|].
  intros j w' Hj Hs'.
  eapply (concat_NoDup_index (shards <$> botWorkers c) j i);
    [rewrite Hcat; apply NoDup_seqZ| | |exact Hs'|exact Hsl];
    rewrite list_lookup_fmap; [by rewrite Hj|by rewrite Hi].
Qed.

Lemma generated_plan_partitions_witness :
  ∃ c, normalizeCluster
         (Some {| clusters := Some [{| sc_id := "eu"; sc_firstShardId := Some 4;
                                       sc_lastShardId := Some 8;
                                       sc_botWorkers := Some (WorkersCount 2) |}];
                  clusterId := None; workers_botWorkers := None |}) None 16 = Ok c
       ∧ concat (shards <$> botWorkers c) = [4; 5; 6; 7; 8].
Proof.
  eexists. split; [reflexivity|].
  match goal with |- concat (shards <$> botWorkers ?c) = _ =>
    destruct (generated_plan_partitions
                (Some {| clusters := Some [{| sc_id := "eu"; sc_firstShardId := Some 4;
                                              sc_lastShardId := Some 8;
                                              sc_botWorkers := Some (WorkersCount 2) |}];
                         clusterId := None; workers_botWorkers := None |}) None 16 c)
      as (_ & Hcat & _)
  end.
  - exact I.
  - intros entries entry [= <-] Hin. apply list_elem_of_singleton in Hin as ->. exact I.
  - reflexivity.
  - rewrite Hcat. reflexivity.
Defined.

(** *** Which cluster is planned *)

Lemma find_id_None (entries : list SnowcordClusterConfig) selected :
  (∀ entry, entry ∈ entries → sc_id entry ≠ selected) →
  List.find (λ cluster, String.eqb (sc_id cluster) selected) entries = None.
Proof.
  induction entries as [|e entries IH]; intros Hnone; [done|]. simpl.
  destruct (String.eqb_spec (sc_id e) selected) as [Heq|_].
  - by destruct (Hnone e ltac:(by left)).
  - apply IH. intros entry ?. apply Hnone. by right.
Qed.

Lemma find_id_Some (entries : list SnowcordClusterConfig) selected :
  (∃ entry, entry ∈ entries ∧ sc_id entry = selected) →
  ∃ entry, List.find (λ cluster, String.eqb (sc_id cluster) selected) entries = Some entry
           ∧ entry ∈ entries ∧ sc_id entry = selected.
Proof.
  intros (e & Hin & Hid). induction entries as [|e0 entries IH];
    [by apply elem_of_nil in Hin|]. simpl.
  destruct (String.eqb_spec (sc_id e0) selected) as [Heq|Hne].
  - exists e0. split; [done|]. split; [by left|done].
  - apply elem_of_cons in Hin as [->|Hin]; [done|].
    destruct (IH Hin) as (e1 & ? & ? & ?). exists e1. split; [done|]. split; [by right|done].
Qed.

(** X7. With a non-empty cluster list the planned cluster is always an
    entry of the list, never the default cluster. The id of the
    environment ([SC_CLUSTER_ID]) comes before the [clusterId] of the
    configuration: when it names an entry, that cluster is planned
    whatever [clusterId] says. When the selected id names no entry, or no
    id is selected, the first entry of the list is planned without any
    error. *)
Theorem cluster_selection (first_entry : SnowcordClusterConfig)
    (others : list SnowcordClusterConfig) (configured : option string)
    (workers : option BotWorkersMode) (clusterIdFromEnv : option string) (totalShards : Z)
    (c : RuntimeClusterConfig) :
  let entries := first_entry :: others in
  let planOf entry :=
    cluster_id c = sc_id entry
    ∧ firstShardId c = nullish (sc_firstShardId entry) 0
    ∧ lastShardId c = nullish (sc_lastShardId entry) (Z.max (totalShards - 1) 0) in
  normalizeCluster
    (Some {| clusters := Some entries; clusterId := configured;
             workers_botWorkers := workers |}) clusterIdFromEnv totalShards = Ok c →
  (∃ entry, entry ∈ entries ∧ planOf entry)
  ∧ (∀ fromEnv, clusterIdFromEnv = Some fromEnv → fromEnv ≠ "" →
       (∃ entry, entry ∈ entries ∧ sc_id entry = fromEnv) →
       cluster_id c = fromEnv)
  ∧ ((∀ selected, nullish_opt clusterIdFromEnv configured = Some selected →
        ∀ entry, entry ∈ entries → sc_id entry ≠ selected) →
     planOf first_entry).
Proof.
  intros entries planOf Hok. unfold normalizeCluster in Hok. cbv zeta in Hok.
  cbn [mbind option_bind clusters clusterId workers_botWorkers head] in Hok.
  set (found := match nullish_opt clusterIdFromEnv configured with
                | Some selected => _
                | None => None
                end) in Hok.
  assert (Hplan : planOf (nullish (nullish_opt found (Some first_entry))
                    {| sc_id := nullish configured "default";
                       sc_firstShardId := Some 0;
                       sc_lastShardId := Some (totalShards - 1);
                       sc_botWorkers := workers |})).
  { destruct (_ <? _); [done|].
    destruct (normalizeBotWorkers _ _ _ _); [|done].
    simpl in Hok. injection Hok as <-. done. }
  clear Hok. split; [|split].
  - destruct found as [e|] eqn:Hfound.
    + exists e. split; [|done]. unfold found in Hfound.
      destruct (nullish_opt clusterIdFromEnv configured) as [s|]; [|done].
      destruct (String.eqb s ""); [done|].
      apply find_some in Hfound as [Hin _]. by apply list_elem_of_In.
    + exists first_entry. split; [by left|done].
  - intros fromEnv -> Hne Hex.
    destruct (find_id_Some entries fromEnv Hex) as (e & Hfind & _ & Hid).
    assert (found = Some e) as Hf; [|rewrite Hf in Hplan; by destruct Hplan as [-> _]].
    unfold found. cbn [nullish_opt].
    destruct (String.eqb_spec fromEnv ""); [done|]. exact Hfind.
  - intros Hnone.
    assert (found = None) as Hf; [|by rewrite Hf in Hplan].
    unfold found. destruct (nullish_opt clusterIdFromEnv configured) as [s|]; [|done].
    destruct (String.eqb s ""); [done|]. apply find_id_None. by apply Hnone.
Qed.

Lemma cluster_selection_witness :
  ∃ c, normalizeCluster
         (Some {| clusters := Some [{| sc_id := "eu"; sc_firstShardId := Some 0;
                                       sc_lastShardId := Some 3; sc_botWorkers := None |};
                                    {| sc_id := "us"; sc_firstShardId := Some 4;
                                       sc_lastShardId := Some 7; sc_botWorkers := None |}];
                  clusterId := Some "eu"; workers_botWorkers := None |})
         (Some "us") 8 = Ok c
       ∧ cluster_id c = "us".
Proof.
  eexists. split; [reflexivity|].
  match goal with |- cluster_id ?c = _ =>
    destruct (cluster_selection
                {| sc_id := "eu"; sc_firstShardId := Some 0;
                   sc_lastShardId := Some 3; sc_botWorkers := None |}
                [{| sc_id := "us"; sc_firstShardId := Some 4;
                    sc_lastShardId := Some 7; sc_botWorkers := None |}]
                (Some "eu") None (Some "us") 8 c eq_refl) as (_ & Henv & _)
  end.
  apply (Henv "us" eq_refl); [discriminate|].
  eexists. split; [right; left|reflexivity].
Defined.

(** X8. Without a cluster list the planned cluster is the default one: it
    is named by the [clusterId] of the configuration (["default"] without
    one), the id of the environment is not looked at, and its shards are
    [0 .. totalShards - 1]. For [totalShards < 1] the range is empty and the
    plan is rejected; for [totalShards >= 1] and no worker setting the plan
    is the single worker [bot-0] with all the shards. *)
Theorem default_cluster (workerOptions : option SnowcordWorkerRuntimeConfig)
    (clusterIdFromEnv : option string) (totalShards : Z) :
  workerOptions ≫= clusters = None →
  (totalShards < 1 → is_Err (normalizeCluster workerOptions clusterIdFromEnv totalShards))
  ∧ (∀ c, normalizeCluster workerOptions clusterIdFromEnv totalShards = Ok c →
       cluster_id c = nullish (workerOptions ≫= clusterId) "default"
       ∧ firstShardId c = 0 ∧ lastShardId c = totalShards - 1 ∧ 1 ≤ totalShards)
  ∧ (∀ otherEnv, normalizeCluster workerOptions otherEnv totalShards =
                 normalizeCluster workerOptions clusterIdFromEnv totalShards)
  ∧ (1 ≤ totalShards → workerOptions ≫= workers_botWorkers = None →
     normalizeCluster workerOptions clusterIdFromEnv totalShards =
     Ok {| cluster_id := nullish (workerOptions ≫= clusterId) "default";
           firstShardId := 0; lastShardId := totalShards - 1;
           botWorkers := [{| id := "bot-0"; shards := seqZ 0 totalShards |}] |}).
Proof.
  intros Hnone.
  assert (Heq : ∀ env, normalizeCluster workerOptions env totalShards =
            if totalShards - 1 <? 0
            then Err ("Cluster " +:+ nullish (workerOptions ≫= clusterId) "default" +:+
                      " has invalid shard range " +:+ pretty 0 +:+ "-" +:+
                      pretty (totalShards - 1))
            else result_bind
                   (normalizeBotWorkers (workerOptions ≫= workers_botWorkers)
                      0 (totalShards - 1) 1)
                   (λ workers,
                      Ok {| cluster_id := nullish (workerOptions ≫= clusterId) "default";
                            firstShardId := 0; lastShardId := totalShards - 1;
                            botWorkers := workers |})).
  { intros env. unfold normalizeCluster. cbv zeta. rewrite Hnone. simpl.
    destruct (nullish_opt env (workerOptions ≫= clusterId)) as [s|];
      [destruct (String.eqb s "")|]; simpl;
      by destruct (workerOptions ≫= workers_botWorkers). }
  split; [|split; [|split]].
  - intros Hlt. rewrite Heq. destruct (Z.ltb_spec (totalShards - 1) 0); [|lia]. by eexists.
  - intros c. rewrite Heq. destruct (Z.ltb_spec (totalShards - 1) 0); [done|].
    destruct (normalizeBotWorkers _ _ _ _); [|done]. simpl. intros [= <-]. simpl.
    split; [done|]. split; [done|]. split; [done|lia].
  - intros otherEnv. by rewrite !Heq.
  - intros Hge Hw. rewrite Heq, Hw. destruct (Z.ltb_spec (totalShards - 1) 0); [lia|].
    simpl. rewrite pushShards_seqZ by (unfold spanFuel; lia). simpl.
    by replace (totalShards - 1 - 0 + 1) with totalShards by lia.
Qed.

Lemma default_cluster_witness :
  is_Err (normalizeCluster None (Some "eu") 0)
  ∧ normalizeCluster None (Some "eu") 3 =
    Ok {| cluster_id := "default"; firstShardId := 0; lastShardId := 2;
          botWorkers := [{| id := "bot-0"; shards := [0; 1; 2] |}] |}.
Proof.
  destruct (default_cluster None (Some "eu") 0 eq_refl) as (Herr & _).
  destruct (default_cluster None (Some "eu") 3 eq_refl) as (_ & _ & _ & Hok).
  split; [apply Herr; lia|]. apply Hok; [lia|reflexivity].
Defined.

(** ** More on the ownership map *)

Lemma foldl_insert_lookup (owner : gmap Z string) (l : list Z) (v : string) k :
  foldl (λ owner shardId, <[shardId := v]> owner) owner l !! k =
  if decide (k ∈ l) then Some v else owner !! k.
Proof.
  revert owner. induction l as [|x l IH]; intros owner; cbn [foldl].
  - rewrite decide_False by apply not_elem_of_nil. done.
  - rewrite IH. destruct (decide (k ∈ l)) as [Hin|Hout].
    + rewrite decide_True by by right. done.
    + destruct (decide (x = k)) as [->|Hne].
      * rewrite decide_True by by left. by rewrite lookup_insert_eq.
      * rewrite decide_False by (intros [?|?]%elem_of_cons; congruence).
        by rewrite lookup_insert_ne.
Qed.

Lemma ownership_last_from (workers : list RuntimeBotWorkerConfig) (owner : gmap Z string) k :
  foldl (λ owner worker,
    foldl (λ owner shardId, <[shardId := id worker]> owner) owner (shards worker))
    owner workers !! k =
  match last (filter (λ worker, k ∈ shards worker) workers) with
  | Some worker => Some (id worker)
  | None => owner !! k
  end.
Proof.
  revert owner. induction workers as [|v workers IH]; intros owner; [done|].
  cbn [foldl]. rewrite IH, foldl_insert_lookup, filter_cons.
  destruct (decide (k ∈ shards v)) as [Hin|Hout].
  - rewrite last_cons. by destruct (last (filter _ workers)).
  - done.
Qed.

(** The owner of a shard is the last worker of the plan that lists it. *)
Lemma ownership_last workers k :
  ownership workers !! k =
  id <$> last (filter (λ worker, k ∈ shards worker) workers).
Proof.
  unfold ownership. rewrite ownership_last_from, lookup_empty.
  by destruct (last _).
Qed.


(** ** Restarts on request *)

Lemma find_id_worker_None (workers : list RuntimeBotWorkerConfig) workerId :
  List.find (λ currentWorker, String.eqb (id currentWorker) workerId) workers = None ↔
  workerId ∉ id <$> workers.
Proof.
  induction workers as [|v workers IH]; simpl.
  - split; [intros _; apply not_elem_of_nil|done].
  - rewrite not_elem_of_cons. destruct (String.eqb_spec (id v) workerId) as [Heq|Hne].
    + split; [done|]. by intros [? _].
    + rewrite IH. split; [by intros ?; split|by intros [_ ?]].
Qed.

Lemma run_restart_known cluster worker workerId w :
  List.find (λ currentWorker, String.eqb (id currentWorker) workerId)
    (botWorkers cluster) = Some worker →
  ∀ msg, (run (restartBotWorkerById cluster workerId) w).2 ≠ Failed msg.
Proof.
  intros Hfind msg. unfold restartBotWorkerById. rewrite Hfind. cbn.
  destruct (botChildren (sup w) !! workerId) as [c|]; cbn; [|done].
  destruct (procs (node w) !! c) as [p|] eqn:Hp; cbn; [|done].
  destruct (killed p || bool_decide (is_Some (exitCode p))) eqn:Hdead; cbn; [done|].
  unfold hasExited. cbn. rewrite Hp. cbn.
  apply orb_false_iff in Hdead as [_ Hexit]. rewrite Hexit. done.
Qed.

(** X10. [restartWorker] fails exactly for an id that no worker of the plan
    has: then it rejects with ["Unknown bot worker ..."], before anything
    is sent, forked or changed. For the id of a planned worker it never
    rejects, whatever state the supervisor is in. *)
Theorem restartWorker_fails_iff_unknown (cluster : RuntimeClusterConfig) (w : World)
    (workerId : string) :
  ((∃ msg, (run (restartBotWorkerById cluster workerId) w).2 = Failed msg) ↔
   workerId ∉ id <$> botWorkers cluster)
  ∧ (workerId ∉ id <$> botWorkers cluster →
     run (restartBotWorkerById cluster workerId) w =
     (w, [], Failed ("Unknown bot worker " +:+ workerId))).
Proof.
  assert (Hunknown : workerId ∉ id <$> botWorkers cluster →
            run (restartBotWorkerById cluster workerId) w =
            (w, [], Failed ("Unknown bot worker " +:+ workerId))).
  { intros Hnot. apply find_id_worker_None in Hnot.
    unfold restartBotWorkerById. by rewrite Hnot. }
  split; [|done]. split.
  - intros [msg Hfail] Hin.
    destruct (List.find (λ currentWorker, String.eqb (id currentWorker) workerId)
                (botWorkers cluster)) as [worker|] eqn:Hfind.
    + by apply (run_restart_known cluster worker workerId w Hfind msg).
    + by apply find_id_worker_None in Hfind.
  - intros Hnot. rewrite Hunknown by done. by eexists.
Qed.

Lemma restartWorker_fails_iff_unknown_witness :
  run (restartBotWorkerById cluster3 "bot-9") (world (boot cluster3)) =
  (world (boot cluster3), [], Failed "Unknown bot worker bot-9").
Proof.
  destruct (restartWorker_fails_iff_unknown cluster3 (world (boot cluster3)) "bot-9")
    as [_ Hrun].
  apply Hrun. apply (bool_decide_unpack _). vm_compute. exact I.
Defined.

Lemma ownership_Some_id workers k wid :
  ownership workers !! k = Some wid → wid ∈ id <$> workers.
Proof.
  rewrite ownership_last. destruct (last _) as [v|] eqn:Hlast; [|done].
  intros [= <-]. apply list_elem_of_fmap_2.
  apply last_Some_elem_of in Hlast. by apply list_elem_of_filter in Hlast as [_ ?].
Qed.

(** X11. In every state that the supervisor can reach, and for a plan
    without an empty worker id, [restartShard] fails exactly for a shard
    that no worker of the plan lists. For a listed shard it is the restart
    of the owner of the shard, which is a worker of the plan: it never
    rejects with an unknown worker. *)
Theorem restartShard_fails_iff_unowned (cluster : RuntimeClusterConfig) (cc : Z)
    (evs : list Event) (shardId : Z) :
  (∀ worker, worker ∈ botWorkers cluster → id worker ≠ "") →
  let w := world (exec cluster cc evs (boot cluster)).1 in
  ((∃ msg, (run (restartShard cluster shardId) w).2 = Failed msg) ↔
   ∀ worker, worker ∈ botWorkers cluster → shardId ∉ shards worker)
  ∧ (∀ owner, last (filter (λ worker, shardId ∈ shards worker) (botWorkers cluster))
              = Some owner →
       run (restartShard cluster shardId) w = run (restartBotWorkerById cluster (id owner)) w).
Proof.
  intros Hids w.
  assert (Howner : shardOwner (sup w) = ownership (botWorkers cluster))
    by apply reachable_shardOwner.
  split.
  - rewrite <- ownership_None. unfold restartShard. cbn. rewrite Howner.
    destruct (ownership (botWorkers cluster) !! shardId) as [wid|] eqn:Ho.
    + split; [|done]. intros [msg Hfail]. exfalso.
      pose proof (ownership_Some_id _ _ _ Ho) as Hin.
      apply list_elem_of_fmap in Hin as (v & -> & Hv).
      destruct (String.eqb_spec (id v) "") as [Hempty|_]; [by apply (Hids v Hv)|].
      destruct (List.find (λ currentWorker, String.eqb (id currentWorker) (id v))
                  (botWorkers cluster)) as [worker|] eqn:Hfind.
      * by apply (run_restart_known cluster worker (id v) w Hfind msg).
      * apply find_id_worker_None in Hfind. apply Hfind. by apply list_elem_of_fmap_2.
    + split; [done|]. intros _. by eexists.
  - intros owner Hlast. unfold restartShard. cbn. rewrite Howner, ownership_last, Hlast.
    cbn. apply last_Some_elem_of in Hlast.
    apply list_elem_of_filter in Hlast as [_ Hin].
    by destruct (String.eqb_spec (id owner) "") as [Hempty|_]; [destruct (Hids owner Hin)|].
Qed.

Lemma restartShard_fails_iff_unowned_witness :
  let w := world (exec cluster3 1 [ChildExit 2%nat 1] (boot cluster3)).1 in
  run (restartShard cluster3 3) w = run (restartBotWorkerById cluster3 "bot-1") w.
Proof.
  intros w.
  destruct (restartShard_fails_iff_unowned cluster3 1 [ChildExit 2%nat 1] 3) as [_ Hrun].
  - intros worker Hin.
    apply elem_of_cons in Hin as [->|Hin]; [discriminate|].
    apply elem_of_cons in Hin as [->|Hin]; [discriminate|].
    apply list_elem_of_singleton in Hin as ->. discriminate.
  - apply (Hrun bot1). vm_compute. reflexivity.
Defined.

(** ** Killing a child *)




(** ** The expected-shutdown marks *)

(** X13. [restartWorker] marks the worker as expected to shut down before
    it looks for a child. When the worker has no registered child (it
    crashed and its respawn is still to come), nothing consumes the mark:
    the worker is forked at once and the mark stays. The next exit of that
    new child, whatever its exit code, is therefore taken as an expected
    shutdown: it is not logged, it arms no respawn timer, and the worker is
    left without a child. *)
Theorem restart_of_absent_worker_leaves_mark (cluster : RuntimeClusterConfig) (w : World)
    (worker : RuntimeBotWorkerConfig) (code : Z) :
  List.find (λ currentWorker, String.eqb (id currentWorker) (id worker))
    (botWorkers cluster) = Some worker →
  botChildren (sup w) !! id worker = None →
  let child := nextPid (node w) in
  let r := run (restartBotWorkerById cluster (id worker)) w in
  let r' := run (onExit child code) r.1.1 in
  r.1.2 = [Fork child (BotRole worker)]
  ∧ r.2 = Done tt
  ∧ botChildren (sup r.1.1) !! id worker = Some child
  ∧ id worker ∈ expectedBotWorkerShutdowns (sup r.1.1)
  ∧ r'.1.2 = []
  ∧ (∀ timer action, timers (node r'.1.1) !! timer = Some action →
       timers (node w) !! timer = Some action)
  ∧ botChildren (sup r'.1.1) !! id worker = None.
Proof.
  intros Hfind Hnone child r r'.
  assert (Hr : r = (with_sup (set_botChildren (insert (id worker) child))
                      (with_node (λ n,
                         {| procs := <[child := running worker]> (procs n);
                            nextPid := S child; timers := timers n;
                            nextTimer := nextTimer n; syncsDone := syncsDone n;
                            nextSync := nextSync n |})
                         (with_sup (set_expected (λ e, e ∪ {[id worker]})) w)),
                    [Fork child (BotRole worker)], Done tt)).
  { unfold r, restartBotWorkerById. rewrite Hfind. cbn. rewrite Hnone. done. }
  split; [by rewrite Hr|]. split; [by rewrite Hr|].
  split; [rewrite Hr; cbn; by rewrite lookup_insert_eq|].
  split; [rewrite Hr; cbn; set_solver|].
  unfold r'. rewrite Hr. cbn [fst snd]. unfold onExit. cbn.
  rewrite lookup_insert_eq. cbn.
  rewrite bool_decide_eq_true_2 by set_solver.
  destruct (stopped (sup w)); cbn; rewrite lookup_delete_eq;
    (split; [done|]); (split; [|done]);
    intros timer action Ht; by apply map_lookup_filter_Some in Ht as [? _].
Qed.

Lemma restart_of_absent_worker_leaves_mark_witness :
  (run (onExit 5%nat 1)
     (run (restartBotWorkerById cluster3 "bot-0") crashed).1.1).1.2 = [].
Proof.
  destruct (restart_of_absent_worker_leaves_mark cluster3 crashed bot0 1 eq_refl)
    as (_ & _ & _ & _ & Hexit & _); [reflexivity|].
  exact Hexit.
Defined.

(** ** Correlation of shard info requests *)

(** X14. The supervisor answers a shard info request at most once, to the
    child that asked last. A response whose nonce has no entry (never
    asked for, or answered before) is dropped: nothing is sent and the
    supervisor is unchanged. After a response has been forwarded, a second
    response with the same nonce is dropped in this way. When two children
    ask with the same nonce, the entry of the first is overwritten and it
    never gets a response. *)
Theorem shard_info_answered_once (w : World) (nonce : string) (shardId rtt : Z) :
  (shardInfoRequests (sup w) !! nonce = None →
     run (onGatewayMessage (ShardInfoResponse nonce shardId rtt)) w = (w, [], Done tt))
  ∧ (∀ shardId' rtt',
       let w1 := (run (onGatewayMessage (ShardInfoResponse nonce shardId rtt)) w).1.1 in
       run (onGatewayMessage (ShardInfoResponse nonce shardId' rtt')) w1 = (w1, [], Done tt))
  ∧ (∀ first second guildId guildId',
       let w1 := (run (onBotMessage first (GetShardInfo nonce guildId)) w).1.1 in
       let w2 := (run (onBotMessage second (GetShardInfo nonce guildId')) w1).1.1 in
       (run (onGatewayMessage (ShardInfoResponse nonce shardId rtt)) w2).1.2 =
       [Send second (ShardInfoResponse nonce shardId rtt)]).
Proof.
  assert (Hdrop : ∀ w0 s r, shardInfoRequests (sup w0) !! nonce = None →
            run (onGatewayMessage (ShardInfoResponse nonce s r)) w0 = (w0, [], Done tt)).
  { intros w0 s r Hnone. rewrite run_shardInfoResponse, Hnone.
    destruct w0 as [[] ?]. unfold_setters. cbn in *. by rewrite delete_id. }
  split; [apply Hdrop|]. split.
  - intros shardId' rtt' w1. apply Hdrop. unfold w1.
    rewrite run_shardInfoResponse. cbn. by rewrite lookup_delete_eq.
  - intros first second guildId guildId' w1 w2. unfold w2, w1.
    rewrite run_shardInfoResponse, !run_getShardInfo. cbn.
    by rewrite lookup_insert_eq.
Qed.

Lemma shard_info_answered_once_witness :
  run (onGatewayMessage (ShardInfoResponse "n1" 0 42)) (world (boot cluster3)) =
  (world (boot cluster3), [], Done tt).
Proof.
  destruct (shard_info_answered_once (world (boot cluster3)) "n1" 0 42) as [Hdrop _].
  apply Hdrop. reflexivity.
Defined.

(** ** Events of a shard that no worker has *)

(** X15. In every state that the supervisor can reach, a gateway event of
    a shard that no worker of the plan lists is put at the end of the
    pending queue and nothing is sent. No readiness announcement takes it
    out again: whatever worker announces readiness, the event stays in the
    queue and is sent to no child. *)
Theorem unowned_events_stay_queued (cluster : RuntimeClusterConfig) (cc : Z)
    (evs : list Event) (shardId : Z) (payload : DiscordGatewayPayload) :
  (∀ worker, worker ∈ botWorkers cluster → shardId ∉ shards worker) →
  let w := world (exec cluster cc evs (boot cluster)).1 in
  let event := {| ev_shardId := shardId; ev_payload := payload |} in
  run (onGatewayMessage (GatewayEvent shardId payload)) w =
    (with_sup (set_pendingEvents (λ pending, pending ++ [event])) w, [], Done tt)
  ∧ (∀ child workerId,
       event ∈ pendingEvents (sup w) →
       let r := run (onBotMessage child (BotReady workerId)) w in
       event ∈ pendingEvents (sup r.1.1)
       ∧ ∀ c, Send c (GatewayEvent shardId payload) ∉ r.1.2).
Proof.
  intros Hnone w event. apply ownership_None in Hnone.
  assert (Howner : shardOwner (sup w) !! shardId = None)
    by (unfold w; by rewrite reachable_shardOwner).
  split.
  - apply run_gateway_event_absent. intros wid Hwid. congruence.
  - intros child workerId Hin r. unfold r, onBotMessage.
    destruct (botChildren (sup w) !! workerId) as [c0|] eqn:Hc.
    + rewrite (run_flushPending workerId c0) by done. cbn [fst snd]. split.
      * cbn. apply list_elem_of_filter. split; [|done].
        unfold ownedBy. cbn. congruence.
      * intros c Hsend. apply list_elem_of_fmap in Hsend as (e & Heq & He).
        apply list_elem_of_filter in He as [Hown _]. unfold ownedBy in Hown.
        destruct e as [s p]. unfold eventMessage in Heq. cbn in *.
        injection Heq as _ <- _. congruence.
    + rewrite run_flushPending_absent by done. cbn. split; [done|].
      intros c. apply not_elem_of_nil.
Qed.

Lemma unowned_events_stay_queued_witness :
  let w := world (boot cluster3) in
  run (onGatewayMessage (GatewayEvent 9 messageCreate)) w =
  (with_sup (set_pendingEvents
     (λ pending, pending ++ [{| ev_shardId := 9; ev_payload := messageCreate |}])) w,
   [], Done tt).
Proof.
  intros w.
  destruct (unowned_events_stay_queued cluster3 1 [] 9 messageCreate) as [Hrun _].
  - intros worker Hin.
    apply elem_of_cons in Hin as [->|Hin]; [by apply (bool_decide_unpack _)|].
    apply elem_of_cons in Hin as [->|Hin]; [by apply (bool_decide_unpack _)|].
    apply list_elem_of_singleton in Hin as ->. by apply (bool_decide_unpack _).
  - exact Hrun.
Defined.

(** ** After stop *)



Import Footprint.

(** ** Effects of the functions of the supervisor *)

Section Emissions.
Context (Q : Effect → Prop).

Lemma emits_bind {A B} (m : Async A) (f : A → Async B) :
  emits Q m → (∀ a, emits Q (f a)) → emits Q (m ≫= f).
Proof.
  change (m ≫= f) with (bind m f).
  induction m as [a|msg|k IH|w' k IH|e k IH|c k IH]; intros Hm Hf; simpl in *; eauto.
  destruct Hm. split; eauto.
Qed.

Lemma emits_forEach {A} (l : list A) (body : A → Async unit) :
  (∀ x, emits Q (body x)) → emits Q (forEach l body).
Proof.
  intros Hbody. induction l as [|x l IH]; [done|].
  cbn [forEach]. apply emits_bind; [apply Hbody|]. intros _. apply IH.
Qed.

Lemma emits_mapA {A B} (l : list A) (f : A → Async B) :
  (∀ x, emits Q (f x)) → emits Q (mapA f l).
Proof.
  intros Hf. induction l as [|x l IH]; [done|].
  cbn [mapA]. apply emits_bind; [apply Hf|]. intros y.
  apply emits_bind; [apply IH|]. done.
Qed.

Lemma emits_run {A} (m : Async A) : ∀ w,
  emits Q m →
  Forall Q (run m w).1.2
  ∧ match (run m w).2 with
    | Blocked c k => emits Q k
    | _ => True
    end.
Proof.
  induction m as [a|msg|k IH|w' k IH|e k IH|c k IH]; intros w Hm; simpl in *.
  - split; [constructor|done].
  - split; [constructor|done].
  - by apply IH.
  - by apply IH.
  - destruct Hm as [He Hk]. specialize (IH w Hk).
    destruct (run k w) as [[w1 es] o]. cbn in *. destruct IH. split; [by constructor|done].
  - destruct (settled w c); [by apply IH|]. split; [constructor|done].
Qed.

Lemma emits_resume acc task :
  tasksEmit Q acc.1 → Forall Q acc.2 → emits Q task.2 →
  tasksEmit Q (resume acc task).1 ∧ Forall Q (resume acc task).2.
Proof.
  destruct acc as [sys es]. intros Htasks Hes Htask. unfold resume, tasksEmit in *.
  cbn [fst snd] in *. destruct (settled (world sys) task.1).
  - pose proof (emits_run task.2 (world sys) Htask) as [Hes' Hk].
    destruct (run task.2 (world sys)) as [[w' es'] o]. cbn in *. split.
    + apply Forall_app. split; [done|]. destruct o; cbn; by repeat constructor.
    + by apply Forall_app.
  - cbn. split; [|done]. apply Forall_app. split; [done|]. by repeat constructor.
Qed.

Lemma emits_foldl_resume tasks : ∀ acc,
  tasksEmit Q acc.1 → Forall Q acc.2 → Forall (λ task, emits Q task.2) tasks →
  tasksEmit Q (foldl resume acc tasks).1 ∧ Forall Q (foldl resume acc tasks).2.
Proof.
  induction tasks as [|task tasks IH]; intros acc Hacc Hes Htasks; [done|].
  apply Forall_cons in Htasks as [Htask Htasks]. cbn [foldl].
  destruct (emits_resume acc task Hacc Hes Htask) as [H1 H2]. by apply IH.
Qed.

Lemma emits_step cluster cc ev sys :
  emits Q (handler cluster cc ev) → tasksEmit Q sys →
  tasksEmit Q (step cluster cc ev sys).1 ∧ Forall Q (step cluster cc ev sys).2.
Proof.
  intros Hev Htasks. unfold step.
  pose proof (emits_run (handler cluster cc ev) (world sys) Hev) as [Hes Hk].
  destruct (run (handler cluster cc ev) (world sys)) as [[w' es] o]. cbn in *.
  apply emits_foldl_resume; cbn; [constructor|done|].
  apply Forall_app. split; [done|]. destruct o; cbn; by repeat constructor.
Qed.

Lemma emits_exec cluster cc evs : ∀ sys,
  Forall (λ ev, emits Q (handler cluster cc ev)) evs → tasksEmit Q sys →
  tasksEmit Q (exec cluster cc evs sys).1 ∧ logEmits Q (exec cluster cc evs sys).2.
Proof.
  induction evs as [|ev evs IH]; intros sys Hevs Hsys.
  - split; [done|]. intros e Hin. by apply elem_of_nil in Hin.
  - apply Forall_cons in Hevs as [Hev Hevs]. cbn [exec].
    destruct (emits_step cluster cc ev sys Hev Hsys) as [H1 H2].
    destruct (step cluster cc ev sys) as [sys' es]. destruct (IH sys' Hevs H1) as [H3 H4].
    destruct (exec cluster cc evs sys') as [sys'' log]. cbn in *. split; [done|].
    intros e Hin. apply elem_of_cons in Hin as [[=]|Hin].
    apply elem_of_app in Hin as [Hin|Hin]; [|by apply H4].
    apply list_elem_of_fmap in Hin as (e' & [= <-] & He').
    rewrite Forall_forall in H2. by apply H2.
Qed.

Lemma emits_deliver c w :
  (∀ child code, emits Q (onExit child code)) → logEmits Q (deliver c w).2.
Proof.
  intros Hexit. destruct c as [children|n]; cbn [deliver].
  - assert (Hfold : ∀ acc, logEmits Q acc.2 → logEmits Q (foldl deliverExit acc children).2).
    { induction children as [|child children IH]; intros acc Hacc; [done|].
      cbn [foldl]. apply IH. destruct acc as [w0 log]. unfold deliverExit.
      destruct (hasExited (node w0) child); [done|].
      pose proof (emits_run (onExit child 0) w0 (Hexit child 0)) as [Hes _].
      destruct (run (onExit child 0) w0) as [[w1 es] o]. cbn in *.
      intros e Hin. apply elem_of_app in Hin as [Hin|Hin]; [by apply Hacc|].
      apply elem_of_cons in Hin as [[=]|Hin].
      apply list_elem_of_fmap in Hin as (e' & [= <-] & He').
      rewrite Forall_forall in Hes. by apply Hes. }
    apply Hfold. intros e Hin. by apply elem_of_nil in Hin.
  - destruct (settled w (WaitSync n)); cbn; intros e Hin.
    + by apply elem_of_nil in Hin.
    + by apply list_elem_of_singleton in Hin.
Qed.

Lemma emits_drive {A} (m : Async A) : ∀ w,
  (∀ child code, emits Q (onExit child code)) →
  emits Q m → logEmits Q (drive m w).1.2.
Proof.
  intros w Hexit. revert w.
  induction m as [a|msg|k IH|w' k IH|e k IH|c k IH]; intros w Hm; simpl in *.
  - intros e Hin. by apply elem_of_nil in Hin.
  - intros e Hin. by apply elem_of_nil in Hin.
  - by apply IH.
  - by apply IH.
  - destruct Hm as [He Hk]. specialize (IH w Hk).
    destruct (drive k w) as [[w1 log] r]. cbn in *.
    intros e' Hin. apply elem_of_cons in Hin as [[= ->]|Hin]; [done|by apply IH].
  - pose proof (emits_deliver c w Hexit) as Hd.
    destruct (deliver c w) as [w1 log1]. specialize (IH w1 Hm).
    destruct (drive k w1) as [[w2 log] r]. cbn in *.
    intros e Hin. apply elem_of_app in Hin as [Hin|Hin]; [by apply Hd|by apply IH].
Qed.

Context (Hsend : ∀ child msg, isGatewayEvent msg = false → Q (Send child msg))
        (Hevent : ∀ child shardId payload, Q (Send child (GatewayEvent shardId payload)))
        (Htimer : ∀ timer delay action, Q (SetTimeout timer delay action))
        (Hwarn : ∀ text, Q (Warn text))
        (Hsync : ∀ n, Q (StartCommandSync n))
        (Hkill : ∀ child, Q (Kill child))
        (Hbot : ∀ child worker, Q (Fork child (BotRole worker))).

Lemma emits_sendOpt c msg : isGatewayEvent msg = false → emits Q (sendOpt c msg).
Proof. intros Hmsg. destruct c; cbn; [|done]. split; [by apply Hsend|done]. Qed.

Lemma emits_killChild c : emits Q (killChild c).
Proof.
  destruct c as [c|]; [|done]. cbn. intros w.
  destruct (procs (node w) !! c) as [p|]; [|done].
  destruct (killed p || _); cbn; [done|].
  split; [apply Htimer|]. split; [by apply Hsend|done].
Qed.

Lemma emits_awaitKill c : emits Q (awaitKill c).
Proof. unfold awaitKill. apply emits_bind; [apply emits_killChild|]. done. Qed.

Lemma emits_awaitKillAll cs : emits Q (awaitKillAll cs).
Proof.
  unfold awaitKillAll. apply emits_bind; [|done].
  apply emits_mapA. intros. apply emits_killChild.
Qed.

Lemma emits_spawnBotWorker worker : emits Q (spawnBotWorker worker).
Proof. cbn. intros w. split; [apply Hbot|done]. Qed.

Lemma emits_flushLoop child workerId events : ∀ keep,
  emits Q (flushLoop child workerId events keep).
Proof.
  induction events as [|e events IH]; intros keep; [done|].
  cbn. intros w. destruct (bool_decide _); cbn; [|apply IH].
  split; [apply Hevent|apply IH].
Qed.

Lemma emits_flushPending workerId : emits Q (flushPendingEventsForWorker workerId).
Proof.
  unfold flushPendingEventsForWorker. cbn -[flushLoop]. intros w.
  destruct (botChildren (sup w) !! workerId) as [child|]; [|done].
  apply emits_bind; [apply emits_flushLoop|]. done.
Qed.

Lemma emits_onBotMessage_other child incoming :
  (∀ workerId, incoming ≠ BotReady workerId) → emits Q (onBotMessage child incoming).
Proof.
  intros Hready. destruct incoming; try done; cbn.
  - intros w. by apply emits_sendOpt.
  - intros w. by apply emits_sendOpt.
  - intros w w'. by apply emits_sendOpt.
  - by destruct (Hready workerId).
Qed.

Lemma emits_onBotMessage child incoming : emits Q (onBotMessage child incoming).
Proof.
  destruct incoming as [| | | | | |workerId| | |];
    try (by apply emits_onBotMessage_other).
  apply emits_flushPending.
Qed.

Lemma emits_respawnCallback worker : emits Q (respawnCallback worker).
Proof.
  unfold respawnCallback. cbn. intros w.
  destruct (stopped (sup w) || _); cbn; [done|].
  split; [apply Hwarn|]. intros w'. split; [apply Hbot|done].
Qed.

Lemma emits_onBotExit worker : emits Q (onBotExit worker).
Proof.
  unfold onBotExit. cbn. intros w1 w2 w3 w4.
  destruct (negb (stopped (sup w4))); [|done].
  destruct (negb _); cbn.
  - split; [apply Hwarn|]. destruct (negb (reloading (sup w4))); cbn; [|done].
    intros w5. split; [apply Htimer|done].
  - done.
Qed.

Lemma emits_onGatewayMessage_other incoming :
  isGatewayEvent incoming = false → emits Q (onGatewayMessage incoming).
Proof.
  intros Hmsg.
  destruct incoming as [shardId payload|nonce ? ?| | | | | | | |]; try done; cbn.
  intros w w'. by apply emits_sendOpt.
Qed.

Lemma emits_onGatewayMessage incoming : emits Q (onGatewayMessage incoming).
Proof.
  destruct incoming as [shardId payload|nonce ? ?| | | | | | | |];
    try (by apply emits_onGatewayMessage_other).
  cbn. intros w.
  destruct (shardOwner (sup w) !! shardId) as [wid|]; cbn; [|done].
  destruct (String.eqb wid ""); cbn; [done|].
  destruct (botChildren (sup w) !! wid); cbn; [|done]. split; [apply Hevent|done].
Qed.

Lemma emits_onGatewayExit : emits Q onGatewayExit.
Proof.
  unfold onGatewayExit. cbn. intros w. destruct (stopped (sup w)); cbn; [done|].
  split; [apply Hwarn|done].
Qed.

Lemma emits_onExit child code : emits Q (onExit child code).
Proof.
  unfold onExit. apply emits_bind; [done|]. intros w0.
  destruct (procs (node w0) !! child) as [p|]; [|done].
  destruct (bool_decide _); [done|].
  apply emits_bind; [done|]. intros _.
  apply emits_bind; [|done].
  destruct (role p); [done|apply emits_onGatewayExit|apply emits_onBotExit].
Qed.

Lemma emits_onTimer timer : emits Q (onTimer timer).
Proof.
  unfold onTimer. apply emits_bind; [done|]. intros w0.
  destruct (timers (node w0) !! timer) as [action|]; [|done].
  apply emits_bind; [done|]. intros _.
  destruct action; [|apply emits_respawnCallback].
  cbn. intros w. split; [apply Hkill|done].
Qed.

Lemma emits_restart cluster workerId : emits Q (restartBotWorkerById cluster workerId).
Proof.
  unfold restartBotWorkerById.
  destruct (List.find _ _) as [worker|]; [|done].
  apply emits_bind; [done|]. intros s.
  apply emits_bind; [done|]. intros _.
  apply emits_bind; [|intros _; apply emits_spawnBotWorker].
  destruct (botChildren s !! workerId) as [c|]; [|done].
  apply emits_bind; [cbn; split; [by apply Hsend|done]|]. intros _.
  apply emits_bind; [apply emits_awaitKill|]. done.
Qed.

Lemma emits_sync : emits Q syncCommandsInBackground.
Proof. cbn. intros w. split; [apply Hsync|done]. Qed.

Lemma emits_reload cluster : emits Q (reload cluster).
Proof.
  unfold reload. apply emits_bind; [done|]. intros s.
  destruct (stopped s); [done|].
  apply emits_bind; [done|]. intros _.
  apply emits_bind; [apply emits_sync|]. intros n.
  apply emits_bind; [done|]. intros s'.
  apply emits_bind; [by apply emits_forEach|]. intros _.
  apply emits_bind; [apply emits_forEach; cbn; split; [by apply Hsend|done]|]. intros _.
  apply emits_bind; [apply emits_awaitKillAll|]. intros _.
  apply emits_bind; [done|]. intros _.
  apply emits_bind; [apply emits_forEach, emits_spawnBotWorker|]. done.
Qed.

Lemma emits_reloadLazy cluster : emits Q (reloadLazy cluster).
Proof.
  unfold reloadLazy. apply emits_bind; [done|]. intros s.
  destruct (stopped s); [done|].
  apply emits_bind; [done|]. intros _.
  apply emits_bind; [apply emits_sync|]. intros n.
  apply emits_bind; [done|]. intros _.
  apply emits_bind; [apply emits_forEach; intros; apply emits_restart|]. done.
Qed.

Lemma emits_stop : emits Q stop.
Proof.
  unfold stop. apply emits_bind; [done|]. intros s.
  destruct (stopped s); [done|].
  apply emits_bind; [done|]. intros _.
  apply emits_bind; [done|]. intros s1.
  apply emits_bind; [apply emits_awaitKillAll|]. intros _.
  apply emits_bind; [done|]. intros _.
  apply emits_bind; [done|]. intros s2.
  apply emits_bind; [apply emits_awaitKill|]. intros _.
  apply emits_bind; [done|]. intros s3.
  apply emits_awaitKill.
Qed.

Lemma emits_restartShard cluster shardId : emits Q (restartShard cluster shardId).
Proof.
  unfold restartShard. apply emits_bind; [done|]. intros s.
  destruct (shardOwner s !! shardId) as [workerId|]; [|done].
  destruct (String.eqb workerId ""); [done|]. apply emits_restart.
Qed.

Lemma emits_call cluster cc c : c ≠ CallFullReload → emits Q (call cluster cc c).
Proof.
  intros Hc. destruct c; cbn [call]; try done.
  - apply emits_reload.
  - apply emits_reloadLazy.
  - apply emits_restart.
  - apply emits_restartShard.
  - apply emits_stop.
Qed.


Lemma emits_handler cluster cc ev :
  ev ≠ Api CallFullReload → emits Q (handler cluster cc ev).
Proof.
  intros Hev. destruct ev as [child incoming|child code|timer|n|c]; cbn [handler].
  - unfold onMessage. apply emits_bind; [done|]. intros w0.
    destruct (procs (node w0) !! child) as [p|]; [|done].
    destruct (role p); [done|apply emits_onGatewayMessage|apply emits_onBotMessage].
  - apply emits_onExit.
  - apply emits_onTimer.
  - done.
  - apply emits_call. congruence.
Qed.

End Emissions.

(** ** What the functions of the supervisor leave as it is

    A property [P] of the world that survives the assignments named in the
    hypotheses below survives the functions that make no other ones. Each
    lemma depends on the hypotheses for the assignments its function
    makes. *)

Section Frame.
Context (P : World → Prop).
Context (Hfork : ∀ worker w, keeps P (fork (BotRole worker)) w)
        (HsetTimeout : ∀ delay action w, keeps P (setTimeout delay action) w)
        (HstartSync : ∀ w, keeps P syncCommandsInBackground w)
        (Hexited : ∀ child code w, P w → P (with_node (markExited child code) w))
        (Hkilled : ∀ child w, P w → P (with_node (markKilled child) w))
        (HclearKill : ∀ child w, P w → P (with_node (clearKillTimers child) w))
        (HdropTimer : ∀ timer w, P w → P (with_node (dropTimer timer) w))
        (Hsynced : ∀ n w, P w → P (with_node (markSynced n) w))
        (Hdelete : ∀ k w, P w → P (with_sup (set_botChildren (delete k)) w))
        (Hinsert : ∀ k c w, P w → P (with_sup (set_botChildren (insert k c)) w))
        (Hclear : ∀ w, P w → P (with_sup (set_botChildren (λ _, ∅)) w))
        (Hexpected : ∀ f w, P w → P (with_sup (set_expected f) w))
        (Hrequests : ∀ f w, P w → P (with_sup (set_shardInfoRequests f) w))
        (Hpending : ∀ f w, P w → P (with_sup (set_pendingEvents f) w))
        (Hstopped : ∀ w, P w → P (with_sup (set_stopped true) w))
        (Hreloading : ∀ b w, P w → P (with_sup (set_reloading b) w)).

Lemma frame_modifyNode f w : (P w → P (with_node f w)) → keeps P (modify (with_node f)) w.
Proof. intros. cbn. done. Qed.

Lemma frame_killChild c w : keeps P (killChild c) w.
Proof.
  destruct c as [c|]; [|done]. unfold killChild.
  apply keeps_bind; [done|]. intros w0 w1.
  destruct (procs (node w0) !! c) as [p|]; [|done].
  destruct (killed p || _); [done|].
  apply keeps_bind; [apply HsetTimeout|]. done.
Qed.

Lemma frame_awaitKill c w : keeps P (awaitKill c) w.
Proof. unfold awaitKill. apply keeps_bind; [apply frame_killChild|]. done. Qed.

Lemma frame_awaitKillAll cs w : keeps P (awaitKillAll cs) w.
Proof.
  unfold awaitKillAll. apply keeps_bind; [|done].
  apply keeps_mapA. intros. apply frame_killChild.
Qed.

Lemma frame_spawnBotWorker worker w : keeps P (spawnBotWorker worker) w.
Proof.
  unfold spawnBotWorker. apply keeps_bind; [apply Hfork|]. intros child w'.
  apply keeps_modifySup, Hinsert.
Qed.

Lemma frame_flushPending workerId w : keeps P (flushPendingEventsForWorker workerId) w.
Proof.
  unfold flushPendingEventsForWorker. apply keeps_bind; [done|]. intros s w0.
  destruct (botChildren s !! workerId) as [child|]; [|done].
  apply keeps_bind; [by apply keeps_flushLoop|]. intros keep w1.
  apply keeps_bind; [apply keeps_modifySup, Hpending|]. intros _ w2.
  apply keeps_modifySup, Hpending.
Qed.

Lemma frame_onBotMessage_other child incoming w :
  (∀ workerId, incoming ≠ BotReady workerId) → keeps P (onBotMessage child incoming) w.
Proof.
  intros Hready. destruct incoming; try done; cbn.
  - apply keeps_sendOpt.
  - apply keeps_sendOpt.
  - split; [apply Hrequests|]. apply keeps_sendOpt.
  - by destruct (Hready workerId).
Qed.

Lemma frame_onBotMessage child incoming w : keeps P (onBotMessage child incoming) w.
Proof.
  destruct incoming as [| | | | | |workerId| | |];
    try (by apply frame_onBotMessage_other).
  apply frame_flushPending.
Qed.

Lemma frame_respawnCallback worker w : keeps P (respawnCallback worker) w.
Proof.
  unfold respawnCallback. apply keeps_bind; [done|]. intros s w0.
  destruct (stopped s || _); [done|].
  apply keeps_bind; [done|]. intros _ w1. apply frame_spawnBotWorker.
Qed.

Lemma frame_onBotExit worker w : keeps P (onBotExit worker) w.
Proof.
  unfold onBotExit. apply keeps_bind; [apply keeps_modifySup, Hdelete|]. intros _ w1.
  apply keeps_bind; [done|]. intros s w2.
  apply keeps_bind; [apply keeps_modifySup, Hexpected|]. intros _ w3.
  apply keeps_bind; [done|]. intros s' w4.
  destruct (negb (stopped s')); [|done].
  apply keeps_bind; [by destruct (negb _)|]. intros _ w5.
  destruct (negb _ && _); [|done].
  apply keeps_bind; [apply HsetTimeout|]. done.
Qed.

Lemma frame_onGatewayMessage_other incoming w :
  isGatewayEvent incoming = false → keeps P (onGatewayMessage incoming) w.
Proof.
  intros Hmsg.
  destruct incoming as [shardId payload|nonce ? ?| | | | | | | |]; try done; cbn.
  split; [apply Hrequests|]. apply keeps_sendOpt.
Qed.

Lemma frame_onGatewayMessage incoming w : keeps P (onGatewayMessage incoming) w.
Proof.
  destruct incoming as [shardId payload|nonce ? ?| | | | | | | |];
    try (by apply frame_onGatewayMessage_other).
  cbn. destruct (shardOwner (sup w) !! shardId) as [wid|]; cbn;
    [|split; [apply Hpending|done]].
  destruct (String.eqb wid ""); cbn; [split; [apply Hpending|done]|].
  destruct (botChildren (sup w) !! wid); cbn; [done|split; [apply Hpending|done]].
Qed.

Lemma frame_onExit child code w : keeps P (onExit child code) w.
Proof.
  unfold onExit. apply keeps_bind; [done|]. intros w0 w1.
  destruct (procs (node w0) !! child) as [p|]; [|done].
  destruct (bool_decide _); [done|].
  apply keeps_bind; [apply frame_modifyNode, Hexited|]. intros _ w2.
  apply keeps_bind; [|intros; apply frame_modifyNode, HclearKill].
  destruct (role p); [done|apply keeps_onGatewayExit|apply frame_onBotExit].
Qed.

Lemma frame_onTimer timer w : keeps P (onTimer timer) w.
Proof.
  unfold onTimer. apply keeps_bind; [done|]. intros w0 w1.
  destruct (timers (node w0) !! timer) as [action|]; [|done].
  apply keeps_bind; [apply frame_modifyNode, HdropTimer|]. intros _ w2.
  destruct action; [|apply frame_respawnCallback].
  apply keeps_bind; [apply frame_modifyNode, Hkilled|]. done.
Qed.

Lemma frame_deliver c w : P w → P (deliver c w).1.
Proof.
  destruct c as [children|n]; cbn [deliver].
  - assert (Hfold : ∀ acc, P acc.1 → P (foldl deliverExit acc children).1).
    { induction children as [|child children IH]; intros acc Hacc; [done|].
      cbn [foldl]. apply IH. destruct acc as [w0 log]. unfold deliverExit.
      destruct (hasExited (node w0) child); [done|].
      pose proof (keeps_run P (onExit child 0) w0 (frame_onExit child 0 w0)) as [Hw _].
      destruct (run (onExit child 0) w0) as [[w1 es] o]. cbn in *. by apply Hw. }
    intros Hw. by apply Hfold.
  - destruct (settled w (WaitSync n)); cbn; [done|]. apply Hsynced.
Qed.

(** A function that keeps [P] and is run alone to its end leaves [P]. *)
Lemma frame_drive {A} (m : Async A) : ∀ w, keeps P m w → P w → P (drive m w).1.1.
Proof.
  induction m as [a|msg|k IH|w' k IH|e k IH|c k IH]; intros w Hm Hw; simpl in *.
  - done.
  - done.
  - by apply IH.
  - destruct Hm as [Hput Hk]. apply IH; [done|]. by apply Hput.
  - specialize (IH w Hm Hw). by destruct (drive k w) as [[w1 log] r].
  - pose proof (frame_deliver c w Hw) as Hd.
    destruct (deliver c w) as [w1 log1]. specialize (IH w1 (Hm w1) Hd).
    by destruct (drive k w1) as [[w2 log] r].
Qed.

Section WithCluster.
Context (cluster : RuntimeClusterConfig) (cc : Z).

Lemma frame_restart workerId w : keeps P (restartBotWorkerById cluster workerId) w.
Proof.
  unfold restartBotWorkerById.
  destruct (List.find _ _) as [worker|]; [|done].
  apply keeps_bind; [done|]. intros s w1.
  apply keeps_bind; [apply keeps_modifySup, Hexpected|]. intros _ w2.
  apply keeps_bind; [|intros _ w3; apply frame_spawnBotWorker].
  destruct (botChildren s !! workerId) as [c|]; [|done].
  apply keeps_bind; [done|]. intros _ w3.
  apply keeps_bind; [apply frame_awaitKill|]. intros _ w4.
  apply keeps_modifySup, Hdelete.
Qed.

Lemma frame_reload w : keeps P (reload cluster) w.
Proof.
  unfold reload. apply keeps_bind; [done|]. intros s w1.
  destruct (stopped s); [done|].
  apply keeps_bind; [apply keeps_modifySup, Hreloading|]. intros _ w2.
  apply keeps_bind; [apply HstartSync|]. intros n w3.
  apply keeps_bind; [done|]. intros s' w4.
  apply keeps_bind; [apply keeps_forEach; intros; apply keeps_modifySup, Hexpected|].
  intros _ w5.
  apply keeps_bind; [by apply keeps_forEach|]. intros _ w6.
  apply keeps_bind; [apply frame_awaitKillAll|]. intros _ w7.
  apply keeps_bind; [apply keeps_modifySup, Hclear|]. intros _ w8.
  apply keeps_bind; [apply keeps_forEach, frame_spawnBotWorker|]. intros _ w9.
  apply keeps_bind; [done|]. intros _ w10. apply keeps_modifySup, Hreloading.
Qed.

Lemma frame_reloadLazy w : keeps P (reloadLazy cluster) w.
Proof.
  unfold reloadLazy. apply keeps_bind; [done|]. intros s w1.
  destruct (stopped s); [done|].
  apply keeps_bind; [apply keeps_modifySup, Hreloading|]. intros _ w2.
  apply keeps_bind; [apply HstartSync|]. intros n w3.
  apply keeps_bind; [done|]. intros _ w4.
  apply keeps_bind; [apply keeps_forEach; intros; apply frame_restart|]. intros _ w5.
  apply keeps_modifySup, Hreloading.
Qed.

Lemma frame_stop w : keeps P stop w.
Proof.
  unfold stop. apply keeps_bind; [done|]. intros s w1.
  destruct (stopped s); [done|].
  apply keeps_bind; [apply keeps_modifySup, Hstopped|]. intros _ w2.
  apply keeps_bind; [done|]. intros s1 w3.
  apply keeps_bind; [apply frame_awaitKillAll|]. intros _ w4.
  apply keeps_bind; [apply keeps_modifySup, Hclear|]. intros _ w5.
  apply keeps_bind; [done|]. intros s2 w6.
  apply keeps_bind; [apply frame_awaitKill|]. intros _ w7.
  apply keeps_bind; [done|]. intros s3 w8.
  apply frame_awaitKill.
Qed.

Lemma frame_restartShard shardId w : keeps P (restartShard cluster shardId) w.
Proof.
  unfold restartShard. apply keeps_bind; [done|]. intros s w1.
  destruct (shardOwner s !! shardId) as [workerId|]; [|done].
  destruct (String.eqb workerId ""); [done|]. apply frame_restart.
Qed.

Lemma frame_call c w : c ≠ CallFullReload → keeps P (call cluster cc c) w.
Proof.
  intros Hc. destruct c; cbn [call]; try done.
  - apply frame_reload.
  - apply frame_reloadLazy.
  - apply frame_restart.
  - apply frame_restartShard.
  - apply frame_stop.
Qed.


Lemma frame_handler ev w :
  ev ≠ Api CallFullReload → keeps P (handler cluster cc ev) w.
Proof.
  intros Hev. destruct ev as [child incoming|child code|timer|n|c]; cbn [handler].
  - unfold onMessage. apply keeps_bind; [done|]. intros w0 w1.
    destruct (procs (node w0) !! child) as [p|]; [|done].
    destruct (role p); [done|apply frame_onGatewayMessage|apply frame_onBotMessage].
  - apply frame_onExit.
  - apply frame_onTimer.
  - apply frame_modifyNode, Hsynced.
  - apply frame_call. congruence.
Qed.

Lemma frame_step ev sys :
  ev ≠ Api CallFullReload → tasksKeep P sys →
  tasksKeep P (step cluster cc ev sys).1
  ∧ (P (world sys) → P (world (step cluster cc ev sys).1)).
Proof.
  intros Hev Htasks. unfold step.
  pose proof (keeps_run P (handler cluster cc ev) (world sys) (frame_handler ev _ Hev))
    as [Hw' Hk].
  destruct (run (handler cluster cc ev) (world sys)) as [[w' es] o]. cbn in *.
  destruct (foldl_resume_keeps P (tasks sys ++ suspended o)
              ({| world := w'; tasks := [] |}, es)) as [H1 H2].
  - constructor.
  - apply Forall_app. split; [done|]. destruct o; cbn; by repeat constructor.
  - split; [done|]. intros. by apply H2, Hw'.
Qed.

Lemma frame_exec evs : ∀ sys,
  Api CallFullReload ∉ evs → tasksKeep P sys →
  tasksKeep P (exec cluster cc evs sys).1
  ∧ (P (world sys) → P (world (exec cluster cc evs sys).1)).
Proof.
  induction evs as [|ev evs IH]; intros sys Hevs Hsys; [done|].
  apply not_elem_of_cons in Hevs as [Hev Hevs].
  cbn [exec]. destruct (frame_step ev sys ltac:(congruence) Hsys) as [H1 H2].
  destruct (step cluster cc ev sys) as [sys' es]. destruct (IH sys' Hevs H1) as [H3 H4].
  destruct (exec cluster cc evs sys') as [sys'' log]. cbn in *. split; [done|].
  intros. by apply H4, H2.
Qed.

End WithCluster.
End Frame.

(** ** The children that a run without a full reload leaves alone *)

Lemma run_spawn_all_children workers : ∀ w,
  let w' := (run (forEach workers spawnBotWorker) w).1.1 in
  restChild (sup w') = restChild (sup w)
  ∧ pendingEvents (sup w') = pendingEvents (sup w)
  ∧ nextPid (node w') = (nextPid (node w) + length workers)%nat
  ∧ ((∀ c p, procs (node w) !! c = Some p → role p ≠ GatewayRole) →
     ∀ c p, procs (node w') !! c = Some p → role p ≠ GatewayRole)
  ∧ (run (forEach workers spawnBotWorker) w).2 = Done tt.
Proof.
  induction workers as [|v workers IH]; intros w; [cbn; repeat split; try done; lia|].
  cbn [forEach]. rewrite run_mbind. cbn.
  match goal with |- context [run (forEach workers spawnBotWorker) ?w'] =>
    specialize (IH w'); destruct (run (forEach workers spawnBotWorker) w') as [[w2 es2] o2]
  end.
  cbn in *. destruct IH as (? & ? & ? & Hroles & ?).
  split; [done|]. split; [done|]. split; [lia|]. split; [|done].
  intros Hw. apply Hroles. intros c p Hc.
  apply lookup_insert_Some in Hc as [[_ <-]|[_ Hc]]; [done|by apply (Hw c)].
Qed.

(** After the start the REST child is process 0 and the gateway child is
    the process after the bot children, the only one forked from the
    gateway script; nothing is suspended and the queue is empty. *)
Lemma boot_children cluster :
  restChild (sup (world (boot cluster))) = Some 0%nat
  ∧ gatewayChild (sup (world (boot cluster))) = Some (S (length (botWorkers cluster)))
  ∧ pendingEvents (sup (world (boot cluster))) = []
  ∧ gatewayIs (S (length (botWorkers cluster))) (world (boot cluster)).
Proof.
  unfold boot, startWorkerRuntime.
  set (fill := forEach (botWorkers cluster) _).
  cbn -[fill forEach]. rewrite run_mbind. unfold fill. rewrite run_fill_owner.
  cbn -[forEach]. rewrite run_mbind.
  match goal with |- context [run (forEach (botWorkers cluster) spawnBotWorker) ?w'] =>
    pose proof (run_spawn_all_children (botWorkers cluster) w') as Hsp;
    destruct (run (forEach (botWorkers cluster) spawnBotWorker) w') as [[w2 es2] o2]
  end.
  cbn in Hsp. destruct Hsp as (Hrest & Hpending & Hpid & Hroles & ->). cbn.
  rewrite Hrest, Hpid. split; [done|]. split; [done|]. split; [done|].
  split; cbn; [lia|]. intros c. split.
  - intros (p & Hp & Hrole).
    apply lookup_insert_Some in Hp as [[<- _]|[_ Hp]]; [done|].
    destruct (Hroles ltac:(by intros c' p' [[_ <-]|[_ ?]]%lookup_insert_Some) c p Hp Hrole).
  - intros ->. eexists. by rewrite lookup_insert_eq.
Qed.

(** X17. As long as no full reload is called, the supervisor leaves the
    gateway and the REST worker alone: in every run of events, restarts,
    reloads, lazy reloads and stops, the registered gateway child and REST
    child are the ones forked at the start, and the only processes that
    are ever forked are bot workers. A reload therefore never makes the
    gateway reconnect. *)
Theorem reloads_spare_gateway_and_rest (cluster : RuntimeClusterConfig) (cc : Z)
    (evs : list Event) :
  Api CallFullReload ∉ evs →
  let outcome := exec cluster cc evs (boot cluster) in
  gatewayChild (sup (world outcome.1)) = Some (S (length (botWorkers cluster)))
  ∧ restChild (sup (world outcome.1)) = Some 0%nat
  ∧ ∀ e, Out e ∈ outcome.2 → forksOnlyBots e.
Proof.
  intros Hevs outcome.
  destruct (boot_children cluster) as (Hrest & Hgw & _).
  set (P := λ w : World, gatewayChild (sup w) = Some (S (length (botWorkers cluster)))
                         ∧ restChild (sup w) = Some 0%nat).
  destruct (frame_exec P) with (cluster := cluster) (cc := cc) (evs := evs)
    (sys := boot cluster) as [_ Hkeep]; try done.
  { unfold tasksKeep. rewrite boot_tasks. constructor. }
  destruct (Hkeep (conj Hgw Hrest)) as [Hgw' Hrest'].
  split; [done|]. split; [done|].
  destruct (emits_exec forksOnlyBots cluster cc evs (boot cluster)) as [_ Hlog].
  - apply Forall_forall. intros ev Hev. apply emits_handler; try done.
    intros ->. done.
  - unfold tasksEmit. rewrite boot_tasks. constructor.
  - exact Hlog.
Qed.

Lemma reloads_spare_gateway_and_rest_witness :
  gatewayChild (sup (world (exec cluster3 1
    [Api CallReload; ChildExit 1%nat 0; ChildExit 2%nat 0; ChildExit 3%nat 0;
     Api CallReloadLazy] (boot cluster3)).1)) = Some 4%nat.
Proof.
  destruct (reloads_spare_gateway_and_rest cluster3 1
              [Api CallReload; ChildExit 1%nat 0; ChildExit 2%nat 0; ChildExit 3%nat 0;
               Api CallReloadLazy]) as [Hgw _].
  - intros Hin. repeat (apply elem_of_cons in Hin as [[=]|Hin]).
    by apply elem_of_nil in Hin.
  - exact Hgw.
Defined.

(** ** Runs to completion *)

Lemma returns_bind {A B} (m : Async A) (f : A → Async B) :
  returns m → (∀ a, returns (f a)) → returns (m ≫= f).
Proof.
  change (m ≫= f) with (bind m f).
  induction m as [a|msg|k IH|w' k IH|e k IH|c k IH]; intros Hm Hf; simpl in *; eauto.
Qed.

Lemma returns_mapA {A B} (l : list A) (f : A → Async B) :
  (∀ x, returns (f x)) → returns (mapA f l).
Proof.
  intros Hf. induction l as [|x l IH]; [done|].
  cbn [mapA]. apply returns_bind; [apply Hf|]. intros y.
  apply returns_bind; [apply IH|]. done.
Qed.

Lemma returns_forEach {A} (l : list A) (body : A → Async unit) :
  (∀ x, returns (body x)) → returns (forEach l body).
Proof.
  intros Hbody. induction l as [|x l IH]; [done|].
  cbn [forEach]. apply returns_bind; [apply Hbody|]. intros _. apply IH.
Qed.

Lemma returns_killChild c : returns (killChild c).
Proof.
  destruct c as [c|]; [|done]. cbn. intros w.
  destruct (procs (node w) !! c) as [p|]; [|done].
  by destruct (killed p || _).
Qed.


Lemma returns_awaitKillAll cs : returns (awaitKillAll cs).
Proof.
  unfold awaitKillAll. apply returns_bind; [|done].
  apply returns_mapA. intros. apply returns_killChild.
Qed.

Lemma drive_returns {A} (m : Async A) : ∀ w, returns m → ∃ a, (drive m w).2 = Ok a.
Proof.
  induction m as [a|msg|k IH|w' k IH|e k IH|c k IH]; intros w Hm; simpl in *.
  - by exists a.
  - done.
  - by apply IH.
  - by apply IH.
  - destruct (IH w Hm) as [a Ha]. destruct (drive k w) as [[w1 log] r]. by exists a.
  - destruct (deliver c w) as [w1 log1]. destruct (IH w1 Hm) as [a Ha].
    destruct (drive k w1) as [[w2 log] r]. by exists a.
Qed.

Lemma drive_returns_unit (m : Async unit) w : returns m → (drive m w).2 = Ok tt.
Proof. intros Hm. destruct (drive_returns m w Hm) as [[] ?]. done. Qed.


(** The exit of a child leaves the other processes as they are. *)
Lemma run_onExit_procs child code w g :
  g ≠ child → procs (node (run (onExit child code) w).1.1) !! g = procs (node w) !! g.
Proof.
  intros Hne. unfold onExit. cbn.
  destruct (procs (node w) !! child) as [p|] eqn:Hp; [|done].
  destruct (bool_decide _); [done|]. cbn.
  destruct (role p) as [| |worker]; cbn.
  - by rewrite lookup_alter_ne.
  - destruct (stopped (sup w)); cbn; by rewrite lookup_alter_ne.
  - destruct (stopped (sup w)); cbn; [by rewrite lookup_alter_ne|].
    destruct (bool_decide _); cbn; [by rewrite lookup_alter_ne|].
    destruct (reloading (sup w)); cbn; by rewrite lookup_alter_ne.
Qed.

Lemma deliver_exits_procs children : ∀ w g,
  g ∉ children →
  procs (node (deliver (WaitExit children) w).1) !! g = procs (node w) !! g.
Proof.
  intros w g Hg. cbn [deliver].
  assert (Hfold : ∀ acc, procs (node (foldl deliverExit acc children).1) !! g
                         = procs (node acc.1) !! g).
  { induction children as [|child children IH]; intros acc; [done|].
    apply not_elem_of_cons in Hg as [Hne Hg]. cbn [foldl]. rewrite (IH Hg).
    destruct acc as [w0 log]. unfold deliverExit.
    destruct (hasExited (node w0) child); [done|].
    pose proof (run_onExit_procs child 0 w0 g Hne) as Hrun.
    by destruct (run (onExit child 0) w0) as [[w1 es] o]. }
  apply Hfold.
Qed.

(** [children.map((child) => killChild(child))]: every living child is
    sent the shutdown, and nothing but timers is touched. *)
Lemma drive_killAll cs : ∀ w,
  ∃ w' log ps,
    drive (mapA (λ child, killChild (Some child)) cs) w = (w', log, Ok ps)
    ∧ procs (node w') = procs (node w)
    ∧ sup w' = sup w
    ∧ (∀ c, c ∈ omap (λ p, p) ps → c ∈ cs)
    ∧ (∀ c, c ∈ cs → alive w c → Out (Send c Shutdown) ∈ log).
Proof.
  induction cs as [|c0 cs IH]; intros w.
  - exists w, [], []. cbn. repeat split; try done;
      by intros c ?%elem_of_nil.
  - cbn [mapA]. rewrite drive_mbind.
    assert (Hone : ∃ w1 log1 p1,
              drive (killChild (Some c0)) w = (w1, log1, Ok p1)
              ∧ procs (node w1) = procs (node w) ∧ sup w1 = sup w
              ∧ (∀ c, p1 = Some c → c = c0)
              ∧ (alive w c0 → Out (Send c0 Shutdown) ∈ log1)).
    { cbn. destruct (procs (node w) !! c0) as [p|] eqn:Hp; cbn.
      - destruct (killed p || bool_decide (is_Some (exitCode p))) eqn:Hdead; cbn.
        + eexists _, _, _. split; [done|]. repeat split; try done.
          intros (p' & Hp' & Hk & He). rewrite Hp in Hp'. injection Hp' as <-.
          rewrite Hk, He in Hdead. done.
        + eexists _, _, _. split; [done|]. cbn. repeat split; try done.
          * by intros c [= <-].
          * intros _. set_solver.
      - eexists _, _, _. split; [done|]. repeat split; try done.
        intros (p' & Hp' & _). by rewrite Hp in Hp'. }
    destruct Hone as (w1 & log1 & p1 & -> & Hprocs1 & Hsup1 & Hp1 & Hsend1).
    destruct (IH w1) as (w2 & log2 & ps & Hdrive & Hprocs2 & Hsup2 & Hps & Hsend2).
    rewrite drive_mbind, Hdrive. cbn.
    eexists _, _, _. split; [done|].
    split; [congruence|]. split; [congruence|]. split.
    + intros c Hc. destruct p1 as [c1|]; cbn in Hc.
      * apply elem_of_cons in Hc as [->|Hc]; [|right; by apply Hps].
        rewrite (Hp1 c1 eq_refl). by left.
      * right. by apply Hps.
    + intros c Hc Halive. rewrite app_nil_r. apply elem_of_app.
      apply elem_of_cons in Hc as [->|Hc]; [left; by apply Hsend1|].
      right. apply Hsend2; [done|].
      destruct Halive as (p & ? & ? & ?). exists p. by rewrite Hprocs1.
Qed.

Lemma drive_awaitKillAll cs w :
  ∃ w' log,
    drive (awaitKillAll cs) w = (w', log, Ok tt)
    ∧ (∀ c, c ∈ cs → alive w c → Out (Send c Shutdown) ∈ log)
    ∧ (∀ g, g ∉ cs → procs (node w') !! g = procs (node w) !! g).
Proof.
  unfold awaitKillAll. rewrite drive_mbind.
  destruct (drive_killAll cs w) as (w1 & log1 & ps & -> & Hprocs & Hsup & Hps & Hsend).
  cbn -[deliver].
  pose proof (deliver_exits_procs (omap (λ p, p) ps) w1) as Hframe.
  destruct (deliver (WaitExit (omap (λ p, p) ps)) w1) as [w2 log2]. cbn in *.
  eexists _, _. split; [done|]. split.
  - intros c Hc Halive. apply elem_of_app. left. by apply Hsend.
  - intros g Hg. rewrite Hframe, Hprocs; [done|]. intros Hin. by apply Hg, Hps.
Qed.


Lemma elem_of_childrenOf (s : Supervisor) workerId c :
  botChildren s !! workerId = Some c → c ∈ childrenOf s.
Proof.
  intros Hc. unfold childrenOf. apply list_elem_of_fmap.
  exists (workerId, c). split; [done|]. by apply elem_of_map_to_list.
Qed.




(** ** The full reload *)

Lemma drive_forEach_quiet {A} (l : list A) (f : A → Supervisor → Supervisor) : ∀ w,
  drive (forEach l (λ x, modifySup (f x))) w =
  (with_sup (λ s, foldl (λ s x, f x s) s l) w, [], Ok tt).
Proof.
  induction l as [|x l IH]; intros w.
  - by destruct w.
  - cbn [forEach]. rewrite drive_mbind. cbn. rewrite IH. by destruct w.
Qed.

Lemma drive_forEach_send (l : list Pid) msg : ∀ w,
  drive (forEach l (λ child, send child msg)) w = (w, (λ c, Out (Send c msg)) <$> l, Ok tt).
Proof.
  induction l as [|x l IH]; intros w; [done|].
  cbn [forEach]. rewrite drive_mbind. cbn. by rewrite IH.
Qed.

(** [for (const worker of workers) spawnBotWorker(worker)]: every worker
    gets a child; of two workers with the same id the later one keeps the
    place in the child table. *)
Lemma drive_spawn_all ws : ∀ w,
  ∃ w' log,
    drive (forEach ws spawnBotWorker) w = (w', log, Ok tt)
    ∧ pendingEvents (sup w') = pendingEvents (sup w)
    ∧ shardInfoRequests (sup w') = shardInfoRequests (sup w)
    ∧ restChild (sup w') = restChild (sup w)
    ∧ shardOwner (sup w') = shardOwner (sup w)
    ∧ stopped (sup w') = stopped (sup w)
    ∧ nextPid (node w') = (nextPid (node w) + length ws)%nat
    ∧ (∀ k, k ∉ id <$> ws → botChildren (sup w') !! k = botChildren (sup w) !! k)
    ∧ (∀ v, v ∈ ws → ∃ c v', botChildren (sup w') !! id v = Some c
                              ∧ v' ∈ ws ∧ id v' = id v
                              ∧ Out (Fork c (BotRole v')) ∈ log).
Proof.
  induction ws as [|v0 ws IH]; intros w.
  - exists w, []. cbn. repeat split; try done; try lia. by intros v ?%elem_of_nil.
  - cbn [forEach]. rewrite drive_mbind. cbn.
    match goal with |- context [drive (forEach ws spawnBotWorker) ?w1] =>
      destruct (IH w1) as (w' & log & -> & Hpe & Hsir & Hrest & Hso & Hst & Hpid & Hbc & Hall)
    end.
    cbn in *. eexists _, _. split; [done|].
    split; [done|]. split; [done|]. split; [done|]. split; [done|]. split; [done|].
    split; [lia|]. split.
    + intros k Hk. apply not_elem_of_cons in Hk as [Hk0 Hk].
      rewrite Hbc by done. by rewrite lookup_insert_ne.
    + intros v Hv. apply elem_of_cons in Hv as [->|Hv].
      * destruct (decide (id v0 ∈ id <$> ws)) as [Hin|Hout].
        -- apply list_elem_of_fmap in Hin as (u & Hid & Hu).
           destruct (Hall u Hu) as (c & v' & Hc & Hv' & Hidv' & Hfork).
           exists c, v'. rewrite Hid. split; [done|]. split; [by right|].
           split; [done|]. by right.
        -- exists (nextPid (node w)), v0. rewrite Hbc by done.
           rewrite lookup_insert_eq. split; [done|]. split; [by left|]. split; [done|].
           by left.
      * destruct (Hall v Hv) as (c & v' & Hc & Hv' & Hidv' & Hfork).
        exists c, v'. split; [done|]. split; [by right|]. split; [done|]. by right.
Qed.

Lemma foldl_expected_keeps {A} (P : World → Prop) (l : list A)
    (f : A → gset string → gset string) :
  (∀ g w, P w → P (with_sup (set_expected g) w)) →
  ∀ w, P w → P (with_sup (λ s, foldl (λ s x, set_expected (f x) s) s l) w).
Proof.
  intros Hexp. induction l as [|x l IH]; intros w Hw.
  - by destruct w.
  - specialize (IH _ (Hexp (f x) w Hw)). by destruct w.
Qed.




(** ** The reload *)

Lemma drive_spawn_all_fresh ws : ∀ w,
  let r := drive (forEach ws spawnBotWorker) w in
  gatewayChild (sup r.1.1) = gatewayChild (sup w)
  ∧ reloading (sup r.1.1) = reloading (sup w)
  ∧ Forall (λ o, ∃ c v, o = Out (Fork c (BotRole v))) r.1.2
  ∧ (∀ k c, botChildren (sup r.1.1) !! k = Some c →
       botChildren (sup w) !! k = Some c ∨ (nextPid (node w) ≤ c)%nat).
Proof.
  induction ws as [|v0 ws IH]; intros w r.
  - cbn. split; [done|]. split; [done|]. split; [constructor|]. intros k c Hc. by left.
  - unfold r. cbn [forEach]. rewrite drive_mbind. cbn.
    match goal with |- context [drive (forEach ws spawnBotWorker) ?w1] =>
      specialize (IH w1); destruct (drive (forEach ws spawnBotWorker) w1) as [[w' log] res]
    end.
    cbn in *. destruct IH as (Hgw & Hrl & Hforks & Hfresh).
    split; [done|]. split; [done|]. split.
    + destruct res; cbn; constructor; eauto.
    + destruct res; cbn; intros k c Hc.
      all: destruct (Hfresh k c Hc) as [Hold|Hnew]; [|right; lia].
      all: apply lookup_insert_Some in Hold as [[_ <-]|[_ Hold]]; [right; lia|by left].
Qed.

Lemma returns_reload cluster : returns (reload cluster).
Proof.
  unfold reload. apply returns_bind; [done|]. intros s.
  destruct (stopped s); [done|].
  apply returns_bind; [done|]. intros _.
  apply returns_bind; [done|]. intros n.
  apply returns_bind; [done|]. intros s'.
  apply returns_bind; [by apply returns_forEach|]. intros _.
  apply returns_bind; [by apply returns_forEach|]. intros _.
  apply returns_bind; [apply returns_awaitKillAll|]. intros _.
  apply returns_bind; [done|]. intros _.
  apply returns_bind; [by apply returns_forEach|]. intros _.
  apply returns_bind; [done|]. done.
Qed.

Lemma before_after {A} (pre post : list A) (P Q : A → Prop) (i j : nat) x y :
  Forall (λ a, ¬ P a) pre → Forall (λ a, ¬ Q a) post →
  (pre ++ post) !! i = Some x → P x → (pre ++ post) !! j = Some y → Q y → (j < i)%nat.
Proof.
  intros Hpre Hpost Hi HP Hj HQ.
  apply lookup_app_Some in Hi as [Hi|[Hlen Hi]].
  { destruct (proj1 (Forall_lookup _ _) Hpre i x Hi HP). }
  apply lookup_app_Some in Hj as [Hj|[_ Hj]].
  - apply lookup_lt_Some in Hj. lia.
  - destruct (proj1 (Forall_lookup _ _) Hpost _ y Hj HQ).
Qed.

(** X27. [reload], run alone on a supervisor that is not stopped, replaces
    all the bot workers at once. Every registered child is sent
    [runtime:shutdown], and only when all of them have exited are the
    workers of the plan forked, so in the log every shutdown comes before
    every fork. When it returns, exactly the workers of the plan have a
    registered child, each a process that did not exist before; the queue
    of pending events, the gateway child and the REST child are as they
    were, and [reloading] is cleared. *)
Theorem reload_replaces_every_worker (cluster : RuntimeClusterConfig) (w : World) :
  stopped (sup w) = false →
  let r := drive (reload cluster) w in
  r.2 = Ok tt
  ∧ reloading (sup r.1.1) = false
  ∧ pendingEvents (sup r.1.1) = pendingEvents (sup w)
  ∧ gatewayChild (sup r.1.1) = gatewayChild (sup w)
  ∧ restChild (sup r.1.1) = restChild (sup w)
  ∧ (∀ workerId c, botChildren (sup w) !! workerId = Some c →
       Out (Send c Shutdown) ∈ r.1.2)
  ∧ (∀ v, v ∈ botWorkers cluster →
       ∃ c v', botChildren (sup r.1.1) !! id v = Some c
               ∧ (nextPid (node w) ≤ c)%nat
               ∧ v' ∈ botWorkers cluster ∧ id v' = id v
               ∧ Out (Fork c (BotRole v')) ∈ r.1.2)
  ∧ (∀ workerId, workerId ∉ id <$> botWorkers cluster →
       botChildren (sup r.1.1) !! workerId = None)
  ∧ (∀ (i j : nat) c role c',
       r.1.2 !! i = Some (Out (Fork c role)) →
       r.1.2 !! j = Some (Out (Send c' Shutdown)) → (j < i)%nat).
Proof.
  intros Hst r.
  split; [apply drive_returns_unit, returns_reload|].
  set (P := λ w0 : World, pendingEvents (sup w0) = pendingEvents (sup w)
                          ∧ gatewayChild (sup w0) = gatewayChild (sup w)
                          ∧ restChild (sup w0) = restChild (sup w)
                          ∧ (nextPid (node w) ≤ nextPid (node w0))%nat).
  unfold r, reload. cbn -[forEach awaitKillAll spawnBotWorker deliver].
  rewrite Hst. cbn -[forEach awaitKillAll spawnBotWorker deliver].
  change (childrenOf (set_reloading true (sup w))) with (childrenOf (sup w)).
  rewrite drive_mbind, drive_forEach_quiet.
  cbn -[forEach awaitKillAll spawnBotWorker deliver].
  rewrite drive_mbind, drive_forEach_send.
  cbn -[forEach awaitKillAll spawnBotWorker deliver].
  rewrite drive_mbind.
  match goal with |- context [drive (awaitKillAll ?cs) ?w1] =>
    assert (Hb : P (drive (awaitKillAll cs) w1).1.1)
      by (apply (frame_drive P); try done;
          [by apply (frame_awaitKillAll P)
          |apply (foldl_expected_keeps P); [done|]; unfold P; cbn; repeat split; lia]);
    pose proof (emits_drive noFork (awaitKillAll cs) w1
                  ltac:(intros; by apply emits_onExit)
                  ltac:(by apply emits_awaitKillAll)) as Hnf;
    destruct (drive_awaitKillAll cs w1) as (wb & logb & Hdriveb & _);
    rewrite Hdriveb in Hb, Hnf |- *
  end.
  cbn -[forEach awaitKillAll spawnBotWorker deliver] in *.
  rewrite drive_mbind.
  match goal with |- context [drive (forEach (botWorkers cluster) spawnBotWorker) ?w2] =>
    pose proof (drive_spawn_all_fresh (botWorkers cluster) w2) as Hfresh;
    destruct (drive_spawn_all (botWorkers cluster) w2)
      as (we & loge & Heq & Hpe & _ & Hrest & _ & _ & _ & Hbc & Hall);
    rewrite Heq in Hfresh |- *
  end.
  cbn -[deliver] in *.
  destruct Hb as (Hpb & Hgb & Hrb & Hnb).
  destruct Hfresh as (Hgw & _ & Hforks & Hnew).
  set (sends := (λ c, Out (Send c Shutdown)) <$> childrenOf (sup w)).
  assert (Hsync : ∃ ws logs,
    deliver (WaitSync (nextSync (node w))) we = (ws, logs)
    ∧ sup ws = sup we
    ∧ Forall (λ o, ∀ e, o ≠ Out e) logs).
  { cbn. destruct (bool_decide _); eexists _, _; (split; [done|]); (split; [done|]);
      by repeat constructor. }
  destruct Hsync as (ws & logs & -> & Hsup & Hlogs). cbn. rewrite Hsup.
  split; [done|]. split; [congruence|]. split; [congruence|]. split; [congruence|].
  split; [|split; [|split]].
  - intros workerId c Hc. right. apply elem_of_app. left.
    apply list_elem_of_fmap. exists c. split; [done|].
    by apply (elem_of_childrenOf _ workerId).
  - intros v Hv. destruct (Hall v Hv) as (c & v' & Hc & Hv' & Hid & Hfork).
    exists c, v'. split; [done|]. split.
    { destruct (Hnew _ _ Hc) as [Hold|Hge]; [by rewrite lookup_empty in Hold|lia]. }
    split; [done|]. split; [done|].
    right. apply elem_of_app. right. apply elem_of_app. right.
    apply elem_of_app. by left.
  - intros workerId Hk. by rewrite (Hbc workerId Hk).
  - intros i j c role c' Hi Hj.
    rewrite app_nil_r in Hi, Hj.
    apply (before_after (Out (StartCommandSync (nextSync (node w))) :: sends ++ logb)
             (loge ++ logs)
             (λ o, ∃ c role, o = Out (Fork c role))
             (λ o, ∃ c', o = Out (Send c' Shutdown)) i j
             (Out (Fork c role)) (Out (Send c' Shutdown))).
    + constructor; [by intros (? & ? & ?)|]. apply Forall_app. split.
      * apply Forall_fmap, Forall_forall. by intros x _ (? & ? & ?).
      * apply Forall_forall. intros o Ho (c0 & role0 & ->). by apply (Hnf _ Ho).
    + apply Forall_app. split.
      * eapply Forall_impl; [exact Hforks|]. by intros o (c0 & v0 & ->) (c1 & ?).
      * eapply Forall_impl; [exact Hlogs|]. intros o Ho (c1 & ->).
        by destruct (Ho (Send c1 Shutdown)).
    + by rewrite <- app_comm_cons, <- app_assoc.
    + by eexists _, _.
    + by rewrite <- app_comm_cons, <- app_assoc.
    + by eexists.
Qed.

Lemma reload_replaces_every_worker_witness :
  ∃ c, botChildren (sup (drive (reload cluster3) crashed).1.1) !! "bot-0" = Some c
       ∧ (nextPid (node crashed) ≤ c)%nat.
Proof.
  destruct (reload_replaces_every_worker cluster3 crashed eq_refl)
    as (_ & _ & _ & _ & _ & _ & Hnew & _).
  destruct (Hnew bot0 ltac:(by left)) as (c & v' & Hc & Hge & _).
  exists c. split; [exact Hc|exact Hge].
Defined.
(** ** The gateway events that come in and go out *)








Section Ledger.
Context (cluster : RuntimeClusterConfig) (cc : Z) (gateway : Pid).







End Ledger.



(** ** The plan and the owners *)

Lemma listers_of_partition (workers : list RuntimeBotWorkerConfig) shardId :
  NoDup (concat (shards <$> workers)) →
  ∀ worker, worker ∈ workers → shardId ∈ shards worker →
  filter (λ v, shardId ∈ shards v) workers = [worker].
Proof.
  induction workers as [|v workers IH]; intros Hnd worker Hin Hs.
  - by apply elem_of_nil in Hin.
  - rewrite fmap_cons, concat_cons in Hnd.
    apply NoDup_app in Hnd as (_ & Hdisj & Hnd). rewrite filter_cons.
    assert (Hrest : ∀ u, u ∈ workers → shardId ∈ shards u →
                         shardId ∈ concat (shards <$> workers)).
    { intros u Hu Hsu. apply elem_of_concat. exists (shards u). split; [done|].
      apply list_elem_of_fmap. by exists u. }
    destruct (decide (shardId ∈ shards v)) as [Hv|Hv].
    + assert (Hnone : filter (λ u, shardId ∈ shards u) workers = []).
      { destruct (filter _ workers) as [|u us] eqn:Hf; [done|].
        assert (Hu : u ∈ filter (λ u, shardId ∈ shards u) workers)
          by (rewrite Hf; by left).
        apply list_elem_of_filter in Hu as [Hsu Hu].
        destruct (Hdisj shardId Hv). by apply (Hrest u). }
      rewrite Hnone. apply elem_of_cons in Hin as [->|Hin]; [done|].
      destruct (Hdisj shardId Hv). by apply (Hrest worker).
    + apply elem_of_cons in Hin as [->|Hin]; [done|]. by apply IH.
Qed.

(** X21. When the planner makes the worker list itself, every shard of the
    cluster has an owner from the start and for the whole life of the
    supervisor, and no other shard has one: the ownership map is defined
    exactly on [firstShardId .. lastShardId], and the owner of a shard is
    the worker whose list holds it. So a gateway event of the cluster
    never waits in the queue for want of an owner. *)
Theorem generated_plan_owns_every_shard
    (workerOptions : option SnowcordWorkerRuntimeConfig)
    (clusterIdFromEnv : option string) (totalShards : Z) (c : RuntimeClusterConfig)
    (cc : Z) (evs : list Event) (shardId : Z) :
  generated (workerOptions ≫= workers_botWorkers) →
  (∀ entries entry, workerOptions ≫= clusters = Some entries → entry ∈ entries →
     generated (sc_botWorkers entry)) →
  normalizeCluster workerOptions clusterIdFromEnv totalShards = Ok c →
  let owner := shardOwner (sup (world (exec c cc evs (boot c)).1)) in
  (is_Some (owner !! shardId) ↔ firstShardId c ≤ shardId ≤ lastShardId c)
  ∧ (∀ worker, worker ∈ botWorkers c → shardId ∈ shards worker →
       owner !! shardId = Some (id worker)).
Proof.
  intros Hglobal Hentries Hok owner.
  destruct (generated_cluster_plan _ _ _ _ Hglobal Hentries Hok) as [Hrange Hcat].
  assert (Hnd : NoDup (concat (shards <$> botWorkers c)))
    by (rewrite Hcat; apply NoDup_seqZ).
  assert (Howner : ∀ worker, worker ∈ botWorkers c → shardId ∈ shards worker →
                             owner !! shardId = Some (id worker)).
  { intros worker Hin Hs. unfold owner.
    rewrite reachable_shardOwner, ownership_last.
    by rewrite (listers_of_partition _ _ Hnd worker Hin Hs). }
  split; [|done]. split.
  - unfold owner. rewrite reachable_shardOwner, ownership_last. intros [wid Hwid].
    destruct (last _) as [worker|] eqn:Hlast; [|done].
    apply last_Some_elem_of, list_elem_of_filter in Hlast as [Hs Hin].
    assert (Hmem : shardId ∈ concat (shards <$> botWorkers c)).
    { apply elem_of_concat. exists (shards worker). split; [done|].
      apply list_elem_of_fmap. by exists worker. }
    rewrite Hcat in Hmem. apply elem_of_seqZ in Hmem. lia.
  - intros Hs.
    assert (Hmem : shardId ∈ concat (shards <$> botWorkers c))
      by (rewrite Hcat; apply elem_of_seqZ; lia).
    apply elem_of_concat in Hmem as (l & Hsl & Hl).
    apply list_elem_of_fmap in Hl as (worker & -> & Hin).
    rewrite (Howner worker Hin Hsl). done.
Qed.

Lemma generated_plan_owns_every_shard_witness :
  ∃ c, normalizeCluster
         (Some {| clusters := Some [{| sc_id := "eu"; sc_firstShardId := Some 4;
                                       sc_lastShardId := Some 8;
                                       sc_botWorkers := Some (WorkersCount 2) |}];
                  clusterId := None; workers_botWorkers := None |}) None 16 = Ok c
       ∧ is_Some (shardOwner (sup (world (exec c 1 [] (boot c)).1)) !! 7).
Proof.
  eexists. split; [reflexivity|].
  match goal with |- is_Some (shardOwner (sup (world (exec ?c _ _ _).1)) !! _) =>
    destruct (generated_plan_owns_every_shard
                (Some {| clusters := Some [{| sc_id := "eu"; sc_firstShardId := Some 4;
                                              sc_lastShardId := Some 8;
                                              sc_botWorkers := Some (WorkersCount 2) |}];
                         clusterId := None; workers_botWorkers := None |})
                None 16 c 1 [] 7) as [Hdom _]
  end.
  - done.
  - intros entries entry [= <-] Hin. apply list_elem_of_singleton in Hin as ->. done.
  - reflexivity.
  - apply Hdom. cbn. lia.
Defined.

(** ** The bot worker and its callbacks *)





(** ** The gateway worker *)

(** X23. The gateway worker forwards every payload of its shards to the
    supervisor, exactly once and in the order of arrival, whether or not it
    is a [READY]; and it logs a shard as ready at most once, however often
    the shard says [READY]: a shard is logged exactly when it was not ready
    before and has sent a [READY], and the ready shards afterwards are the
    ones before and the logged ones. *)
Theorem gateway_forwards_every_payload (expectedShardCount : Z) (readyShards : gset Z)
    (messages : list (Z * DiscordGatewayPayload)) :
  let r := GatewayProcess.onShardMessages expectedShardCount readyShards messages in
  omap GatewayProcess.sentBy r.2 = (λ m, GatewayEvent m.1 m.2) <$> messages
  ∧ NoDup (omap GatewayProcess.loggedReady r.2)
  ∧ (∀ shardId, shardId ∈ omap GatewayProcess.loggedReady r.2 ↔
       (¬ shardId ∈ readyShards
        ∧ ∃ payload, (shardId, payload) ∈ messages ∧ t payload = Some "READY"))
  ∧ (∀ shardId, shardId ∈ r.1 ↔
       shardId ∈ readyShards ∨ shardId ∈ omap GatewayProcess.loggedReady r.2).
Proof.
  revert readyShards. induction messages as [|[s0 p0] messages IH]; intros readyShards r.
  - cbn. split; [done|]. split; [constructor|]. split.
    + intros shardId. split; [by intros ?%elem_of_nil|].
      by intros (_ & payload & ?%elem_of_nil & _).
    + intros shardId. split; [by left|]. by intros [?|?%elem_of_nil].
  - unfold r. cbn [GatewayProcess.onShardMessages].
    unfold GatewayProcess.onShardMessage.
    set (first := bool_decide (t p0 = Some "READY") && negb (bool_decide (s0 ∈ readyShards))).
    set (ready1 := if first then readyShards ∪ {[s0]} else readyShards).
    specialize (IH ready1). cbv zeta in IH.
    destruct (GatewayProcess.onShardMessages expectedShardCount ready1 messages)
      as [ready2 out2].
    cbn [fst snd] in *. destruct IH as (Hsent & Hnd & Hlogged & Hready).
    rewrite !omap_app, Hsent.
    assert (Hfirst : first = true ↔ t p0 = Some "READY" ∧ s0 ∉ readyShards).
    { unfold first. rewrite andb_true_iff, negb_true_iff, bool_decide_eq_true,
        bool_decide_eq_false. done. }
    destruct first eqn:Hf; cbn.
    + destruct (proj1 Hfirst eq_refl) as [Ht Hs0].
      split; [done|]. split; [|split].
      * constructor; [|done]. rewrite Hlogged. intros [Hout _]. apply Hout.
        unfold ready1. apply elem_of_union. right. by apply elem_of_singleton.
      * intros shardId. rewrite elem_of_cons, Hlogged. unfold ready1. split.
        -- intros [->|[Hout (payload & Hin & Hp)]].
           ++ split; [done|]. exists p0. split; [by left|done].
           ++ split; [|exists payload; split; [by right|done]].
              intros Hin'. apply Hout, elem_of_union. by left.
        -- intros [Hout (payload & Hin & Hp)].
           destruct (decide (shardId = s0)) as [->|Hne]; [by left|]. right.
           split.
           { intros [?|?%elem_of_singleton]%elem_of_union; done. }
           exists payload. split; [|done].
           apply elem_of_cons in Hin as [[= ? ?]|Hin]; done.
      * intros shardId. rewrite Hready, elem_of_cons. unfold ready1.
        rewrite elem_of_union, elem_of_singleton. tauto.
    + assert (Hnot : ¬ (t p0 = Some "READY" ∧ s0 ∉ readyShards)).
      { intros H. apply Hfirst in H. done. }
      split; [done|]. split; [done|]. split; [|done].
      intros shardId. rewrite Hlogged. unfold ready1. split.
      * intros [Hout (payload & Hin & Hp)]. split; [done|].
        exists payload. split; [by right|done].
      * intros [Hout (payload & Hin & Hp)]. split; [done|].
        exists payload. split; [|done].
        apply elem_of_cons in Hin as [[= -> ->]|Hin]; [|done].
        destruct Hnot. done.
Qed.

(** ** The shard info query, from the worker to the gateway and back *)

(** X24. A shard info query of a worker is answered with what the gateway
    worker computes. With a gateway child registered and a guild id that
    the gateway can read, the request goes from the worker through the
    supervisor to the gateway worker, the response comes back through the
    supervisor to the asking child alone, and the promise of the query is
    resolved with the shard of the guild and its round trip time ([-1]
    where the gateway has none). Afterwards the supervisor remembers
    nothing about the nonce, the listener is detached and the timeout of
    the query does nothing. *)
Theorem shard_info_round_trip (w : World) (child gatewayPid : Pid) (nonce : string)
    (guildId : option string) (gateway : GatewayProcess.Gateway) (shardId : Z) :
  gatewayChild (sup w) = Some gatewayPid →
  GatewayProcess.shardOfGuild gateway guildId = Some shardId →
  let request := GetShardInfo nonce guildId in
  let response :=
    ShardInfoResponse nonce shardId (default (-1) (GatewayProcess.rttOf gateway shardId)) in
  let asked := run (onBotMessage child request) w in
  let answered := run (onGatewayMessage response) asked.1.1 in
  let query := ShardInfoQuery.onMessage response (ShardInfoQuery.start nonce guildId).1 in
  (ShardInfoQuery.start nonce guildId).2 = [request]
  ∧ asked.1.2 = [Send gatewayPid request]
  ∧ GatewayProcess.onMessage gateway request = [GatewayProcess.ProcessSend response]
  ∧ answered.1.2 = [Send child response]
  ∧ shardInfoRequests (sup answered.1.1) !! nonce = None
  ∧ ShardInfoQuery.promise query.1 =
      ShardInfoQuery.Resolved
        {| ShardInfoQuery.shardId := shardId;
           ShardInfoQuery.rtt := default (-1) (GatewayProcess.rttOf gateway shardId) |}
  ∧ ShardInfoQuery.listening query.1 = false
  ∧ ShardInfoQuery.onTimeout query.1 = (query.1, []).
Proof.
  intros Hgw Hshard request response asked answered query.
  unfold answered, asked, response, request.
  rewrite run_shardInfoResponse, run_getShardInfo. cbn. rewrite Hgw, Hshard.
  rewrite lookup_insert_eq, lookup_delete_eq.
  unfold query. cbn. rewrite String.eqb_refl. cbn. done.
Qed.

Lemma shard_info_round_trip_witness :
  let gateway := {| GatewayProcess.calculateShardId := λ _, Some 2;
                    GatewayProcess.rttOf := λ _, Some 40 |} in
  (run (onGatewayMessage (ShardInfoResponse "n" 2 40))
     (run (onBotMessage 1%nat (GetShardInfo "n" (Some "81384788765712384")))
        (world (boot cluster3))).1.1).1.2
  = [Send 1%nat (ShardInfoResponse "n" 2 40)].
Proof.
  intros gateway.
  destruct (shard_info_round_trip (world (boot cluster3)) 1%nat 4%nat "n"
              (Some "81384788765712384") gateway 2 eq_refl eq_refl)
    as (_ & _ & _ & Hanswer & _).
  exact Hanswer.
Defined.

(** ** A query settles once *)

Lemma query_settled_stays (r : ShardInfoQuery.Request) inputs :
  ShardInfoQuery.listening r = false → ShardInfoQuery.timeoutArmed r = None →
  foldl QueryEvents.react r inputs = r.
Proof.
  intros Hl Ht. induction inputs as [|input inputs IH]; [done|].
  cbn [foldl]. assert (QueryEvents.react r input = r) as ->; [|done].
  destruct input as [message|]; cbn.
  - unfold ShardInfoQuery.onMessage. by rewrite Hl.
  - unfold ShardInfoQuery.onTimeout. by rewrite Ht.
Qed.

(** X25. A shard info query settles once, with the first thing that can
    settle it: of all the messages and timer events that reach a query, the
    first response with its nonce resolves it and a timeout before that
    rejects it; responses with another nonce and other messages are
    ignored; and whatever comes after the first settling event changes
    nothing. As long as nothing has settled it, the query is pending, its
    listener attached and its timeout armed; once settled, both are off. *)
Theorem query_settles_once (nonce : string) (guildId : option string)
    (inputs : list QueryEvents.Input) :
  let r := foldl QueryEvents.react (ShardInfoQuery.start nonce guildId).1 inputs in
  ShardInfoQuery.promise r =
    from_option QueryEvents.verdict ShardInfoQuery.Pending
      (List.find (QueryEvents.decides nonce) inputs)
  ∧ (ShardInfoQuery.listening r = true ↔ ShardInfoQuery.promise r = ShardInfoQuery.Pending)
  ∧ (is_Some (ShardInfoQuery.timeoutArmed r) ↔
       ShardInfoQuery.promise r = ShardInfoQuery.Pending).
Proof.
  intros r. unfold r. clear r. cbn [fst ShardInfoQuery.start].
  set (r0 := {| ShardInfoQuery.nonce := nonce; ShardInfoQuery.listening := true;
                ShardInfoQuery.timeoutArmed := Some 5000;
                ShardInfoQuery.promise := ShardInfoQuery.Pending |}).
  induction inputs as [|input inputs IH].
  - cbn. split; [done|]. split; [done|]. split; [done|]. by eexists.
  - cbn [foldl List.find].
    destruct (QueryEvents.decides nonce input) eqn:Hd.
    + assert (Hsettled : ∃ r1, QueryEvents.react r0 input = r1
                ∧ ShardInfoQuery.promise r1 = QueryEvents.verdict input
                ∧ ShardInfoQuery.promise r1 ≠ ShardInfoQuery.Pending
                ∧ ShardInfoQuery.listening r1 = false
                ∧ ShardInfoQuery.timeoutArmed r1 = None).
      { destruct input as [message|]; cbn in *.
        - destruct message; try done. rewrite Hd. cbn. eexists. by repeat split.
        - eexists. by repeat split. }
      destruct Hsettled as (r1 & -> & Hp & Hne & Hl & Ht).
      rewrite (query_settled_stays r1 inputs Hl Ht). cbn. rewrite Hl, Ht.
      split; [done|]. split; [done|]. split; [by intros []|done].
    + assert (QueryEvents.react r0 input = r0) as ->; [|done].
      destruct input as [message|]; cbn in *; [|done].
      destruct message; try done. by rewrite Hd.
Qed.

(** ** The paths of the REST worker *)

Lemma slice_length (s rest : string) : RestProcess.slice (String.length s) (s +:+ rest) = rest.
Proof. induction s as [|a s IH]; [by destruct rest|done]. Qed.

Lemma prefix_slash a (s1 s2 : string) :
  String.prefix "/" (String a s1) = String.prefix "/" (String a s2).
Proof. by destruct a as [[] [] [] [] [] [] [] []], s1, s2. Qed.

Lemma indexOf_slash (segment rest : string) :
  RestProcess.indexOfFrom "/" 0 segment = None →
  RestProcess.indexOfFrom "/" 0 (segment +:+ "/" +:+ rest) = Some (String.length segment).
Proof.
  induction segment as [|a segment IH]; intros Hnone; [by destruct rest|].
  change (String a segment +:+ "/" +:+ rest) with (String a (segment +:+ "/" +:+ rest)).
  cbn [RestProcess.indexOfFrom String.length] in *.
  rewrite (prefix_slash a _ segment).
  destruct (String.prefix "/" (String a segment)); [done|].
  destruct (RestProcess.indexOfFrom "/" 0 segment); [done|].
  by rewrite IH.
Qed.

Lemma normalizeDiscordPath_versioned (tail : string) :
  RestProcess.normalizeDiscordPath ("/v" +:+ tail) =
  match RestProcess.indexOfFrom "/" 0 tail with
  | None => "/"
  | Some slashIndex => RestProcess.slice slashIndex tail
  end.
Proof.
  unfold RestProcess.normalizeDiscordPath.
  assert (String.prefix "/v" ("/v" +:+ tail) = true) as -> by (by destruct tail).
  assert (RestProcess.indexOfFrom "/" 2 ("/v" +:+ tail) =
          S <$> (S <$> RestProcess.indexOfFrom "/" 0 tail)) as -> by reflexivity.
  by destruct (RestProcess.indexOfFrom "/" 0 tail).
Qed.

(** X26. [normalizeDiscordPath] drops the first segment of every path
    that starts with [/v], whether or not the segment is an API version:
    [/v], then a segment without a slash, then [/rest] becomes [/rest]; a
    path that is only such a segment becomes [/]; and every other path is
    left as it is. So [/v10/channels/1] becomes [/channels/1], and a path
    like [/voice/regions] loses its first segment as well. *)
Theorem normalizeDiscordPath_drops_first_segment (segment rest url : string) :
  RestProcess.indexOfFrom "/" 0 segment = None →
  RestProcess.normalizeDiscordPath ("/v" +:+ segment +:+ "/" +:+ rest) = "/" +:+ rest
  ∧ RestProcess.normalizeDiscordPath ("/v" +:+ segment) = "/"
  ∧ (String.prefix "/v" url = false → RestProcess.normalizeDiscordPath url = url).
Proof.
  intros Hsegment. split; [|split].
  - rewrite normalizeDiscordPath_versioned, (indexOf_slash segment rest Hsegment).
    apply (slice_length segment ("/" +:+ rest)).
  - by rewrite normalizeDiscordPath_versioned, Hsegment.
  - unfold RestProcess.normalizeDiscordPath. by intros ->.
Qed.

Lemma normalizeDiscordPath_drops_first_segment_witness :
  RestProcess.normalizeDiscordPath "/v10/channels/1" = "/channels/1"
  ∧ RestProcess.normalizeDiscordPath "/voice/regions" = "/regions".
Proof.
  split.
  - apply (normalizeDiscordPath_drops_first_segment "10" "channels/1" "").
    reflexivity.
  - apply (normalizeDiscordPath_drops_first_segment "oice" "regions" "").
    reflexivity.
Defined.
